(** * seo-mcp: heading analysis and composite scoring

    A shallow embedding of [src/services/heading-analyzer.ts],
    [src/services/scoring.ts] and the constants of
    [src/constants/seo-rules.ts], with the properties of the
    specification stated and proved over it.

    Conventions of the embedding.
    - A JavaScript [number] that holds a count, a length or a score is an
      integer; it is a [Z].  A quotient is an exact rational, [Q], and
      [Math.round] is the floor of [x + 1/2].  The code takes three kinds of
      quotient: [missingAlt / total], compared with 0.5, 0.2 and 0; the
      technical average [n / 35], which is never half-way between two
      integers; and the six [score * weight / 100], whose sum is half-way
      between two integers only when all six are multiples of 0.5.  On
      counts below 2^52 binary64 arithmetic therefore takes the same
      decisions as exact arithmetic; [float_blend] replays the blend in
      binary64 where a theorem rests on a rounding.
    - [NaN] is [None] in [option Z]; a comparison with [NaN] is false.
    - [string | null] is [option string]; JavaScript truthiness of such a
      value is [truthy].
    - A string is a sequence of UTF-16 code units below 256, Basic Latin
      and the Latin-1 Supplement: a character of [string] is one code
      unit, [length] counts code units.  On these [toLowerCase] and [trim]
      are the methods of [String.prototype]; so is [toUpperCase] but for
      the two code units whose upper-case form lies above 255.
    - The objects [buildHeadingTree] allocates and later mutates through
      references live in a store; the forest returned is read off the
      store at the end. *)

From Stdlib Require Import ZArith QArith Qround Floats Lia List Ascii String Sorting.Sorted.
From stdpp Require Import base strings list gmap pretty sorting.

Local Open Scope Z_scope.
Set Warnings "-register-all".

(** ** Constants: [src/constants/seo-rules.ts] *)

Module SEO_RULES.
Module title.
Definition minLength : Z := 30.
Definition maxLength : Z := 60.
Definition idealMinLength : Z := 50.
Definition idealMaxLength : Z := 60.
End title.
Module metaDescription.
Definition minLength : Z := 70.
Definition maxLength : Z := 160.
Definition idealMinLength : Z := 150.
Definition idealMaxLength : Z := 160.
End metaDescription.
Module headings.
Definition maxH1Count : Z := 1.
Definition maxEmptyHeadings : Z := 0.
End headings.
Module links.
Definition maxPerPage : Z := 150.
End links.
Module content.
Module minWordCount.
Definition blogPost : Z := 300.
Definition productPage : Z := 150.
Definition categoryPage : Z := 200.
Definition landingPage : Z := 200.
Definition homepage : Z := 200.
End minWordCount.
Definition thinContentThreshold : Z := 200.
End content.
End SEO_RULES.

Module SCORE_WEIGHTS.
Definition title : Z := 20.
Definition metaDescription : Z := 10.
Definition headings : Z := 15.
Definition images : Z := 10.
Definition links : Z := 10.
Definition canonical : Z := 10.
Definition openGraph : Z := 5.
Definition robots : Z := 10.
Definition content : Z := 10.
End SCORE_WEIGHTS.

(** ** JavaScript primitives used by the two services *)

(** Truthiness of a [string | null | undefined]: absent and empty are falsy. *)
Definition truthy (s : option string) : bool :=
  match s with
  | Some s => negb (String.eqb s "")
  | None => false
  end.

(** [Math.max(0, Math.min(100, score))]. *)
Definition clamp100 (score : Z) : Z := Z.max 0 (Z.min 100 score).

(** [Math.round]: the nearest integer, a tie going towards +infinity. *)
Definition Math_round (x : Q) : Z := Qfloor (x + (1 # 2)).

(** [a > b] on rationals. *)
Definition Qgtb (a b : Q) : bool := negb (Qle_bool a b).

(** ** The scorer's input: [types/seo-types.ts] *)

Record TitleAnalysis := {
  title_text : option string;
  title_length : Z;
  title_issues : list string }.

Record MetaDescriptionAnalysis := {
  meta_text : option string;
  meta_length : Z;
  meta_issues : list string }.

Record CanonicalAnalysis := {
  canonical_url : option string;
  canonical_isSelfReferencing : bool;
  canonical_issues : list string }.

Record RobotsAnalysis := {
  robots_meta : option string;
  robots_xRobotsTag : option string;
  robots_isIndexable : bool }.

Record OpenGraphAnalysis := {
  og_title : option string;
  og_description : option string;
  og_image : option string;
  og_url : option string;
  og_type : option string;
  og_issues : list string }.

Record HeadingSummary := {
  h1Count : Z;
  h1Text : list string;
  totalHeadings : Z;
  headings_issues : list string }.

Record ImageSummary := {
  images_total : Z;
  images_missingAlt : Z;
  images_issues : list string }.

Record LinkSummary := {
  links_internal : Z;
  links_external : Z;
  links_nofollow : Z }.

Record ContentAnalysis := {
  wordCount : Z;
  readabilityScore : Z }.

(** The fields of [PageAnalysis] the scorer reads ([url], [statusCode],
    [redirectChain], [responseTime] and the placeholder [score] are never
    inspected by [calculateSeoScore]). *)
Record PageAnalysis := {
  pa_title : TitleAnalysis;
  pa_metaDescription : MetaDescriptionAnalysis;
  pa_canonical : CanonicalAnalysis;
  pa_robots : RobotsAnalysis;
  pa_openGraph : OpenGraphAnalysis;
  pa_headings : HeadingSummary;
  pa_images : ImageSummary;
  pa_links : LinkSummary;
  pa_content : option ContentAnalysis }.

Record Breakdown := {
  b_title : Z;
  b_meta : Z;
  b_headings : Z;
  b_images : Z;
  b_links : Z;
  b_technical : Z }.

Record SeoScore := {
  overall : Z;
  breakdown : Breakdown }.

(** [issues.length] of a string array. *)
Definition len {A} (l : list A) : Z := Z.of_nat (length l).

(** ** Per-category scores: [src/services/scoring.ts] *)

Definition scoreTitleCategory (analysis : PageAnalysis) : Z :=
  let title := pa_title analysis in
  if negb (truthy (title_text title)) then 0 else
  let score := 60 in
  let len_ := title_length title in
  let score :=
    if (len_ >=? SEO_RULES.title.idealMinLength) && (len_ <=? SEO_RULES.title.idealMaxLength)
    then 100
    else if (len_ >=? SEO_RULES.title.minLength) && (len_ <=? SEO_RULES.title.maxLength)
    then 80
    else if len_ >? SEO_RULES.title.maxLength then 50
    else if (len_ <? SEO_RULES.title.minLength) && (len_ >? 0) then 40
    else score in
  let score := score - len (title_issues title) * 10 in
  clamp100 score.

Definition scoreMetaCategory (analysis : PageAnalysis) : Z :=
  let metaDescription := pa_metaDescription analysis in
  if negb (truthy (meta_text metaDescription)) then 0 else
  let score := 60 in
  let len_ := meta_length metaDescription in
  let score :=
    if (len_ >=? SEO_RULES.metaDescription.idealMinLength)
       && (len_ <=? SEO_RULES.metaDescription.idealMaxLength)
    then 100
    else if (len_ >=? SEO_RULES.metaDescription.minLength)
            && (len_ <=? SEO_RULES.metaDescription.maxLength)
    then 80
    else if len_ >? SEO_RULES.metaDescription.maxLength then 50
    else if (len_ <? SEO_RULES.metaDescription.minLength) && (len_ >? 0) then 40
    else score in
  let score := score - len (meta_issues metaDescription) * 10 in
  clamp100 score.

Definition scoreHeadingsCategory (analysis : PageAnalysis) : Z :=
  let headings := pa_headings analysis in
  let score := 100 in
  let score :=
    if h1Count headings =? 0 then score - 40
    else if h1Count headings >? SEO_RULES.headings.maxH1Count then score - 20
    else score in
  let score := if totalHeadings headings =? 0 then score - 30 else score in
  let score := score - len (headings_issues headings) * 10 in
  clamp100 score.

Definition scoreImagesCategory (analysis : PageAnalysis) : Z :=
  let images := pa_images analysis in
  if images_total images =? 0 then 100 else
  let score := 100 in
  let missingAltRatio :=
    (inject_Z (images_missingAlt images) / inject_Z (images_total images))%Q in
  let score :=
    if Qgtb missingAltRatio (1 # 2) then score - 40
    else if Qgtb missingAltRatio (1 # 5) then score - 20
    else if Qgtb missingAltRatio 0 then score - 10
    else score in
  let score := score - len (images_issues images) * 5 in
  clamp100 score.

Definition scoreLinksCategory (analysis : PageAnalysis) : Z :=
  let links := pa_links analysis in
  let score := 100 in
  let score := if links_internal links =? 0 then score - 20 else score in
  let totalLinks := links_internal links + links_external links in
  let score := if totalLinks >? SEO_RULES.links.maxPerPage then score - 15 else score in
  let score := if totalLinks =? 0 then score - 30 else score in
  clamp100 score.

Definition scoreCanonicalCategory (analysis : PageAnalysis) : Z :=
  let canonical := pa_canonical analysis in
  if negb (truthy (canonical_url canonical)) then 30 else
  let score := 100 in
  let score := score - len (canonical_issues canonical) * 15 in
  clamp100 score.

Definition scoreOpenGraphCategory (analysis : PageAnalysis) : Z :=
  let openGraph := pa_openGraph analysis in
  let score := 0 in
  let score := if truthy (og_title openGraph) then score + 25 else score in
  let score := if truthy (og_description openGraph) then score + 25 else score in
  let score := if truthy (og_image openGraph) then score + 25 else score in
  let score := if truthy (og_url openGraph) then score + 15 else score in
  let score := if truthy (og_type openGraph) then score + 10 else score in
  let score := score - len (og_issues openGraph) * 10 in
  clamp100 score.

Definition scoreRobotsCategory (analysis : PageAnalysis) : Z :=
  let robots := pa_robots analysis in
  if negb (robots_isIndexable robots) then 20 else 100.

Definition scoreContentCategory (analysis : PageAnalysis) : Z :=
  match pa_content analysis with
  | None => 50
  | Some content =>
      let score := 100 in
      let score :=
        if wordCount content <? SEO_RULES.content.thinContentThreshold then score - 40
        else if wordCount content <? SEO_RULES.content.minWordCount.homepage then score - 20
        else score in
      clamp100 score
  end.

(** ** The blend: [calculateSeoScore] *)

Record CategoryScore := {
  score : Z;
  weight : Z;
  weighted : Q }.

(** [categories] is an object with six fixed keys; [Object.values] lists
    them in insertion order, and assigning to the existing key
    [technical] keeps its place. *)
Record Categories := {
  c_title : CategoryScore;
  c_meta : CategoryScore;
  c_headings : CategoryScore;
  c_images : CategoryScore;
  c_links : CategoryScore;
  c_technical : CategoryScore }.

Definition Object_values (c : Categories) : list CategoryScore :=
  [c_title c; c_meta c; c_headings c; c_images c; c_links c; c_technical c].

Definition set_technical (c : Categories) (t : CategoryScore) : Categories :=
  {| c_title := c_title c; c_meta := c_meta c; c_headings := c_headings c;
     c_images := c_images c; c_links := c_links c; c_technical := t |}.

(** The loop [for (const cat of Object.values(categories)) cat.weighted = ...]
    writes the field of each of the six objects. *)
Definition set_weighted (totalWeight : Z) (cat : CategoryScore) : CategoryScore :=
  {| score := score cat; weight := weight cat;
     weighted := (inject_Z (score cat * weight cat) / inject_Z totalWeight)%Q |}.

Definition weigh_all (totalWeight : Z) (c : Categories) : Categories :=
  {| c_title := set_weighted totalWeight (c_title c);
     c_meta := set_weighted totalWeight (c_meta c);
     c_headings := set_weighted totalWeight (c_headings c);
     c_images := set_weighted totalWeight (c_images c);
     c_links := set_weighted totalWeight (c_links c);
     c_technical := set_weighted totalWeight (c_technical c) |}.

Definition technicalWeight : Z :=
  SCORE_WEIGHTS.canonical + SCORE_WEIGHTS.openGraph + SCORE_WEIGHTS.robots
  + SCORE_WEIGHTS.content.

(** The unrounded [technicalScore] of line 166. *)
Definition technicalScore (analysis : PageAnalysis) : Q :=
  let canonicalScore := scoreCanonicalCategory analysis in
  let ogScore := scoreOpenGraphCategory analysis in
  let robotsScore := scoreRobotsCategory analysis in
  let contentScore := scoreContentCategory analysis in
  (inject_Z (canonicalScore * SCORE_WEIGHTS.canonical
             + ogScore * SCORE_WEIGHTS.openGraph
             + robotsScore * SCORE_WEIGHTS.robots
             + contentScore * SCORE_WEIGHTS.content)
   / inject_Z technicalWeight)%Q.

Definition calculateSeoScore (analysis : PageAnalysis) : SeoScore :=
  let categories :=
    {| c_title := {| score := scoreTitleCategory analysis;
                     weight := SCORE_WEIGHTS.title; weighted := 0 |};
       c_meta := {| score := scoreMetaCategory analysis;
                    weight := SCORE_WEIGHTS.metaDescription; weighted := 0 |};
       c_headings := {| score := scoreHeadingsCategory analysis;
                        weight := SCORE_WEIGHTS.headings; weighted := 0 |};
       c_images := {| score := scoreImagesCategory analysis;
                      weight := SCORE_WEIGHTS.images; weighted := 0 |};
       c_links := {| score := scoreLinksCategory analysis;
                     weight := SCORE_WEIGHTS.links; weighted := 0 |};
       c_technical := {| score := 0; weight := 0; weighted := 0 |} |} in
  let categories :=
    set_technical categories
      {| score := Math_round (technicalScore analysis);
         weight := technicalWeight; weighted := 0 |} in
  let totalWeight :=
    fold_left (fun sum c => sum + weight c) (Object_values categories) 0 in
  let categories := weigh_all totalWeight categories in
  let overall_ :=
    Math_round
      (fold_left (fun sum c => (sum + weighted c)%Q) (Object_values categories) 0%Q) in
  {| overall := clamp100 overall_;
     breakdown :=
       {| b_title := score (c_title categories);
          b_meta := score (c_meta categories);
          b_headings := score (c_headings categories);
          b_images := score (c_images categories);
          b_links := score (c_links categories);
          b_technical := score (c_technical categories) |} |}.

(** ** Strings: code units below 256 *)

Definition code (c : ascii) : Z := Z.of_nat (nat_of_ascii c).

(** The code units with a lower-case form: A-Z, and U+00C0 .. U+00DE
    without the multiplication sign U+00D7. *)
Definition is_upper (c : ascii) : bool :=
  ((65 <=? code c) && (code c <=? 90))
  || ((192 <=? code c) && (code c <=? 222) && negb (code c =? 215)).

(** The code units whose upper-case form is one code unit below 256: a-z,
    and U+00E0 .. U+00FE without the division sign U+00F7. *)
Definition is_lower (c : ascii) : bool :=
  ((97 <=? code c) && (code c <=? 122))
  || ((224 <=? code c) && (code c <=? 254) && negb (code c =? 247)).

(** [toLowerCase] of one code unit: the lower-case form of an upper-case
    letter lies 32 above it.  No rule of [toLowerCase] that looks at the
    context or lengthens the string (final sigma, U+0130) applies below
    256. *)
Definition lower_char (c : ascii) : ascii :=
  if is_upper c then ascii_of_nat (nat_of_ascii c + 32) else c.

(** [toUpperCase] of one code unit: a string, since the sharp s U+00DF
    becomes [SS].  The upper-case forms of the micro sign U+00B5 and of
    U+00FF are U+039C and U+0178, above 255: these two code units are kept,
    the one place where the function departs from the method.  The code
    applies [toUpperCase] to tag names only (lines 100 and 128). *)
Definition upper_char (c : ascii) : string :=
  if is_lower c then String (ascii_of_nat (nat_of_ascii c - 32)) EmptyString
  else if code c =? 223 then "SS"%string
  else String c EmptyString.

Fixpoint map_chars (f : ascii -> ascii) (s : string) : string :=
  match s with
  | EmptyString => EmptyString
  | String c s' => String (f c) (map_chars f s')
  end.

Definition toLowerCase : string -> string := map_chars lower_char.

Fixpoint toUpperCase (s : string) : string :=
  match s with
  | EmptyString => EmptyString
  | String c s' => upper_char c +:+ toUpperCase s'
  end.

(** The code units [trim] removes: of WhiteSpace and LineTerminator these
    lie below 256: tab, line feed, vertical tab, form feed, carriage
    return, space and the no-break space U+00A0. *)
Definition is_ws (c : ascii) : bool :=
  ((9 <=? code c) && (code c <=? 13)) || (code c =? 32) || (code c =? 160).

Fixpoint trimStart (s : string) : string :=
  match s with
  | String c s' => if is_ws c then trimStart s' else s
  | EmptyString => EmptyString
  end.

Definition trim (s : string) : string :=
  String.rev (trimStart (String.rev (trimStart s))).

(** Every code unit of [s] is below 128. *)
Definition is_ascii (s : string) : bool :=
  forallb (fun c => code c <? 128) (list_ascii_of_string s).

(** [s.includes(sub)]: [sub] occurs in [s] at some position. *)
Fixpoint includes (s sub : string) : bool :=
  if String.prefix sub s then true
  else match s with
       | EmptyString => false
       | String _ s' => includes s' sub
       end.

(** ** Headings: [src/services/heading-analyzer.ts] *)

Record FlatHeading := {
  tag : string;
  text : string;
  order : Z }.

(** [parseInt(c, 10)] of the one-character string [c]: a decimal digit, or
    [NaN]. *)
Definition parseInt_char (c : ascii) : option Z :=
  if (48 <=? code c) && (code c <=? 57) then Some (code c - 48) else None.

(** [parseInt(tag.charAt(1), 10)]; [charAt(1)] of a string shorter than two
    characters is the empty string, whose [parseInt] is [NaN]. *)
Definition getHeadingLevel (tag : string) : option Z :=
  match tag with
  | String _ (String c _) => parseInt_char c
  | _ => None
  end.

(** [a >= b] on numbers: false as soon as one side is [NaN]. *)
Definition num_ge (a b : option Z) : bool :=
  match a, b with
  | Some x, Some y => x >=? y
  | _, _ => false
  end.

(** *** The tree builder

    [buildHeadingTree] allocates one object per heading and afterwards
    pushes into the [children] array of objects that are already referenced
    from [tree] and from [stack].  The objects therefore live in a store,
    [heap]; a reference is an index into it, and [tree], [stack] and
    [children] hold references. *)

Record HeapNode := {
  hn_tag : string;
  hn_text : string;
  hn_order : Z;
  hn_children : list nat }.

Record StackEntry := {
  se_node : nat;
  se_level : option Z }.

(** The [stack] array is kept with its last element, [stack[stack.length-1]],
    at the head of the list. *)
Record Builder := {
  heap : list HeapNode;
  tree : list nat;
  stack : list StackEntry }.

(** [getHeadingLevel(entry.node.tag)]. *)
Definition entry_level (heap : list HeapNode) (entry : StackEntry) : option Z :=
  match heap !! se_node entry with
  | Some n => getHeadingLevel (hn_tag n)
  | None => None
  end.

(** [while (stack.length > 0 && getHeadingLevel(top.node.tag) >= level) stack.pop()]. *)
Fixpoint pop_while (heap : list HeapNode) (level : option Z)
    (stack : list StackEntry) : list StackEntry :=
  match stack with
  | [] => []
  | top :: rest =>
      if num_ge (entry_level heap top) level
      then pop_while heap level rest
      else stack
  end.

(** [parent.children.push(node)]. *)
Definition push_child (node : nat) (parent : HeapNode) : HeapNode :=
  {| hn_tag := hn_tag parent; hn_text := hn_text parent;
     hn_order := hn_order parent;
     hn_children := hn_children parent ++ [node] |}.

(** One iteration of the [for (const item of flatList)] loop. *)
Definition build_step (b : Builder) (item : FlatHeading) : Builder :=
  let level := getHeadingLevel (tag item) in
  let node := length (heap b) in
  let heap1 :=
    heap b ++ [ {| hn_tag := tag item; hn_text := text item;
                   hn_order := order item; hn_children := [] |} ] in
  let stack1 := pop_while heap1 level (stack b) in
  match stack1 with
  | [] =>
      {| heap := heap1; tree := tree b ++ [node];
         stack := {| se_node := node; se_level := level |} :: stack1 |}
  | parent :: _ =>
      {| heap := alter (push_child node) (se_node parent) heap1;
         tree := tree b;
         stack := {| se_node := node; se_level := level |} :: stack1 |}
  end.

Definition build_init : Builder := {| heap := []; tree := []; stack := [] |}.

Definition build_run (flatList : list FlatHeading) : Builder :=
  fold_left build_step flatList build_init.

(** The value returned to the caller: the object graph reachable from the
    references in [tree]. *)
Inductive HeadingNode : Type :=
  mkHeadingNode (node_tag : string) (node_text : string) (node_order : Z)
                (children : list HeadingNode).

Definition node_tag (n : HeadingNode) : string :=
  match n with mkHeadingNode t _ _ _ => t end.
Definition node_text (n : HeadingNode) : string :=
  match n with mkHeadingNode _ t _ _ => t end.
Definition node_order (n : HeadingNode) : Z :=
  match n with mkHeadingNode _ _ o _ => o end.
Definition children (n : HeadingNode) : list HeadingNode :=
  match n with mkHeadingNode _ _ _ c => c end.

(** Reading the object behind a reference, to depth [fuel]. *)
Fixpoint reify (fuel : nat) (heap : list HeapNode) (ref : nat) : option HeadingNode :=
  match fuel with
  | O => None
  | S fuel' =>
      match heap !! ref with
      | None => None
      | Some n =>
          match mapM (reify fuel' heap) (hn_children n) with
          | None => None
          | Some cs => Some (mkHeadingNode (hn_tag n) (hn_text n) (hn_order n) cs)
          end
      end
  end.

Definition buildHeadingTree (flatList : list FlatHeading) : option (list HeadingNode) :=
  let b := build_run flatList in
  mapM (reify (length (heap b)) (heap b)) (tree b).

(** *** Counts and keyword presence *)

(** [counts[item.tag] = (counts[item.tag] || 0) + 1]. *)
Definition countByLevel (flatList : list FlatHeading) : gmap string Z :=
  fold_left
    (fun (counts : gmap string Z) item =>
       <[tag item := default 0 (counts !! tag item) + 1]> counts)
    flatList ∅.

Record KeywordPresence := {
  inH1 : bool;
  inH2 : list string;
  count : Z }.

Definition checkKeywordPresence (flatList : list FlatHeading) (keyword : string)
    : KeywordPresence :=
  let lower := toLowerCase keyword in
  fold_left
    (fun acc item =>
       let textLower := toLowerCase (text item) in
       if includes textLower lower then
         {| inH1 := if String.eqb (tag item) "h1" then true else inH1 acc;
            inH2 := if String.eqb (tag item) "h2" then inH2 acc ++ [text item]
                    else inH2 acc;
            count := count acc + 1 |}
       else acc)
    flatList {| inH1 := false; inH2 := []; count := 0 |}.

(** *** Issues *)

Inductive Severity := critical | high | medium | low.

Record SeoIssue := {
  type : string;
  severity : Severity;
  detail : string }.

(** [`${n}`] for a number. *)
Definition show_num (n : option Z) : string :=
  match n with
  | Some z => pretty z
  | None => "NaN"
  end.

(** [new Set(levels)]: the distinct values, in order of first insertion
    ([NaN] is equal to itself in a [Set]). *)
Definition Set_of (levels : list (option Z)) : list (option Z) :=
  fold_left (fun s x => if decide (x ∈ s) then s else s ++ [x]) levels [].

(** The comparator [(a, b) => a - b] yields a positive number. *)
Definition cmp_pos (a b : option Z) : bool :=
  match a, b with
  | Some x, Some y => x - y >? 0
  | _, _ => false
  end.

(** [sort((a, b) => a - b)], as a stable insertion sort.  (With a [NaN]
    among the values the comparator is inconsistent and ECMAScript leaves
    the order to the implementation; on numbers every conforming sort
    returns the same array.) *)
Fixpoint sort_insert (x : option Z) (sorted : list (option Z)) : list (option Z) :=
  match sorted with
  | [] => [x]
  | y :: rest => if cmp_pos y x then x :: sorted else y :: sort_insert x rest
  end.

Definition sort_levels (l : list (option Z)) : list (option Z) :=
  fold_left (fun acc x => sort_insert x acc) l [].

(** [sorted[i] - sorted[i - 1] > 1]. *)
Definition gap_gt_1 (prev cur : option Z) : bool :=
  match prev, cur with
  | Some p, Some c => c - p >? 1
  | _, _ => false
  end.

Definition num_add (a : option Z) (k : Z) : option Z :=
  match a with Some x => Some (x + k) | None => None end.

(** [a === b] on numbers. *)
Definition num_eq (a b : option Z) : bool :=
  match a, b with
  | Some x, Some y => x =? y
  | _, _ => false
  end.

Definition skipped_issue (prev cur : option Z) : SeoIssue :=
  let skippedStart := num_add prev 1 in
  let skippedEnd := num_add cur (-1) in
  let skipped :=
    if num_eq skippedStart skippedEnd
    then "H" +:+ show_num skippedStart
    else "H" +:+ show_num skippedStart +:+ "-H" +:+ show_num skippedEnd in
  {| type := "skipped_level";
     severity := medium;
     detail := "Heading level skipped: " +:+ skipped +:+ " (found H"
               +:+ show_num prev +:+ " followed by H" +:+ show_num cur +:+ ")" |}.

(** [for (let i = 1; i < sorted.length; i++)] over the pairs
    [(sorted[i - 1], sorted[i])]. *)
Fixpoint skipped_loop (sorted : list (option Z)) (issues : list SeoIssue)
    : list SeoIssue :=
  match sorted with
  | prev :: (cur :: _) as rest =>
      skipped_loop rest
        (if gap_gt_1 prev cur then issues ++ [skipped_issue prev cur] else issues)
  | _ => issues
  end.

Definition identifyIssues (flatList : list FlatHeading) (counts : gmap string Z)
    : list SeoIssue :=
  let issues : list SeoIssue := [] in
  let h1Count := default 0 (counts !! "h1") in
  let issues :=
    if h1Count =? 0 then
      issues ++ [ {| type := "missing_h1"; severity := critical;
                     detail := "Page is missing an H1 heading" |} ]
    else if h1Count >? SEO_RULES.headings.maxH1Count then
      issues ++ [ {| type := "multiple_h1"; severity := high;
                     detail := "Page has " +:+ pretty h1Count
                               +:+ " H1 headings (recommended: "
                               +:+ pretty SEO_RULES.headings.maxH1Count +:+ ")" |} ]
    else issues in
  let issues :=
    fold_left
      (fun issues item =>
         if negb (truthy (Some (trim (text item)))) then
           issues ++ [ {| type := "empty_heading"; severity := medium;
                          detail := "Empty " +:+ toUpperCase (tag item)
                                    +:+ " heading at position "
                                    +:+ pretty (order item) |} ]
         else issues)
      flatList issues in
  let usedLevels := Set_of (map (fun h => getHeadingLevel (tag h)) flatList) in
  let issues :=
    if (1 <? length usedLevels)%nat
    then skipped_loop (sort_levels usedLevels) issues
    else issues in
  let issues :=
    match flatList with
    | first :: _ =>
        if negb (num_eq (getHeadingLevel (tag first)) (Some 1)) then
          issues ++ [ {| type := "no_h1_first"; severity := medium;
                         detail := "First heading is " +:+ toUpperCase (tag first)
                                   +:+ ", expected H1" |} ]
        else issues
    | [] => issues
    end in
  issues.

(** *** [analyzeHeadings], from the scanned [flatList] on

    The function first fetches the page and collects [flatList] from the
    parsed document; what follows line 154 is a function of [flatList] and
    [targetKeyword]. *)

Record HeadingAnalysis := {
  headingTree : list HeadingNode;
  flatList : list FlatHeading;
  counts : gmap string Z;
  keywordPresence : option KeywordPresence;
  issues : list SeoIssue }.

(** Lines 158-160. *)
Definition keywordPresence_of (flatList : list FlatHeading)
    (targetKeyword : option string) : option KeywordPresence :=
  match targetKeyword with
  | Some kw => if truthy targetKeyword then Some (checkKeywordPresence flatList kw) else None
  | None => None
  end.

(** Lines 156-168: the issues of the result, for the [counts] handed to
    [identifyIssues]. *)
Definition analysisIssues (flatList : list FlatHeading) (counts : gmap string Z)
    (targetKeyword : option string) : list SeoIssue :=
  let issues := identifyIssues flatList counts in
  let keywordPresence := keywordPresence_of flatList targetKeyword in
  match targetKeyword, keywordPresence with
  | Some kw, Some kp =>
      if truthy targetKeyword && negb (inH1 kp) then
        issues ++ [ {| type := "keyword_missing_h1"; severity := high;
                       detail := "Target keyword " +:+ String "034" kw
                                 +:+ String "034" " not found in H1" |} ]
      else issues
  | _, _ => issues
  end.

Definition analyzeHeadings (flatList : list FlatHeading)
    (targetKeyword : option string) : option HeadingAnalysis :=
  let counts := countByLevel flatList in
  match buildHeadingTree flatList with
  | None => None
  | Some headingTree =>
      Some {| headingTree := headingTree;
              flatList := flatList;
              counts := counts;
              keywordPresence := keywordPresence_of flatList targetKeyword;
              issues := analysisIssues flatList counts targetKeyword |}
  end.

(** The scan of lines 144-152 numbers the headings 1, 2, ... in document
    order. *)
Fixpoint scan_from (order : Z) (elements : list (string * string)) : list FlatHeading :=
  match elements with
  | [] => []
  | (t, x) :: rest =>
      {| tag := t; text := x; order := order + 1 |} :: scan_from (order + 1) rest
  end.

Definition scan (elements : list (string * string)) : list FlatHeading :=
  scan_from 0 elements.

(** ** The blend as the specification words it *)

Definition sum_weights (cats : list (Q * Z)) : Z :=
  fold_right (fun c acc => snd c + acc) 0 cats.

Definition sum_weighted (cats : list (Q * Z)) : Q :=
  fold_right (fun c acc => fst c * inject_Z (snd c) + acc)%Q 0%Q cats.

(** [Σ score_i × weight_i / Σ weight_i]. *)
Definition weighted_average (cats : list (Q * Z)) : Q :=
  (sum_weighted cats / inject_Z (sum_weights cats))%Q.

(** [round(Σ score_i × weight_i / Σ weight_i)], clamped to [0,100]. *)
Definition weighted_blend (cats : list (Q * Z)) : Z :=
  clamp100 (Math_round (weighted_average cats)).

(** The four technical signals with their own sub-weights. *)
Definition technical_categories (a : PageAnalysis) : list (Q * Z) :=
  [ (inject_Z (scoreCanonicalCategory a), SCORE_WEIGHTS.canonical);
    (inject_Z (scoreOpenGraphCategory a), SCORE_WEIGHTS.openGraph);
    (inject_Z (scoreRobotsCategory a), SCORE_WEIGHTS.robots);
    (inject_Z (scoreContentCategory a), SCORE_WEIGHTS.content) ].

(** The six blended categories, for a given technical score; the
    technical weight is the sum of the four sub-weights. *)
Definition blended_categories (a : PageAnalysis) (technical : Q) : list (Q * Z) :=
  [ (inject_Z (scoreTitleCategory a), SCORE_WEIGHTS.title);
    (inject_Z (scoreMetaCategory a), SCORE_WEIGHTS.metaDescription);
    (inject_Z (scoreHeadingsCategory a), SCORE_WEIGHTS.headings);
    (inject_Z (scoreImagesCategory a), SCORE_WEIGHTS.images);
    (inject_Z (scoreLinksCategory a), SCORE_WEIGHTS.links);
    (technical, sum_weights (technical_categories a)) ].

(** The overall score with the technical category taken as the plain
    weighted average of its four signals. *)
Definition overall_plain_technical (a : PageAnalysis) : Z :=
  weighted_blend (blended_categories a (weighted_average (technical_categories a))).

(** The overall score with the technical category taken as that average
    rounded to the nearest integer. *)
Definition overall_rounded_technical (a : PageAnalysis) : Z :=
  weighted_blend
    (blended_categories a
       (inject_Z (Math_round (weighted_average (technical_categories a))))).

(** The same arithmetic in binary64, as the engine runs it: line 166 and
    lines 175-180 on the six [score] fields. *)
Definition float_technical (canonicalScore ogScore robotsScore contentScore : float)
    : float :=
  ((canonicalScore * 10 + ogScore * 5 + robotsScore * 10 + contentScore * 10) / 35)%float.

Definition float_blend (title meta headings images links technical : float) : float :=
  (0 + title * 20 / 100 + meta * 10 / 100 + headings * 15 / 100 + images * 10 / 100
   + links * 10 / 100 + technical * 35 / 100)%float.

(** [Math.round(x)] is [k]: [k - 0.5 <= x < k + 0.5]. *)
Definition rounds_to (x k : float) : bool :=
  ((k - 0.5 <=? x) && (x <? k + 0.5))%float.

(** A page with nothing on it: no title, no description, no headings,
    images or links, no canonical URL, no Open Graph data, not
    indexable. *)
Definition bare_page (content : option ContentAnalysis) : PageAnalysis :=
  {| pa_title := {| title_text := None; title_length := 0; title_issues := [] |};
     pa_metaDescription := {| meta_text := None; meta_length := 0; meta_issues := [] |};
     pa_canonical := {| canonical_url := None; canonical_isSelfReferencing := false;
                        canonical_issues := [] |};
     pa_robots := {| robots_meta := None; robots_xRobotsTag := None;
                     robots_isIndexable := false |};
     pa_openGraph := {| og_title := None; og_description := None; og_image := None;
                        og_url := None; og_type := None; og_issues := [] |};
     pa_headings := {| h1Count := 0; h1Text := []; totalHeadings := 0;
                       headings_issues := [] |};
     pa_images := {| images_total := 0; images_missingAlt := 0; images_issues := [] |};
     pa_links := {| links_internal := 0; links_external := 0; links_nofollow := 0 |};
     pa_content := content |}.

Definition in_range (x : Z) : Prop := 0 <= x <= 100.

Definition thin_bare_page : PageAnalysis :=
  bare_page (Some {| wordCount := 120; readabilityScore := 0 |}).

(** The three penalties of the links category, added up. *)
Definition links_penalty (internal external : Z) : Z :=
  (if internal =? 0 then 20 else 0)
  + (if internal + external >? SEO_RULES.links.maxPerPage then 15 else 0)
  + (if internal + external =? 0 then 30 else 0).

(** ** The issue list as the specification words it *)

(** An issue of type [t] is emitted. *)
Definition emits (t : string) (issues : list SeoIssue) : Prop :=
  exists i, i ∈ issues /\ type i = t.

Definition has_type (t : string) (i : SeoIssue) : bool := String.eqb (type i) t.

(** [counts['h1'] || 0]. *)
Definition h1_count (counts : gmap string Z) : Z := default 0 (counts !! "h1").

Definition missing_h1_issue : SeoIssue :=
  {| type := "missing_h1"; severity := critical;
     detail := "Page is missing an H1 heading" |}.

Definition multiple_h1_issue (h1Count : Z) : SeoIssue :=
  {| type := "multiple_h1"; severity := high;
     detail := "Page has " +:+ pretty h1Count +:+ " H1 headings (recommended: "
               +:+ pretty SEO_RULES.headings.maxH1Count +:+ ")" |}.

(** 1. The H1-count issue, if any. *)
Definition h1_count_issues (counts : gmap string Z) : list SeoIssue :=
  if h1_count counts =? 0 then [missing_h1_issue]
  else if h1_count counts >? SEO_RULES.headings.maxH1Count
       then [multiple_h1_issue (h1_count counts)]
       else [].

Definition is_empty_heading (h : FlatHeading) : bool := String.eqb (trim (text h)) "".

Definition empty_heading_issue (h : FlatHeading) : SeoIssue :=
  {| type := "empty_heading"; severity := medium;
     detail := "Empty " +:+ toUpperCase (tag h) +:+ " heading at position "
               +:+ pretty (order h) |}.

(** 2. One issue per observation with empty trimmed text, in sequence order. *)
Definition empty_heading_issues (flatList : list FlatHeading) : list SeoIssue :=
  map empty_heading_issue (List.filter is_empty_heading flatList).

(** The pairs [(l[i-1], l[i])], from left to right. *)
Fixpoint adjacent_pairs {A} (l : list A) : list (A * A) :=
  match l with
  | a :: (b :: _) as rest => (a, b) :: adjacent_pairs rest
  | _ => []
  end.

(** The distinct levels of the sequence, in the order the code sorts them. *)
Definition sorted_used_levels (flatList : list FlatHeading) : list (option Z) :=
  sort_levels (Set_of (map (fun h => getHeadingLevel (tag h)) flatList)).

(** 3. One issue per adjacent pair of sorted used levels more than 1 apart. *)
Definition skipped_level_issues (flatList : list FlatHeading) : list SeoIssue :=
  flat_map (fun pc => if gap_gt_1 (fst pc) (snd pc)
                      then [skipped_issue (fst pc) (snd pc)] else [])
           (adjacent_pairs (sorted_used_levels flatList)).

Definition no_h1_first_issue (first : FlatHeading) : SeoIssue :=
  {| type := "no_h1_first"; severity := medium;
     detail := "First heading is " +:+ toUpperCase (tag first) +:+ ", expected H1" |}.

(** 4. The first-heading issue, if any. *)
Definition first_heading_issues (flatList : list FlatHeading) : list SeoIssue :=
  match flatList with
  | first :: _ =>
      if num_eq (getHeadingLevel (tag first)) (Some 1) then []
      else [no_h1_first_issue first]
  | [] => []
  end.

(** Case-insensitive substring match of the keyword in a heading's text. *)
Definition keyword_matches (keyword : string) (h : FlatHeading) : bool :=
  includes (toLowerCase (text h)) (toLowerCase keyword).

Definition is_tag (t : string) (h : FlatHeading) : bool := String.eqb (tag h) t.

(** Some H1 matched the keyword. *)
Definition h1_matched (flatList : list FlatHeading) (keyword : string) : bool :=
  existsb (fun h => is_tag "h1" h && keyword_matches keyword h) flatList.

Definition keyword_missing_h1_issue (keyword : string) : SeoIssue :=
  {| type := "keyword_missing_h1"; severity := high;
     detail := "Target keyword " +:+ String "034" keyword
               +:+ String "034" " not found in H1" |}.

(** 5. The keyword issue, when a keyword was supplied and no H1 matched. *)
Definition keyword_issues_supplied (flatList : list FlatHeading)
    (targetKeyword : option string) : list SeoIssue :=
  match targetKeyword with
  | Some kw => if h1_matched flatList kw then [] else [keyword_missing_h1_issue kw]
  | None => []
  end.

(** 5'. The keyword issue, when a non-empty keyword was supplied and no H1
    matched. *)
Definition keyword_issues_nonempty (flatList : list FlatHeading)
    (targetKeyword : option string) : list SeoIssue :=
  match targetKeyword with
  | Some kw =>
      if String.eqb kw "" then []
      else if h1_matched flatList kw then [] else [keyword_missing_h1_issue kw]
  | None => []
  end.

(** The issue list in the order of the specification. *)
Definition ordered_issues (keyword_issues : list SeoIssue)
    (flatList : list FlatHeading) (counts : gmap string Z) : list SeoIssue :=
  h1_count_issues counts ++ empty_heading_issues flatList
  ++ skipped_level_issues flatList ++ first_heading_issues flatList
  ++ keyword_issues.

(** The skipped-level issue for the used levels [prev < cur], worded as in
    the specification: ["Hk"] for one skipped level, ["Hi-Hj"] for several. *)
Definition skipped_level_issue (prev cur : Z) : SeoIssue :=
  {| type := "skipped_level"; severity := medium;
     detail := "Heading level skipped: "
               +:+ (if prev + 1 =? cur - 1 then "H" +:+ pretty (prev + 1)
                    else "H" +:+ pretty (prev + 1) +:+ "-H" +:+ pretty (cur - 1))
               +:+ " (found H" +:+ pretty prev +:+ " followed by H"
               +:+ pretty cur +:+ ")" |}.

Definition gap_issues (sorted : list Z) : list SeoIssue :=
  flat_map (fun pc => if snd pc - fst pc >? 1
                      then [skipped_level_issue (fst pc) (snd pc)] else [])
           (adjacent_pairs sorted).

(** The set of levels used by a sequence. *)
Definition used_levels (flatList : list FlatHeading) : gset Z :=
  list_to_set (omap (fun h => getHeadingLevel (tag h)) flatList).

(** Every tag carries a digit: its level is a number. *)
Definition has_level (h : FlatHeading) : Prop := is_Some (getHeadingLevel (tag h)).

(** The tag is one of h1 .. h6. *)
Definition valid_tag (t : string) : bool :=
  bool_decide (t ∈ ["h1"; "h2"; "h3"; "h4"; "h5"; "h6"]%string).

(** A page whose headings use the levels 1, 2 and 4. *)
Definition flat_124 : list FlatHeading :=
  [ {| tag := "h1"; text := "Guide"; order := 1 |};
    {| tag := "h2"; text := "Setup"; order := 2 |};
    {| tag := "h4"; text := "Details"; order := 3 |};
    {| tag := "h2"; text := "Usage"; order := 4 |} ].

(** [keyword_matches] on a bare text. *)
Definition text_matches (keyword text : string) : bool :=
  includes (toLowerCase text) (toLowerCase keyword).

(** A page whose only heading is an H2. *)
Definition flat_h2_only : list FlatHeading :=
  [ {| tag := "h2"; text := "Only"; order := 1 |} ].

(** A page about tea, for the keyword checks. *)
Definition flat_tea : list FlatHeading :=
  [ {| tag := "h1"; text := "Brewing Green Tea"; order := 1 |};
    {| tag := "h2"; text := "Water for TEA"; order := 2 |};
    {| tag := "h2"; text := "Cups"; order := 3 |};
    {| tag := "h3"; text := "Steeping"; order := 4 |} ].

(** ** The forest, as the specification speaks of it *)

(** The observation a node was built from. *)
Definition obs (n : HeadingNode) : FlatHeading :=
  {| tag := node_tag n; text := node_text n; order := node_order n |}.

Definition hn_obs (p : HeapNode) : FlatHeading :=
  {| tag := hn_tag p; text := hn_text p; order := hn_order p |}.

(** The level of [child] is a number strictly greater than that of [parent]. *)
Definition level_below (parent child : string) : Prop :=
  exists l l', getHeadingLevel parent = Some l /\ getHeadingLevel child = Some l'
               /\ l < l'.

(** [P] holds of a node and of every node below it. *)
Inductive tree_all (P : HeadingNode -> Prop) : HeadingNode -> Prop :=
  | tree_all_node n :
      P n -> Forall (tree_all P) (children n) -> tree_all P n.

(** The children of [n] are in ascending [order]. *)
Definition children_sorted (n : HeadingNode) : Prop :=
  StronglySorted Z.lt (map node_order (children n)).

(** Each child of [n] has a level strictly greater than that of [n]. *)
Definition children_deeper (n : HeadingNode) : Prop :=
  Forall (fun c => level_below (node_tag n) (node_tag c)) (children n).

Definition node_ok (n : HeadingNode) : Prop :=
  children_sorted n /\ children_deeper n.

Definition well_nested : HeadingNode -> Prop := tree_all node_ok.

(** [sibling_list forest d l]: [l] is a list of siblings at depth [d], that
    is the list of roots ([d = 0]) or the children of a node at depth
    [d - 1]. *)
Inductive sibling_list (forest : list HeadingNode) : nat -> list HeadingNode -> Prop :=
  | siblings_roots : sibling_list forest 0 forest
  | siblings_children d l n :
      sibling_list forest d l -> n ∈ l -> sibling_list forest (S d) (children n).

(** [n] is a node of the forest. *)
Definition occurs (forest : list HeadingNode) (n : HeadingNode) : Prop :=
  exists d l, sibling_list forest d l /\ n ∈ l.

(** [descendant n m]: [m] lies strictly below [n]. *)
Inductive descendant : HeadingNode -> HeadingNode -> Prop :=
  | descendant_child n m : m ∈ children n -> descendant n m
  | descendant_deeper n c m : c ∈ children n -> descendant c m -> descendant n m.

(** ** Invariants of the builder's store *)

(** The reference [r] is at depth [d] below the roots [tree]. *)
Inductive reach (heap : list HeapNode) (tree : list nat) : nat -> nat -> Prop :=
  | reach_root r : r ∈ tree -> reach heap tree 0 r
  | reach_child d p node c :
      reach heap tree d p -> heap !! p = Some node -> c ∈ hn_children node ->
      reach heap tree (S d) c.

(** References are in range, children are younger than their parent and
    listed in order of creation, and every object is reachable. *)
Record store_ok (b : Builder) : Prop := {
  ok_tree : Forall (fun r => r < length (heap b))%nat (tree b);
  ok_stack : Forall (fun e => se_node e < length (heap b))%nat (stack b);
  ok_children : forall i p, heap b !! i = Some p ->
      Forall (fun c => i < c < length (heap b))%nat (hn_children p);
  ok_sorted : forall i p, heap b !! i = Some p ->
      StronglySorted lt (hn_children p);
  ok_reach : forall r, (r < length (heap b))%nat ->
      exists d, reach (heap b) (tree b) d r }.

(** Every object has a level, and a child's level is strictly greater than
    its parent's. *)
Record levels_ok (b : Builder) : Prop := {
  ok_has_level : forall i p, heap b !! i = Some p -> is_Some (getHeadingLevel (hn_tag p));
  ok_level_below : forall i p c q,
      heap b !! i = Some p -> c ∈ hn_children p -> heap b !! c = Some q ->
      level_below (hn_tag p) (hn_tag q) }.

(** The store only grows: roots and children are appended. *)
Definition grows (b b' : Builder) : Prop :=
  (exists t, tree b' = tree b ++ t)
  /\ forall i p, heap b !! i = Some p ->
       exists p' cs, heap b' !! i = Some p' /\ hn_obs p' = hn_obs p
                     /\ hn_children p' = hn_children p ++ cs.

(** [k] is immediately followed by [k'] in [l]. *)
Definition adjacent {A} (k k' : A) (l : list A) : Prop :=
  exists l1 l2, l = l1 ++ k :: k' :: l2.

(** The object allocated for [item]. *)
Definition new_node (item : FlatHeading) : HeapNode :=
  {| hn_tag := tag item; hn_text := text item; hn_order := order item;
     hn_children := [] |}.

(** The parent the next node is attached to: the node on top of the stack
    once the loop has popped, if any. *)
Definition attach (b : Builder) (item : FlatHeading) : option nat :=
  se_node <$> head (pop_while (heap b) (getHeadingLevel (tag item)) (stack b)).

(** [k] and [k'] are listed next to each other among the roots or among
    the children of one object. *)
Definition store_siblings (b : Builder) (k k' : nat) : Prop :=
  adjacent k k' (tree b)
  \/ exists p node, heap b !! p = Some node /\ adjacent k k' (hn_children node).

(** The loop stops at the first entry whose level is below the incoming
    one, or at the bottom of the stack. *)
Definition pop_stops (heap : list HeapNode) (level : option Z)
    (stack : list StackEntry) : Prop :=
  match stack with
  | top :: _ => num_ge (entry_level heap top) level = false
  | [] => True
  end.

(** Two H2 in a row under an H1, and a second H1. *)
Definition flat_twins : list FlatHeading :=
  [ {| tag := "h1"; text := "Intro"; order := 1 |};
    {| tag := "h2"; text := "Left"; order := 2 |};
    {| tag := "h2"; text := "Right"; order := 3 |};
    {| tag := "h1"; text := "Outro"; order := 4 |} ].

(** Well-formed input: tags h1 .. h6, [order] strictly increasing. *)
Definition valid_tags (flatList : list FlatHeading) : Prop :=
  Forall (fun h => valid_tag (tag h) = true) flatList.

Definition increasing_order (flatList : list FlatHeading) : Prop :=
  StronglySorted Z.lt (map order flatList).

(** The page of the first scenario of the specification. *)
Definition flat_sections : list FlatHeading :=
  [ {| tag := "h1"; text := "Title"; order := 1 |};
    {| tag := "h2"; text := "Sec A"; order := 2 |};
    {| tag := "h3"; text := "Sub"; order := 3 |};
    {| tag := "h2"; text := "Sec B"; order := 4 |} ].

(** ** The page analyzer: [analyzePage] and its summaries

    [analyzePage] (page-analyzer.ts) fetches and parses the page, runs the
    functions below on the parsed document and hands the record to
    [calculateSeoScore].  A [Document] holds what the cheerio selections and
    the [extract*] helpers of html-parser.ts return; whether an anchor
    resolves to the host of the page is decided by the [URL] class and is
    part of the anchor here. *)

(** [text.length] of a string. *)
Definition str_length (s : string) : Z := Z.of_nat (String.length s).

Definition analyzeTitle (text : option string) : TitleAnalysis :=
  let length_ := match text with Some s => str_length s | None => 0 end in
  let issues : list string := [] in
  let issues :=
    if negb (truthy text) then issues ++ ["Missing title tag"%string]
    else
      let issues :=
        if length_ <? SEO_RULES.title.minLength then
          issues ++ ["Title too short (" +:+ pretty length_ +:+ " chars, minimum "
                     +:+ pretty SEO_RULES.title.minLength +:+ ")"]
        else issues in
      let issues :=
        if length_ >? SEO_RULES.title.maxLength then
          issues ++ ["Title too long (" +:+ pretty length_ +:+ " chars, maximum "
                     +:+ pretty SEO_RULES.title.maxLength +:+ ")"]
        else issues in
      issues in
  {| title_text := text; title_length := length_; title_issues := issues |}.

Definition analyzeMetaDescription (text : option string) : MetaDescriptionAnalysis :=
  let length_ := match text with Some s => str_length s | None => 0 end in
  let issues : list string := [] in
  let issues :=
    if negb (truthy text) then issues ++ ["Missing meta description"%string]
    else
      let issues :=
        if length_ <? SEO_RULES.metaDescription.minLength then
          issues ++ ["Meta description too short (" +:+ pretty length_
                     +:+ " chars, minimum "
                     +:+ pretty SEO_RULES.metaDescription.minLength +:+ ")"]
        else issues in
      let issues :=
        if length_ >? SEO_RULES.metaDescription.maxLength then
          issues ++ ["Meta description too long (" +:+ pretty length_
                     +:+ " chars, maximum "
                     +:+ pretty SEO_RULES.metaDescription.maxLength +:+ ")"]
        else issues in
      issues in
  {| meta_text := text; meta_length := length_; meta_issues := issues |}.

(** [normalizeUrl] (url-validator.ts) wraps its whole body in [try] and
    returns its argument from the [catch]: it returns a string for every
    argument.  [normalized url] stands for the outcome of the [try] body,
    [None] when [new URL(url)] throws. *)
Definition normalizeUrl (normalized : string -> option string) (url : string) : string :=
  match normalized url with
  | Some href => href
  | None => url
  end.

(** The [try] block of [analyzeCanonical] only calls [normalizeUrl] and
    compares the results, so its [catch] is never entered. *)
Definition analyzeCanonical (normalized : string -> option string)
    (url : option string) (pageUrl : string) : CanonicalAnalysis :=
  let issues : list string := [] in
  match url with
  | Some u =>
      if negb (truthy url) then
        {| canonical_url := url; canonical_isSelfReferencing := false;
           canonical_issues := issues ++ ["Missing canonical tag"%string] |}
      else
        let canonical := normalizeUrl normalized u in
        let page := normalizeUrl normalized pageUrl in
        {| canonical_url := url;
           canonical_isSelfReferencing := String.eqb canonical page;
           canonical_issues := issues |}
  | None =>
      {| canonical_url := url; canonical_isSelfReferencing := false;
         canonical_issues := issues ++ ["Missing canonical tag"%string] |}
  end.

(** [[meta, xRobotsTag].filter(Boolean).join(', ')]. *)
Definition join_robots (meta xRobotsTag : option string) : string :=
  match truthy meta, meta, truthy xRobotsTag, xRobotsTag with
  | true, Some m, true, Some x => m +:+ ", " +:+ x
  | true, Some m, _, _ => m
  | _, _, true, Some x => x
  | _, _, _, _ => ""
  end.

(** [header] is [headers['x-robots-tag']]; [|| null] turns the empty header
    into [null]. *)
Definition analyzeRobotsMeta (meta header : option string) : RobotsAnalysis :=
  let xRobotsTag := if truthy header then header else None in
  let combined := toLowerCase (join_robots meta xRobotsTag) in
  let isIndexable := negb (includes combined "noindex") in
  {| robots_meta := meta; robots_xRobotsTag := xRobotsTag;
     robots_isIndexable := isIndexable |}.

(** What [extractOpenGraph] returns. *)
Record OpenGraphTags := {
  tag_title : option string;
  tag_description : option string;
  tag_image : option string;
  tag_url : option string;
  tag_type : option string }.

Definition analyzeOg (og : OpenGraphTags) : OpenGraphAnalysis :=
  let issues : list string := [] in
  let issues := if negb (truthy (tag_title og))
                then issues ++ ["Missing og:title"%string] else issues in
  let issues := if negb (truthy (tag_description og))
                then issues ++ ["Missing og:description"%string] else issues in
  let issues := if negb (truthy (tag_image og))
                then issues ++ ["Missing og:image"%string] else issues in
  {| og_title := tag_title og; og_description := tag_description og;
     og_image := tag_image og; og_url := tag_url og; og_type := tag_type og;
     og_issues := issues |}.

(** [elements] are the heading elements of the document, in document order,
    each with its lower-case tag name and its text: [$('h1')] selects those
    whose tag is h1, [$('h1, h2, h3, h4, h5, h6')] all of them. *)
Definition summarizeHeadings (elements : list (string * string)) : HeadingSummary :=
  let h1Elements := List.filter (fun el => String.eqb (fst el) "h1") elements in
  let h1Text :=
    fold_left (fun h1Text el =>
                 let text := trim (snd el) in
                 if truthy (Some text) then h1Text ++ [text] else h1Text)
              h1Elements [] in
  let totalHeadings := len elements in
  let issues : list string := [] in
  let issues :=
    if len h1Text =? 0 then issues ++ ["Missing H1 tag"%string]
    else if len h1Text >? SEO_RULES.headings.maxH1Count then
      issues ++ ["Multiple H1 tags found (" +:+ pretty (len h1Text) +:+ ")"]
    else issues in
  {| h1Count := len h1Text; h1Text := h1Text; totalHeadings := totalHeadings;
     headings_issues := issues |}.

(** [alts] are the [alt] attributes of the [img] elements, [None] where the
    attribute is absent. *)
Definition summarizeImages (alts : list (option string)) : ImageSummary :=
  let missingAlt :=
    fold_left (fun missingAlt alt =>
                 match alt with None => missingAlt + 1 | Some _ => missingAlt end)
              alts 0 in
  let issues : list string := [] in
  let total := len alts in
  let issues :=
    if missingAlt >? 0 then
      issues ++ [pretty missingAlt +:+ " image(s) missing alt attribute"]
    else issues in
  {| images_total := total; images_missingAlt := missingAlt; images_issues := issues |}.

(** An [a[href]] element: its [href], its [rel] if any, and whether
    [new URL(href, pageUrl).hostname] equals the hostname of the page
    ([None] when a [URL] constructor throws). *)
Record Anchor := {
  a_href : string;
  a_rel : option string;
  a_sameHost : option bool }.

(** The anchors the loop of [summarizeLinks] returns early on. *)
Definition skipped_anchor (a : Anchor) : bool :=
  negb (truthy (Some (a_href a)))
  || String.prefix "#" (a_href a)
  || String.prefix "javascript:" (a_href a)
  || String.prefix "mailto:" (a_href a).

Definition summarizeLinks (anchors : list Anchor) : LinkSummary :=
  fold_left
    (fun acc a =>
       if skipped_anchor a then acc else
       let rel := if truthy (a_rel a) then default ""%string (a_rel a) else ""%string in
       let nofollow :=
         if includes rel "nofollow" then links_nofollow acc + 1 else links_nofollow acc in
       match a_sameHost a with
       | Some true =>
           {| links_internal := links_internal acc + 1;
              links_external := links_external acc; links_nofollow := nofollow |}
       | Some false =>
           {| links_internal := links_internal acc;
              links_external := links_external acc + 1; links_nofollow := nofollow |}
       | None =>
           {| links_internal := links_internal acc + 1;
              links_external := links_external acc; links_nofollow := nofollow |}
       end)
    anchors {| links_internal := 0; links_external := 0; links_nofollow := 0 |}.

(** The parsed page, as [analyzePage] looks at it.  [doc_content] is the
    result of [analyzeContent] when [includeContent] is set. *)
Record Document := {
  doc_url : string;
  doc_title : option string;
  doc_metaDescription : option string;
  doc_canonical : option string;
  doc_metaRobots : option string;
  doc_xRobotsTag : option string;
  doc_openGraph : OpenGraphTags;
  doc_headings : list (string * string);
  doc_images : list (option string);
  doc_anchors : list Anchor;
  doc_content : option ContentAnalysis }.

(** The record [analyzePage] assembles before scoring. *)
Definition partialAnalysis (normalized : string -> option string) (doc : Document)
    : PageAnalysis :=
  {| pa_title := analyzeTitle (doc_title doc);
     pa_metaDescription := analyzeMetaDescription (doc_metaDescription doc);
     pa_canonical := analyzeCanonical normalized (doc_canonical doc) (doc_url doc);
     pa_robots := analyzeRobotsMeta (doc_metaRobots doc) (doc_xRobotsTag doc);
     pa_openGraph := analyzeOg (doc_openGraph doc);
     pa_headings := summarizeHeadings (doc_headings doc);
     pa_images := summarizeImages (doc_images doc);
     pa_links := summarizeLinks (doc_anchors doc);
     pa_content := doc_content doc |}.

(** [partialAnalysis.score = calculateSeoScore(partialAnalysis)]. *)
Definition analyzePage (normalized : string -> option string) (doc : Document)
    : PageAnalysis * SeoScore :=
  let analysis := partialAnalysis normalized doc in
  (analysis, calculateSeoScore analysis).

(** The six entries of the breakdown, and the four signals folded into
    [technical]. *)
Definition breakdown_scores (s : SeoScore) : list Z :=
  [ b_title (breakdown s); b_meta (breakdown s); b_headings (breakdown s);
    b_images (breakdown s); b_links (breakdown s); b_technical (breakdown s) ].

Definition technical_signals (a : PageAnalysis) : list Z :=
  [ scoreCanonicalCategory a; scoreOpenGraphCategory a; scoreRobotsCategory a;
    scoreContentCategory a ].

(** All nine category scores of [a] are at most those of [a']. *)
Definition scores_le (a a' : PageAnalysis) : Prop :=
  scoreTitleCategory a <= scoreTitleCategory a'
  /\ scoreMetaCategory a <= scoreMetaCategory a'
  /\ scoreHeadingsCategory a <= scoreHeadingsCategory a'
  /\ scoreImagesCategory a <= scoreImagesCategory a'
  /\ scoreLinksCategory a <= scoreLinksCategory a'
  /\ scoreCanonicalCategory a <= scoreCanonicalCategory a'
  /\ scoreOpenGraphCategory a <= scoreOpenGraphCategory a'
  /\ scoreRobotsCategory a <= scoreRobotsCategory a'
  /\ scoreContentCategory a <= scoreContentCategory a'.

(** The number of elements of [l] that satisfy [p]. *)
Definition count_if {A} (p : A -> bool) (l : list A) : Z := len (List.filter p l).

(** An H1 element whose trimmed text is not empty. *)
Definition nonblank_h1 (el : string * string) : bool :=
  String.eqb (fst el) "h1" && negb (String.eqb (trim (snd el)) "").

Definition alt_missing (alt : option string) : bool :=
  match alt with None => true | Some _ => false end.

(** The keyword occurs in the text, whatever the case of its letters. *)
Definition mentions (keyword : string) (text : option string) : bool :=
  match text with
  | Some s => includes (toLowerCase s) keyword
  | None => false
  end.

(** The character [c] occurs in [s]. *)
Fixpoint has_char (c : ascii) (s : string) : bool :=
  match s with
  | EmptyString => false
  | String x s' => if ascii_dec x c then true else has_char c s'
  end.

(** An anchor [summarizeLinks] counts. *)
Definition counted_anchor (a : Anchor) : bool := negb (skipped_anchor a).

(** ** The forest in document order *)

(** The observations of a tree: the node, then its children from left to
    right. *)
Fixpoint flatten (n : HeadingNode) : list FlatHeading :=
  match n with
  | mkHeadingNode t x o cs =>
      {| tag := t; text := x; order := o |} :: flat_map flatten cs
  end.

Definition flatten_forest (forest : list HeadingNode) : list FlatHeading :=
  flat_map flatten forest.

(** [frozen live heap c t]: the object [c] reads as [t], and neither it nor
    any object below it is among the [live] references, the ones on the
    stack, the only ones the builder still writes to. *)
Inductive frozen (live : list nat) (heap : list HeapNode) : nat -> HeadingNode -> Prop :=
  | frozen_node c p ts :
      c ∉ live -> heap !! c = Some p ->
      Forall2 (frozen live heap) (hn_children p) ts ->
      frozen live heap c (mkHeadingNode (hn_tag p) (hn_text p) (hn_order p) ts).

(** An open heading, on the stack: its reference, its observation and the
    trees of the children it has got so far, the last one excepted when
    that child is open too. *)
Record Frame := {
  f_ref : nat;
  f_obs : FlatHeading;
  f_closed : list HeadingNode }.

Definition frame_node (f : Frame) (last : list HeadingNode) : HeadingNode :=
  mkHeadingNode (tag (f_obs f)) (text (f_obs f)) (order (f_obs f)) (f_closed f ++ last).

(** The forest the frames (top of the stack first) and the closed roots
    stand for; [acc] is the tree of the frame above, if any. *)
Fixpoint close_all (frames : list Frame) (acc roots : list HeadingNode)
    : list HeadingNode :=
  match frames with
  | [] => roots ++ acc
  | f :: below => close_all below [frame_node f acc] roots
  end.

(** The observations held by the frames, bottom frame first. *)
Fixpoint spine_flat (frames : list Frame) : list FlatHeading :=
  match frames with
  | [] => []
  | f :: below => spine_flat below ++ f_obs f :: flatten_forest (f_closed f)
  end.

(** The store matches the frames: each open object has its closed children
    frozen, followed by the open child [above]; at the bottom, [tree] holds
    the frozen roots followed by the bottom frame. *)
Fixpoint open_chain (live : list nat) (heap : list HeapNode) (tree : list nat)
    (roots : list HeadingNode) (above : option nat) (frames : list Frame) : Prop :=
  match frames with
  | [] =>
      exists crefs, tree = crefs ++ option_list above
                    /\ Forall2 (frozen live heap) crefs roots
  | f :: below =>
      (exists p crefs,
          heap !! f_ref f = Some p /\ hn_obs p = f_obs f
          /\ Forall2 (frozen live heap) crefs (f_closed f)
          /\ hn_children p = crefs ++ option_list above)
      /\ open_chain live heap tree roots (Some (f_ref f)) below
  end.

(** The state of the builder stands for the forest [forest]. *)
Definition stands_for (heap : list HeapNode) (tree : list nat)
    (stack : list StackEntry) (forest : list HeadingNode) : Prop :=
  exists frames roots,
    se_node <$> stack = f_ref <$> frames
    /\ NoDup (f_ref <$> frames)
    /\ open_chain (f_ref <$> frames) heap tree roots None frames
    /\ forest = close_all frames [] roots.

(** ** The parent of a heading *)

(** The level of [a] is a number not greater than that of [b]. *)
Definition level_le (a b : string) : Prop :=
  exists l l', getHeadingLevel a = Some l /\ getHeadingLevel b = Some l'
               /\ l <= l'.

(** The stack after the headings [l]: references decrease from the top;
    every heading after an entry is strictly deeper than it; and every
    heading is covered by an entry that comes no earlier and is no deeper. *)
Record stack_ok (l : list FlatHeading) (stack : list StackEntry) : Prop := {
  st_sorted : StronglySorted (fun e e' => (se_node e' < se_node e)%nat) stack;
  st_minima : forall e j hi hj,
      e ∈ stack -> (se_node e < j)%nat ->
      l !! se_node e = Some hi -> l !! j = Some hj ->
      level_below (tag hi) (tag hj);
  st_cover : forall j hj,
      l !! j = Some hj ->
      exists e hi, e ∈ stack /\ (j <= se_node e)%nat
                   /\ l !! se_node e = Some hi /\ level_le (tag hi) (tag hj) }.

(* ================================================================== *)
(** * Properties *)
(* ================================================================== *)

(** Case analysis on every conditional of the goal. *)
Ltac case_ifs :=
  repeat match goal with
    | |- context [if ?c then _ else _] => destruct c
    | |- context [match ?c with Some _ => _ | None => _ end] => destruct c
    end.

(** ** Scoring *)

Lemma clamp100_range (x : Z) : in_range (clamp100 x).
Proof. unfold in_range, clamp100. lia. Qed.

Lemma clamp100_id (x : Z) : 0 <= x <= 100 -> clamp100 x = x.
Proof. unfold clamp100. lia. Qed.

Lemma Math_round_comp (x y : Q) : (x == y)%Q -> Math_round x = Math_round y.
Proof.
  intros E. unfold Math_round. apply Qfloor_comp. now rewrite E.
Qed.

(** Line 166 computes the weighted average of the four technical signals. *)
Lemma technicalScore_average (a : PageAnalysis) :
  (technicalScore a == weighted_average (technical_categories a))%Q.
Proof.
  unfold technicalScore, weighted_average, sum_weights, sum_weighted,
    technical_categories, technicalWeight.
  cbn [fold_right fst snd].
  generalize (scoreCanonicalCategory a) (scoreOpenGraphCategory a)
    (scoreRobotsCategory a) (scoreContentCategory a).
  intros c o r n.
  change SCORE_WEIGHTS.canonical with 10. change SCORE_WEIGHTS.openGraph with 5.
  change SCORE_WEIGHTS.robots with 10. change SCORE_WEIGHTS.content with 10.
  rewrite !inject_Z_plus, !inject_Z_mult. field.
Qed.

(** The sum of the six per-category quotients is the quotient of the sum. *)
Lemma blend_sum (t m h i l tech : Z) :
  (0 + inject_Z (t * 20) / inject_Z 100 + inject_Z (m * 10) / inject_Z 100
   + inject_Z (h * 15) / inject_Z 100 + inject_Z (i * 10) / inject_Z 100
   + inject_Z (l * 10) / inject_Z 100 + inject_Z (tech * 35) / inject_Z 100
   == (inject_Z t * inject_Z 20
       + (inject_Z m * inject_Z 10
          + (inject_Z h * inject_Z 15
             + (inject_Z i * inject_Z 10
                + (inject_Z l * inject_Z 10 + (inject_Z tech * inject_Z 35 + 0))))))
      / inject_Z 100)%Q.
Proof. rewrite !inject_Z_mult. field. Qed.

Lemma calculateSeoScore_overall (a : PageAnalysis) :
  overall (calculateSeoScore a) = overall_rounded_technical a.
Proof.
  unfold calculateSeoScore, overall_rounded_technical, weighted_blend.
  cbn [overall]. f_equal.
  rewrite <- (Math_round_comp _ _ (technicalScore_average a)).
  apply Math_round_comp.
  unfold weighted_average, sum_weights, sum_weighted, blended_categories.
  exact (blend_sum _ _ _ _ _ _).
Qed.

(** C1 (as amended).  For every page analysis, [overall] is the weighted
    blend [round(Σ score_i × weight_i / Σ weight_i)], clamped to [0,100],
    of the six categories title, meta, headings, images, links and
    technical, where the technical score is the weighted average of the
    canonical, Open Graph, robots and content scores under their own
    sub-weights ROUNDED to the nearest integer (it is the [technical]
    entry of the breakdown), and the technical weight is the sum of the
    four sub-weights. *)
Theorem C1_overall_is_weighted_blend (a : PageAnalysis) :
  overall (calculateSeoScore a) = overall_rounded_technical a
  /\ b_technical (breakdown (calculateSeoScore a))
     = Math_round (weighted_average (technical_categories a))
  /\ sum_weights (technical_categories a)
     = SCORE_WEIGHTS.canonical + SCORE_WEIGHTS.openGraph
       + SCORE_WEIGHTS.robots + SCORE_WEIGHTS.content
  /\ in_range (overall (calculateSeoScore a)).
Proof.
  split; [apply calculateSeoScore_overall|].
  split; [|split; [reflexivity|apply clamp100_range]].
  change (Math_round (technicalScore a)
          = Math_round (weighted_average (technical_categories a))).
  apply Math_round_comp, technicalScore_average.
Qed.

(** C1 (as stated) fails.  On a page with nothing on it but 120 words of
    content the four technical signals are 30, 0, 20 and 60; their
    weighted average is 1100/35 = 31.43, which the code rounds to 31
    before blending.  The code returns 30; the blend over the plain
    average is 30.5, which rounds to 31. *)
Lemma C1_plain_average_counterexample :
  overall (calculateSeoScore thin_bare_page) = 30
  /\ overall_plain_technical thin_bare_page = 31
  /\ ~ (forall a : PageAnalysis,
          overall (calculateSeoScore a) = overall_plain_technical a).
Proof.
  split; [reflexivity|]. split; [reflexivity|].
  intros H. specialize (H thin_bare_page).
  vm_compute in H. discriminate H.
Qed.

(** The engine's binary64 arithmetic on that page: the technical average
    rounds to 31 and the blend, 30.35, to 30. *)
Example thin_bare_page_binary64 :
  rounds_to (float_technical 30 0 20 60) 31 = true
  /\ rounds_to (float_blend 0 0 30 100 50 31) 30 = true.
Proof. split; vm_compute; reflexivity. Qed.

(** C6.  Each of the nine per-category scores lies in [0,100], whatever
    the counts, lengths and numbers of issues in the analysis. *)
Theorem C6_category_scores_in_range (a : PageAnalysis) :
  in_range (scoreTitleCategory a)
  /\ in_range (scoreMetaCategory a)
  /\ in_range (scoreHeadingsCategory a)
  /\ in_range (scoreImagesCategory a)
  /\ in_range (scoreLinksCategory a)
  /\ in_range (scoreCanonicalCategory a)
  /\ in_range (scoreOpenGraphCategory a)
  /\ in_range (scoreRobotsCategory a)
  /\ in_range (scoreContentCategory a).
Proof.
  repeat split.
  all: try (unfold scoreTitleCategory, scoreMetaCategory, scoreHeadingsCategory,
              scoreImagesCategory, scoreLinksCategory, scoreCanonicalCategory,
              scoreOpenGraphCategory, scoreRobotsCategory, scoreContentCategory;
            cbv zeta; case_ifs; try apply clamp100_range; lia).
Qed.

(** Twenty recorded image issues take the raw score to 0 or below; the
    category reports 0. *)
Example images_many_issues :
  scoreImagesCategory
    {| pa_title := pa_title (bare_page None);
       pa_metaDescription := pa_metaDescription (bare_page None);
       pa_canonical := pa_canonical (bare_page None);
       pa_robots := pa_robots (bare_page None);
       pa_openGraph := pa_openGraph (bare_page None);
       pa_headings := pa_headings (bare_page None);
       pa_images := {| images_total := 4; images_missingAlt := 1;
                       images_issues := repeat "issue"%string 20 |};
       pa_links := pa_links (bare_page None);
       pa_content := None |} = 0.
Proof. reflexivity. Qed.

(** C9.  The links score is 100 minus 20 for no internal link, minus 15
    for more links than [maxPerPage], minus 30 for no link at all,
    clamped to [0,100]; with no link of either kind it is 50. *)
Theorem C9_links_score (a : PageAnalysis) :
  let internal := links_internal (pa_links a) in
  let external := links_external (pa_links a) in
  scoreLinksCategory a = clamp100 (100 - links_penalty internal external)
  /\ SEO_RULES.links.maxPerPage = 150
  /\ (internal = 0 -> external = 0 -> scoreLinksCategory a = 50).
Proof.
  cbv zeta. unfold scoreLinksCategory, links_penalty. cbv zeta.
  split; [|split; [reflexivity|]].
  - case_ifs; f_equal; lia.
  - intros -> ->. reflexivity.
Qed.

Lemma C9_links_score_witness : scoreLinksCategory (bare_page None) = 50.
Proof.
  exact (proj2 (proj2 (C9_links_score (bare_page None))) eq_refl eq_refl).
Defined.

(** ** Issues *)

Lemma fold_left_push {A B} (p : A -> bool) (f : A -> B) (l : list A) (init : list B) :
  fold_left (fun acc x => if p x then acc ++ [f x] else acc) l init
  = init ++ map f (List.filter p l).
Proof.
  revert init. induction l as [|x l IH]; intros init; cbn.
  - now rewrite app_nil_r.
  - rewrite IH. destruct (p x); cbn; [now rewrite <- app_assoc|reflexivity].
Qed.

Lemma skipped_loop_pairs (sorted : list (option Z)) (issues : list SeoIssue) :
  skipped_loop sorted issues
  = issues ++ flat_map (fun pc => if gap_gt_1 (fst pc) (snd pc)
                                  then [skipped_issue (fst pc) (snd pc)] else [])
                       (adjacent_pairs sorted).
Proof.
  revert issues. induction sorted as [|prev rest IH]; intros issues.
  - cbn. now rewrite app_nil_r.
  - destruct rest as [|cur rest'].
    + cbn. now rewrite app_nil_r.
    + change (skipped_loop (prev :: cur :: rest') issues)
        with (skipped_loop (cur :: rest')
                (if gap_gt_1 prev cur then issues ++ [skipped_issue prev cur] else issues)).
      rewrite IH. cbn [adjacent_pairs flat_map fst snd].
      destruct (gap_gt_1 prev cur); [now rewrite <- app_assoc|reflexivity].
Qed.

Lemma length_sort_insert x l : length (sort_insert x l) = S (length l).
Proof.
  induction l as [|y l IH]; cbn; [reflexivity|].
  destruct (cmp_pos y x); cbn; [reflexivity|now rewrite IH].
Qed.

Lemma length_sort_levels_aux l acc :
  length (fold_left (fun acc x => sort_insert x acc) l acc) = (length l + length acc)%nat.
Proof.
  revert acc. induction l as [|x l IH]; intros acc; cbn; [reflexivity|].
  rewrite IH, length_sort_insert. lia.
Qed.

Lemma length_sort_levels l : length (sort_levels l) = length l.
Proof. unfold sort_levels. rewrite length_sort_levels_aux. cbn. lia. Qed.

Lemma adjacent_pairs_short {A} (l : list A) : (length l <= 1)%nat -> adjacent_pairs l = [].
Proof. destruct l as [|a [|b l]]; cbn; intros; try reflexivity; lia. Qed.

Lemma identifyIssues_parts (flatList : list FlatHeading) (counts : gmap string Z) :
  identifyIssues flatList counts
  = h1_count_issues counts ++ empty_heading_issues flatList
    ++ skipped_level_issues flatList ++ first_heading_issues flatList.
Proof.
  unfold identifyIssues. cbv zeta.
  fold (h1_count counts).
  set (i1 := if h1_count counts =? 0 then _ else _).
  assert (E1 : i1 = h1_count_issues counts).
  { subst i1. unfold h1_count_issues.
    destruct (h1_count counts =? 0); [reflexivity|].
    destruct (h1_count counts >? _); reflexivity. }
  rewrite E1. clear E1 i1.
  rewrite (fold_left_push (fun item => negb (truthy (Some (trim (text item)))))
             empty_heading_issue).
  assert (E2 : List.filter (fun item => negb (truthy (Some (trim (text item))))) flatList
               = List.filter is_empty_heading flatList).
  { apply filter_ext. intros h. unfold is_empty_heading. cbn.
    now rewrite negb_involutive. }
  rewrite E2. clear E2. fold (empty_heading_issues flatList).
  set (i2 := h1_count_issues counts ++ empty_heading_issues flatList).
  set (i3 := if (1 <? _)%nat then _ else _).
  assert (E3 : i3 = i2 ++ skipped_level_issues flatList).
  { subst i3. unfold skipped_level_issues, sorted_used_levels.
    destruct (Nat.ltb_spec 1 (length (Set_of (map (fun h => getHeadingLevel (tag h)) flatList)))).
    - apply skipped_loop_pairs.
    - rewrite adjacent_pairs_short; [cbn; now rewrite app_nil_r|].
      rewrite length_sort_levels. lia. }
  rewrite E3. clear E3 i3. subst i2. unfold first_heading_issues.
  destruct flatList as [|first rest].
  - now rewrite ?app_nil_r, <- ?app_assoc.
  - destruct (num_eq _ _); cbn [negb]; now rewrite ?app_nil_r, <- ?app_assoc.
Qed.

(** The types found in each part of the list. *)
Lemma h1_count_issues_types counts i :
  i ∈ h1_count_issues counts ->
  (i = missing_h1_issue /\ h1_count counts = 0)
  \/ (i = multiple_h1_issue (h1_count counts)
      /\ h1_count counts <> 0 /\ h1_count counts > SEO_RULES.headings.maxH1Count).
Proof.
  unfold h1_count_issues.
  destruct (Z.eqb_spec (h1_count counts) 0) as [E|E].
  - intros ->%list_elem_of_singleton. now left.
  - destruct (Z.gtb_spec (h1_count counts) SEO_RULES.headings.maxH1Count) as [G|G].
    + intros ->%list_elem_of_singleton. right. repeat split; [assumption|lia].
    + intros H. inversion H.
Qed.

Lemma empty_heading_issues_types flatList i :
  i ∈ empty_heading_issues flatList -> type i = "empty_heading"%string.
Proof.
  unfold empty_heading_issues. rewrite list_elem_of_In, in_map_iff.
  intros (h & <- & _). reflexivity.
Qed.

Lemma skipped_level_issues_types flatList i :
  i ∈ skipped_level_issues flatList -> type i = "skipped_level"%string.
Proof.
  unfold skipped_level_issues. rewrite list_elem_of_In, in_flat_map.
  intros (pc & _ & H). destruct (gap_gt_1 _ _); [|destruct H].
  destruct H as [<-|[]]. reflexivity.
Qed.

Lemma first_heading_issues_types flatList i :
  i ∈ first_heading_issues flatList -> type i = "no_h1_first"%string.
Proof.
  unfold first_heading_issues. destruct flatList as [|first rest].
  - intros H. inversion H.
  - destruct (num_eq _ _).
    + intros H. inversion H.
    + intros ->%list_elem_of_singleton. reflexivity.
Qed.

(** An issue of [identifyIssues] whose type is none of [empty_heading],
    [skipped_level], [no_h1_first] comes from the H1-count check. *)
Lemma identifyIssues_h1_part flatList counts i :
  i ∈ identifyIssues flatList counts ->
  type i <> "empty_heading"%string -> type i <> "skipped_level"%string ->
  type i <> "no_h1_first"%string ->
  i ∈ h1_count_issues counts.
Proof.
  rewrite identifyIssues_parts, !elem_of_app.
  intros [H|[H|[H|H]]] H1 H2 H3; [assumption|exfalso..].
  - apply H1. eapply empty_heading_issues_types, H.
  - apply H2. eapply skipped_level_issues_types, H.
  - apply H3. eapply first_heading_issues_types, H.
Qed.

(** C5.  [missing_h1] (critical) is emitted exactly when the H1 count
    [counts['h1'] || 0] is zero, [multiple_h1] (high) exactly when it
    exceeds [maxH1Count], which is 1, and never both. *)
Theorem C5_h1_count_issues (flatList : list FlatHeading) (counts : gmap string Z) :
  let issues := identifyIssues flatList counts in
  (emits "missing_h1" issues <-> h1_count counts = 0)
  /\ (emits "multiple_h1" issues <-> h1_count counts > SEO_RULES.headings.maxH1Count)
  /\ (forall i, i ∈ issues -> type i = "missing_h1"%string -> severity i = critical)
  /\ (forall i, i ∈ issues -> type i = "multiple_h1"%string -> severity i = high)
  /\ ~ (emits "missing_h1" issues /\ emits "multiple_h1" issues)
  /\ SEO_RULES.headings.maxH1Count = 1.
Proof.
  cbv zeta.
  assert (Hm : forall i, i ∈ identifyIssues flatList counts ->
                 type i = "missing_h1"%string ->
                 i = missing_h1_issue /\ h1_count counts = 0).
  { intros i Hi Ht.
    destruct (h1_count_issues_types counts i) as [?|[-> _]];
      [|assumption|discriminate Ht].
    apply (identifyIssues_h1_part flatList); [assumption|rewrite Ht; discriminate..]. }
  assert (Hn : forall i, i ∈ identifyIssues flatList counts ->
                 type i = "multiple_h1"%string ->
                 i = multiple_h1_issue (h1_count counts)
                 /\ h1_count counts <> 0
                 /\ h1_count counts > SEO_RULES.headings.maxH1Count).
  { intros i Hi Ht.
    destruct (h1_count_issues_types counts i) as [[-> _]|?];
      [|discriminate Ht|assumption].
    apply (identifyIssues_h1_part flatList); [assumption|rewrite Ht; discriminate..]. }
  assert (Hin : forall i, i ∈ h1_count_issues counts -> i ∈ identifyIssues flatList counts).
  { intros i Hi. rewrite identifyIssues_parts, elem_of_app. now left. }
  repeat split.
  - intros (i & Hi & Ht). now destruct (Hm i Hi Ht).
  - intros E. exists missing_h1_issue. split; [|reflexivity].
    apply Hin. unfold h1_count_issues. rewrite E. cbn. apply list_elem_of_singleton. reflexivity.
  - intros (i & Hi & Ht). now destruct (Hn i Hi Ht) as (_ & _ & ?).
  - intros G. exists (multiple_h1_issue (h1_count counts)). split; [|reflexivity].
    apply Hin. unfold h1_count_issues.
    destruct (Z.eqb_spec (h1_count counts) 0) as [E|E].
    { rewrite E in G. unfold SEO_RULES.headings.maxH1Count in G. lia. }
    destruct (Z.gtb_spec (h1_count counts) SEO_RULES.headings.maxH1Count) as [_|L]; [|lia].
    apply list_elem_of_singleton. reflexivity.
  - intros i Hi Ht. now destruct (Hm i Hi Ht) as [-> _].
  - intros i Hi Ht. now destruct (Hn i Hi Ht) as [-> _].
  - intros [(i & Hi & Ht) (j & Hj & Hu)].
    destruct (Hm i Hi Ht) as [_ E]. destruct (Hn j Hj Hu) as (_ & N & _). contradiction.
Qed.

(** ** Sorting the used levels *)

Lemma sort_insert_sorted (x : Z) (l : list Z) :
  StronglySorted Z.lt l -> x ∉ l ->
  exists l', sort_insert (Some x) (Some <$> l) = Some <$> l'
             /\ l' ≡ₚ x :: l /\ StronglySorted Z.lt l'.
Proof.
  induction 1 as [|y l Hl IH Hy]; intros Hx.
  - exists [x]. repeat split; repeat constructor.
  - cbn [fmap list_fmap sort_insert cmp_pos].
    apply not_elem_of_cons in Hx as [Hxy Hxl].
    destruct (Z.gtb_spec (y - x) 0) as [G|G].
    + exists (x :: y :: l). repeat split; [reflexivity|].
      constructor; [now constructor|].
      constructor; [lia|]. eapply Forall_impl; [exact Hy|]. cbn. intros; lia.
    + destruct (IH Hxl) as (l' & E & P & S').
      exists (y :: l'). split; [|split].
      * fold (@fmap list _ Z (option Z) Some l). rewrite E. reflexivity.
      * rewrite P. apply Permutation_swap.
      * constructor; [assumption|].
        rewrite P. constructor; [lia|assumption].
Qed.

Lemma sort_levels_sorted_aux (xs acc : list Z) :
  StronglySorted Z.lt acc -> NoDup xs -> (forall x, x ∈ xs -> x ∉ acc) ->
  exists l', fold_left (fun acc x => sort_insert x acc) (Some <$> xs) (Some <$> acc)
             = Some <$> l'
             /\ l' ≡ₚ xs ++ acc /\ StronglySorted Z.lt l'.
Proof.
  revert acc. induction xs as [|x xs IH]; intros acc Hacc Hnd Hdis.
  - exists acc. repeat split; [reflexivity|assumption].
  - apply NoDup_cons in Hnd as [Hx Hnd].
    destruct (sort_insert_sorted x acc Hacc) as (a' & E & P & S').
    { apply Hdis. now left. }
    cbn [fmap list_fmap fold_left].
    fold (@fmap list _ Z (option Z) Some xs). fold (@fmap list _ Z (option Z) Some acc).
    rewrite E.
    destruct (IH a' S' Hnd) as (l' & E' & P' & S'').
    { intros z Hz. rewrite P. apply not_elem_of_cons. split.
      - intros ->. contradiction.
      - apply Hdis. now right. }
    exists l'. split; [assumption|]. split; [|assumption].
    rewrite P', P. cbn. apply Permutation_sym, Permutation_middle.
Qed.

Lemma sort_levels_sorted (xs : list Z) :
  NoDup xs ->
  exists l', sort_levels (Some <$> xs) = Some <$> l'
             /\ l' ≡ₚ xs /\ StronglySorted Z.lt l'.
Proof.
  intros Hnd.
  destruct (sort_levels_sorted_aux xs [] (SSorted_nil _) Hnd) as (l' & E & P & S').
  { intros x _ H. inversion H. }
  exists l'. rewrite app_nil_r in P. auto.
Qed.

Lemma Set_of_aux (zs acc : list Z) :
  NoDup acc ->
  exists ds, fold_left (fun s x => if decide (x ∈ s) then s else s ++ [x])
               (Some <$> zs) (Some <$> acc) = Some <$> ds
             /\ NoDup ds /\ (forall z, z ∈ ds <-> z ∈ acc \/ z ∈ zs).
Proof.
  revert acc. induction zs as [|z zs IH]; intros acc Hacc.
  - exists acc. repeat split; [assumption|tauto|].
    intros [?|H]; [assumption|inversion H].
  - cbn [fmap list_fmap fold_left].
    fold (@fmap list _ Z (option Z) Some zs). fold (@fmap list _ Z (option Z) Some acc).
    destruct (decide (Some z ∈ Some <$> acc)) as [Hin|Hin].
    + destruct (IH acc Hacc) as (ds & E & N & M).
      exists ds. split; [assumption|]. split; [assumption|].
      intros w. rewrite M, elem_of_cons.
      apply list_elem_of_fmap_inj in Hin; [|typeclasses eauto].
      split; [tauto|]. intros [?|[->|?]]; tauto.
    + assert (Hz : z ∉ acc).
      { intros ?. apply Hin. now apply list_elem_of_fmap_2. }
      destruct (IH (acc ++ [z])) as (ds & E & N & M).
      { apply NoDup_app. repeat split; [assumption| |apply NoDup_singleton].
        intros w Hw ->%list_elem_of_singleton. contradiction. }
      exists ds. rewrite fmap_app in E. split; [exact E|]. split; [assumption|].
      intros w. rewrite M, elem_of_app, list_elem_of_singleton, elem_of_cons. tauto.
Qed.

Lemma Set_of_Some (zs : list Z) :
  exists ds, Set_of (Some <$> zs) = Some <$> ds
             /\ NoDup ds /\ (forall z, z ∈ ds <-> z ∈ zs).
Proof.
  destruct (Set_of_aux zs [] (NoDup_nil_2)) as (ds & E & N & M).
  exists ds. split; [exact E|]. split; [assumption|].
  intros z. rewrite M. split; [|tauto]. intros [H|?]; [inversion H|assumption].
Qed.

Lemma levels_Some (flatList : list FlatHeading) :
  Forall has_level flatList ->
  map (fun h => getHeadingLevel (tag h)) flatList
  = Some <$> omap (fun h => getHeadingLevel (tag h)) flatList.
Proof.
  induction 1 as [|h l [z Hz] _ IH]; [reflexivity|].
  cbn. rewrite Hz. cbn. f_equal. exact IH.
Qed.

(** On tags that carry a digit, the sorted used levels are the elements of
    the level set in strictly ascending order. *)
Lemma sorted_used_levels_spec (flatList : list FlatHeading) :
  Forall has_level flatList ->
  exists sorted : list Z,
    sorted_used_levels flatList = Some <$> sorted
    /\ StronglySorted Z.lt sorted
    /\ (forall z, z ∈ sorted <-> z ∈ used_levels flatList).
Proof.
  intros Hv. unfold sorted_used_levels. rewrite (levels_Some _ Hv).
  destruct (Set_of_Some (omap (fun h => getHeadingLevel (tag h)) flatList))
    as (ds & E & N & M).
  destruct (sort_levels_sorted ds N) as (sorted & E' & P & S').
  exists sorted. rewrite E, E'. split; [reflexivity|]. split; [assumption|].
  intros z. rewrite P, M. unfold used_levels. now rewrite elem_of_list_to_set.
Qed.

Lemma skipped_issue_Some (p c : Z) :
  skipped_issue (Some p) (Some c) = skipped_level_issue p c.
Proof. reflexivity. Qed.

Lemma gap_issues_Some (sorted : list Z) :
  flat_map (fun pc => if gap_gt_1 (fst pc) (snd pc)
                      then [skipped_issue (fst pc) (snd pc)] else [])
           (adjacent_pairs (Some <$> sorted))
  = gap_issues sorted.
Proof.
  unfold gap_issues.
  induction sorted as [|p [|c rest] IH]; [reflexivity..|].
  change (adjacent_pairs (Some <$> p :: c :: rest))
    with ((Some p, Some c) :: adjacent_pairs (Some <$> c :: rest)).
  change (adjacent_pairs (p :: c :: rest)) with ((p, c) :: adjacent_pairs (c :: rest)).
  cbn [flat_map fst snd gap_gt_1]. rewrite IH, skipped_issue_Some. reflexivity.
Qed.

Lemma StronglySorted_lt_NoDup (l : list Z) : StronglySorted Z.lt l -> NoDup l.
Proof.
  induction 1 as [|x l _ IH Hx]; constructor; [|assumption].
  intros Hin. rewrite Forall_forall in Hx. specialize (Hx x Hin). lia.
Qed.

Lemma sorted_124 (sorted : list Z) :
  StronglySorted Z.lt sorted ->
  (forall z, z ∈ sorted <-> z ∈ ({[1; 2; 4]} : gset Z)) ->
  sorted = [1; 2; 4].
Proof.
  intros S' M.
  apply (StronglySorted_unique_strong Z.lt); [intros; lia|assumption| |].
  - repeat constructor; lia.
  - apply NoDup_Permutation.
    + now apply StronglySorted_lt_NoDup.
    + rewrite !NoDup_cons, !not_elem_of_cons.
      repeat split; try lia; try apply not_elem_of_nil. apply NoDup_nil_2.
    + intros z. rewrite M.
      rewrite !elem_of_union, !elem_of_singleton, !elem_of_cons, elem_of_nil. tauto.
Qed.

Lemma filter_type_all (t : string) (l : list SeoIssue) :
  (forall i, i ∈ l -> type i = t) -> List.filter (has_type t) l = l.
Proof.
  induction l as [|i l IH]; intros H; [reflexivity|].
  cbn. unfold has_type at 1. rewrite (H i) by now left.
  rewrite String.eqb_refl. f_equal. apply IH. intros j Hj. apply H. now right.
Qed.

Lemma filter_type_none (t : string) (l : list SeoIssue) :
  (forall i, i ∈ l -> type i <> t) -> List.filter (has_type t) l = [].
Proof.
  induction l as [|i l IH]; intros H; [reflexivity|].
  cbn. unfold has_type at 1.
  destruct (String.eqb_spec (type i) t) as [E|_].
  - exfalso. apply (H i); [now left|assumption].
  - apply IH. intros j Hj. apply H. now right.
Qed.

Lemma filter_skipped_identifyIssues (flatList : list FlatHeading) (counts : gmap string Z) :
  List.filter (has_type "skipped_level") (identifyIssues flatList counts)
  = skipped_level_issues flatList.
Proof.
  rewrite identifyIssues_parts, !List.filter_app.
  rewrite (filter_type_none _ (h1_count_issues counts)).
  2:{ intros i [[-> _]|[-> _]]%h1_count_issues_types; discriminate. }
  rewrite (filter_type_none _ (empty_heading_issues flatList)).
  2:{ intros i ->%empty_heading_issues_types. discriminate. }
  rewrite (filter_type_none _ (first_heading_issues flatList)).
  2:{ intros i ->%first_heading_issues_types. discriminate. }
  rewrite (filter_type_all _ (skipped_level_issues flatList)).
  2:{ intros i. apply skipped_level_issues_types. }
  cbn. now rewrite app_nil_r.
Qed.

(** C7.  On a sequence of headings whose tags carry a level, the
    [skipped_level] issues are exactly these: with the distinct used levels
    in strictly ascending order, one issue of severity medium for each
    adjacent pair more than 1 apart, whose detail names the skipped range
    (["Hk"], or ["Hi-Hj"]) and the two bracketing levels.  With levels
    {1,2,4} there is exactly one, naming H3. *)
Theorem C7_skipped_levels (flatList : list FlatHeading) (counts : gmap string Z)
    (Hlevels : Forall has_level flatList) :
  let skipped := List.filter (has_type "skipped_level") (identifyIssues flatList counts) in
  (exists sorted : list Z,
      StronglySorted Z.lt sorted
      /\ (forall z, z ∈ sorted <-> z ∈ used_levels flatList)
      /\ skipped = gap_issues sorted)
  /\ (forall prev cur,
        type (skipped_level_issue prev cur) = "skipped_level"%string
        /\ severity (skipped_level_issue prev cur) = medium)
  /\ (used_levels flatList = {[1; 2; 4]} ->
      skipped = [ {| type := "skipped_level"; severity := medium;
                     detail := "Heading level skipped: H3 (found H2 followed by H4)" |} ]).
Proof.
  cbv zeta. rewrite filter_skipped_identifyIssues.
  destruct (sorted_used_levels_spec flatList Hlevels) as (sorted & E & S' & M).
  assert (G : skipped_level_issues flatList = gap_issues sorted).
  { unfold skipped_level_issues. rewrite E. apply gap_issues_Some. }
  split; [|split].
  - exists sorted. auto.
  - intros prev cur. split; reflexivity.
  - intros U. rewrite G. rewrite U in M.
    rewrite (sorted_124 sorted S' M). reflexivity.
Qed.

Example gap_issues_1_4 :
  gap_issues [1; 4]
  = [ {| type := "skipped_level"; severity := medium;
         detail := "Heading level skipped: H2-H3 (found H1 followed by H4)" |} ].
Proof. reflexivity. Qed.

Lemma C7_skipped_levels_witness :
  List.filter (has_type "skipped_level") (identifyIssues flat_124 (countByLevel flat_124))
  = [ {| type := "skipped_level"; severity := medium;
         detail := "Heading level skipped: H3 (found H2 followed by H4)" |} ].
Proof.
  apply (C7_skipped_levels flat_124 (countByLevel flat_124)).
  - repeat constructor; eexists; reflexivity.
  - vm_compute. reflexivity.
Defined.

(** ** Keyword presence *)

Lemma prefix_spec (sub s : string) :
  String.prefix sub s = true <-> exists post, s = sub +:+ post.
Proof.
  revert s. induction sub as [|a sub IH]; intros s.
  - destruct s; cbn; (split; [intros _; eexists; reflexivity|reflexivity]).
  - destruct s as [|b s]; cbn.
    + split; [discriminate|]. intros (post & E). discriminate E.
    + destruct (ascii_dec a b) as [->|N].
      * rewrite IH. split; intros (post & E); exists post.
        -- now rewrite E.
        -- now injection E.
      * split; [discriminate|]. intros (post & E). injection E as E1 _.
        now subst.
Qed.

Lemma includes_spec (s sub : string) :
  includes s sub = true <-> exists pre post, s = pre +:+ sub +:+ post.
Proof.
  induction s as [|c s IH].
  - cbn [includes]. destruct (String.prefix sub "") eqn:P.
    + split; [intros _|reflexivity]. apply prefix_spec in P as (post & E).
      now exists ""%string, post.
    + split; [discriminate|]. intros (pre & post & E). destruct pre; [|discriminate E].
      assert (String.prefix sub "" = true) as P' by (apply prefix_spec; now exists post).
      congruence.
  - cbn [includes]. destruct (String.prefix sub (String c s)) eqn:P.
    + split; [intros _|reflexivity]. apply prefix_spec in P as (post & E).
      now exists ""%string, post.
    + rewrite IH. split.
      * intros (pre & post & E). exists (String c pre), post. cbn. now rewrite E.
      * intros (pre & post & E). destruct pre as [|c' pre].
        -- assert (String.prefix sub (String c s) = true) as P'
             by (apply prefix_spec; now exists post).
           congruence.
        -- injection E as _ E. now exists pre, post.
Qed.

Lemma map_chars_app (f : ascii -> ascii) (a b : string) :
  map_chars f (a +:+ b) = map_chars f a +:+ map_chars f b.
Proof.
  induction a as [|c a IH]; [reflexivity|].
  change (map_chars f (String c a +:+ b)) with (String (f c) (map_chars f (a +:+ b))).
  now rewrite IH.
Qed.

Lemma lower_upper_char (c : ascii) :
  (code c <? 128) = true ->
  toLowerCase (upper_char c) = String (lower_char c) EmptyString.
Proof.
  destruct c as [[] [] [] [] [] [] [] []]; intros H; vm_compute in H;
    try discriminate H; reflexivity.
Qed.

(** On code units below 128, raising the case and then lowering it is
    lowering it. *)
Lemma lower_upper (s : string) :
  is_ascii s = true -> toLowerCase (toUpperCase s) = toLowerCase s.
Proof.
  induction s as [|c s IH]; [reflexivity|].
  change (is_ascii (String c s)) with ((code c <? 128) && is_ascii s).
  intros [Hc Hs]%andb_true_iff.
  change (toUpperCase (String c s)) with (upper_char c +:+ toUpperCase s).
  unfold toLowerCase in *. rewrite map_chars_app.
  fold toLowerCase. rewrite (lower_upper_char c Hc).
  unfold toLowerCase. rewrite (IH Hs). reflexivity.
Qed.

Lemma text_matches_case (keyword text : string) :
  is_ascii keyword = true -> is_ascii text = true ->
  text_matches (toUpperCase keyword) (toUpperCase text) = text_matches keyword text.
Proof. intros Hk Ht. unfold text_matches. now rewrite !lower_upper. Qed.

Lemma checkKeywordPresence_fold (keyword : string) (l : list FlatHeading)
    (acc : KeywordPresence) :
  fold_left
    (fun acc item =>
       let textLower := toLowerCase (text item) in
       if includes textLower (toLowerCase keyword) then
         {| inH1 := if String.eqb (tag item) "h1" then true else inH1 acc;
            inH2 := if String.eqb (tag item) "h2" then inH2 acc ++ [text item]
                    else inH2 acc;
            count := count acc + 1 |}
       else acc)
    l acc
  = {| inH1 := inH1 acc || h1_matched l keyword;
       inH2 := inH2 acc
               ++ map text (List.filter
                              (fun h => is_tag "h2" h && keyword_matches keyword h) l);
       count := count acc + len (List.filter (keyword_matches keyword) l) |}.
Proof.
  revert acc. induction l as [|h l IH]; intros [a1 a2 a3].
  - cbn. now rewrite orb_false_r, app_nil_r, Z.add_0_r.
  - cbn [fold_left]. rewrite IH. cbv zeta.
    cbn [h1_matched existsb List.filter]. unfold is_tag.
    change (includes (toLowerCase (text h)) (toLowerCase keyword))
      with (keyword_matches keyword h).
    destruct (keyword_matches keyword h); cbn [inH1 inH2 count].
    + f_equal.
      * destruct (String.eqb (tag h) "h1"), a1; reflexivity.
      * destruct (String.eqb (tag h) "h2"); cbn [andb map].
        -- now rewrite <- app_assoc.
        -- reflexivity.
      * unfold len. cbn [length]. lia.
    + rewrite !andb_false_r. reflexivity.
Qed.

Lemma checkKeywordPresence_spec (flatList : list FlatHeading) (keyword : string) :
  checkKeywordPresence flatList keyword
  = {| inH1 := h1_matched flatList keyword;
       inH2 := map text (List.filter
                           (fun h => is_tag "h2" h && keyword_matches keyword h) flatList);
       count := len (List.filter (keyword_matches keyword) flatList) |}.
Proof. unfold checkKeywordPresence. cbv zeta. now rewrite checkKeywordPresence_fold. Qed.

Lemma h1_matched_spec (flatList : list FlatHeading) (keyword : string) :
  h1_matched flatList keyword = true
  <-> exists h, h ∈ flatList /\ tag h = "h1"%string /\ text_matches keyword (text h) = true.
Proof.
  unfold h1_matched. rewrite existsb_exists. split.
  - intros (h & Hin & [T M]%andb_prop). exists h.
    rewrite list_elem_of_In. repeat split; [assumption| |exact M].
    now apply String.eqb_eq.
  - intros (h & Hin & T & M). exists h. rewrite <- list_elem_of_In.
    split; [assumption|]. apply andb_true_intro. split; [|exact M].
    now apply String.eqb_eq.
Qed.

Lemma emits_existsb (t : string) (l : list SeoIssue) :
  emits t l <-> existsb (has_type t) l = true.
Proof.
  unfold emits. rewrite existsb_exists. unfold has_type.
  split; intros (i & Hi & Ht); exists i.
  - rewrite <- list_elem_of_In. split; [assumption|now apply String.eqb_eq].
  - rewrite list_elem_of_In. split; [assumption|now apply String.eqb_eq].
Qed.

Lemma identifyIssues_no_keyword_issue flatList counts i :
  i ∈ identifyIssues flatList counts -> type i <> "keyword_missing_h1"%string.
Proof.
  rewrite identifyIssues_parts, !elem_of_app.
  intros [[[-> _]|[-> _]]%h1_count_issues_types
         |[->%empty_heading_issues_types
          |[->%skipped_level_issues_types| ->%first_heading_issues_types]]];
    discriminate.
Qed.

(** The issues of the result: those of [identifyIssues], then the keyword
    issue when the keyword is non-empty and no H1 matched. *)
Lemma analysisIssues_spec flatList counts targetKeyword :
  analysisIssues flatList counts targetKeyword
  = identifyIssues flatList counts ++ keyword_issues_nonempty flatList targetKeyword.
Proof.
  unfold analysisIssues, keywordPresence_of, keyword_issues_nonempty. cbv zeta.
  destruct targetKeyword as [kw|]; [|now rewrite app_nil_r].
  cbn [truthy]. destruct (String.eqb kw ""); cbn [negb]; [now rewrite app_nil_r|].
  rewrite checkKeywordPresence_spec. cbn [inH1 andb].
  destruct (h1_matched flatList kw); cbn [negb]; [now rewrite app_nil_r|reflexivity].
Qed.

(** C4 (as amended).  The issues come in this order: the H1-count issue if
    any; one [empty_heading] per observation with empty trimmed text, in
    sequence order; the [skipped_level] issues over the sorted used levels;
    [no_h1_first] if applicable; and last [keyword_missing_h1] if a
    NON-EMPTY keyword was supplied and no H1 matched it. *)
Theorem C4_issue_order (flatList : list FlatHeading) (counts : gmap string Z)
    (targetKeyword : option string) :
  analysisIssues flatList counts targetKeyword
  = h1_count_issues counts ++ empty_heading_issues flatList
    ++ skipped_level_issues flatList ++ first_heading_issues flatList
    ++ keyword_issues_nonempty flatList targetKeyword.
Proof.
  rewrite analysisIssues_spec, identifyIssues_parts.
  now rewrite <- !app_assoc.
Qed.

(** C4 (as stated) fails: with the empty string supplied as keyword and no
    H1 on the page, no H1 matched the keyword, yet the list ends with
    [no_h1_first] and carries no [keyword_missing_h1]. *)
Lemma C4_empty_keyword_counterexample :
  analysisIssues flat_h2_only (countByLevel flat_h2_only) (Some ""%string)
  <> ordered_issues (keyword_issues_supplied flat_h2_only (Some ""%string))
       flat_h2_only (countByLevel flat_h2_only).
Proof. vm_compute. discriminate. Qed.

(** C8 (as amended).  For a NON-EMPTY target keyword, keyword presence is
    computed; [inH1] tells whether some H1 matched, [inH2] lists the texts
    of the matching H2s, [count] counts the matches over all levels; a
    match is a substring match after [toLowerCase] on both sides, so it is
    blind to case (on code units below 128, raising the case of both sides
    changes no match); and [keyword_missing_h1] (high) is emitted if and
    only if no H1 matched. *)
Theorem C8_keyword_presence (flatList : list FlatHeading) (counts : gmap string Z)
    (keyword : string) (Hkeyword : keyword <> ""%string) :
  let kp := checkKeywordPresence flatList keyword in
  let issues := analysisIssues flatList counts (Some keyword) in
  keywordPresence_of flatList (Some keyword) = Some kp
  /\ (inH1 kp = true
      <-> exists h, h ∈ flatList /\ tag h = "h1"%string
                    /\ text_matches keyword (text h) = true)
  /\ inH2 kp
     = map text (List.filter (fun h => is_tag "h2" h && text_matches keyword (text h))
                             flatList)
  /\ count kp = len (List.filter (fun h => text_matches keyword (text h)) flatList)
  /\ (forall t, text_matches keyword t = true
                <-> exists pre post,
                      toLowerCase t = pre +:+ toLowerCase keyword +:+ post)
  /\ (forall t, is_ascii keyword = true -> is_ascii t = true ->
                text_matches (toUpperCase keyword) (toUpperCase t)
                = text_matches keyword t)
  /\ (emits "keyword_missing_h1" issues <-> inH1 kp = false)
  /\ (forall i, i ∈ issues -> type i = "keyword_missing_h1"%string -> severity i = high).
Proof.
  cbv zeta.
  assert (Hne : String.eqb keyword "" = false) by now apply String.eqb_neq.
  rewrite analysisIssues_spec. unfold keyword_issues_nonempty. rewrite Hne.
  rewrite checkKeywordPresence_spec. cbn [inH1 inH2 count].
  split. { unfold keywordPresence_of. cbn [truthy]. rewrite Hne. cbn [negb].
           now rewrite checkKeywordPresence_spec. }
  split; [apply h1_matched_spec|].
  split; [reflexivity|]. split; [reflexivity|].
  split; [intros t; apply includes_spec|].
  split; [intros t; apply text_matches_case|].
  split.
  - split.
    + intros (i & Hi & Ht). apply elem_of_app in Hi as [Hi|Hi].
      * exfalso. exact (identifyIssues_no_keyword_issue _ _ _ Hi Ht).
      * destruct (h1_matched flatList keyword); [inversion Hi|reflexivity].
    + intros ->. exists (keyword_missing_h1_issue keyword). split; [|reflexivity].
      apply elem_of_app. right. now apply list_elem_of_singleton.
  - intros i Hi Ht. apply elem_of_app in Hi as [Hi|Hi].
    + exfalso. exact (identifyIssues_no_keyword_issue _ _ _ Hi Ht).
    + destruct (h1_matched flatList keyword); [inversion Hi|].
      apply list_elem_of_singleton in Hi as ->. reflexivity.
Qed.

Lemma C8_keyword_presence_witness :
  keywordPresence_of flat_tea (Some "tea"%string)
  = Some {| inH1 := true; inH2 := ["Water for TEA"%string]; count := 2 |}.
Proof.
  refine (eq_trans
            (proj1 (C8_keyword_presence flat_tea (countByLevel flat_tea) "tea" _)) _).
  - discriminate.
  - reflexivity.
Defined.

(** C8 (as stated) fails: the empty string is a supplied keyword; on a page
    without H1 no H1 matched it, yet no keyword presence is computed and no
    [keyword_missing_h1] is emitted. *)
Lemma C8_empty_keyword_counterexample :
  keywordPresence_of flat_h2_only (Some ""%string) = None
  /\ h1_matched flat_h2_only "" = false
  /\ ~ emits "keyword_missing_h1"
         (analysisIssues flat_h2_only (countByLevel flat_h2_only) (Some ""%string)).
Proof.
  split; [reflexivity|]. split; [reflexivity|].
  rewrite emits_existsb. vm_compute. discriminate.
Qed.

(** Letters of the Latin-1 Supplement are folded like the others: the
    keyword, caf + U+00C9 in capitals, is found in an H1 and an H2 that
    spell it in small letters with U+00E9, and no [keyword_missing_h1] is
    reported. *)
Example checkKeywordPresence_latin1 :
  let cafe := ("caf" +:+ String "233" EmptyString)%string in
  let CAFE := ("CAF" +:+ String "201" EmptyString)%string in
  let page := [ {| tag := "h1"; text := "Le " +:+ cafe +:+ " noir"; order := 1 |};
                {| tag := "h2"; text := "Un " +:+ cafe; order := 2 |};
                {| tag := "h2"; text := "Le th" +:+ String "233" EmptyString;
                   order := 3 |} ] in
  checkKeywordPresence page CAFE
  = {| inH1 := true; inH2 := [("Un " +:+ cafe)%string]; count := 2 |}
  /\ keyword_issues_nonempty page (Some CAFE) = [].
Proof. split; vm_compute; reflexivity. Qed.

(** The no-break space is white space for [trim]: a heading that holds
    nothing else is empty, and an H1 that holds nothing else is not
    counted. *)
Example trim_no_break_space :
  trim (String "160" EmptyString) = ""%string
  /\ is_empty_heading {| tag := "h2"; text := String "160" EmptyString; order := 1 |}
     = true
  /\ h1Count (summarizeHeadings [("h1"%string, String "160" EmptyString)]) = 0.
Proof. repeat split; vm_compute; reflexivity. Qed.

(** ** The tree builder: one step on the store *)

Lemma pop_while_suffix heap level stack :
  exists popped,
    stack = popped ++ pop_while heap level stack
    /\ Forall (fun e => num_ge (entry_level heap e) level = true) popped.
Proof.
  induction stack as [|top rest (popped & E & F)]; cbn.
  - now exists [].
  - destruct (num_ge (entry_level heap top) level) eqn:G.
    + exists (top :: popped). split; [cbn; now rewrite <- E|now constructor].
    + now exists [].
Qed.

Lemma pop_while_head heap level stack top rest :
  pop_while heap level stack = top :: rest ->
  num_ge (entry_level heap top) level = false.
Proof.
  induction stack as [|e stack IH]; cbn; [discriminate|].
  destruct (num_ge (entry_level heap e) level) eqn:G; [exact IH|].
  intros [= -> _]. exact G.
Qed.

Lemma pop_while_Forall (P : StackEntry -> Prop) heap level stack :
  Forall P stack -> Forall P (pop_while heap level stack).
Proof.
  destruct (pop_while_suffix heap level stack) as (popped & E & _).
  rewrite E at 1. now intros [_ ?]%Forall_app.
Qed.

(** The loop only reads the tags of the objects on the stack. *)
Lemma pop_while_ext heap heap' level stack :
  Forall (fun e => entry_level heap' e = entry_level heap e) stack ->
  pop_while heap' level stack = pop_while heap level stack.
Proof.
  induction 1 as [|e stack E _ IH]; cbn; [reflexivity|].
  rewrite E. destruct (num_ge _ _); [exact IH|reflexivity].
Qed.

(** Once popped for a level, the stack is stable for that level. *)
Lemma pop_while_idem heap level stack :
  pop_while heap level (pop_while heap level stack) = pop_while heap level stack.
Proof.
  induction stack as [|e stack IH]; cbn; [reflexivity|].
  destruct (num_ge (entry_level heap e) level) eqn:G; [exact IH|].
  cbn. now rewrite G.
Qed.

Lemma entry_level_snoc heap x e :
  (se_node e < length heap)%nat ->
  entry_level (heap ++ [x]) e = entry_level heap e.
Proof. intros H. unfold entry_level. now rewrite lookup_app_l. Qed.

Lemma hn_obs_push_child c p : hn_obs (push_child c p) = hn_obs p.
Proof. reflexivity. Qed.

(** What one iteration does to the store. *)
Lemma build_step_spec (b : Builder) (item : FlatHeading) :
  Forall (fun e => se_node e < length (heap b))%nat (stack b) ->
  let n := length (heap b) in
  let st := build_step b item in
  stack st = {| se_node := n; se_level := getHeadingLevel (tag item) |}
             :: pop_while (heap b) (getHeadingLevel (tag item)) (stack b)
  /\ tree st = tree b ++ (match attach b item with None => [n] | Some _ => [] end)
  /\ length (heap st) = S n
  /\ heap st !! n = Some (new_node item)
  /\ forall i p, heap b !! i = Some p ->
       heap st !! i
       = Some (if decide (attach b item = Some i) then push_child n p else p).
Proof.
  intros Hstack. cbv zeta. unfold build_step, attach. cbv zeta.
  fold (new_node item).
  rewrite (pop_while_ext (heap b)).
  2:{ eapply Forall_impl; [exact Hstack|]. intros e. apply entry_level_snoc. }
  pose proof (pop_while_Forall _ (heap b) (getHeadingLevel (tag item)) _ Hstack) as Hpop.
  destruct (pop_while (heap b) (getHeadingLevel (tag item)) (stack b))
    as [|parent rest]; cbn [heap tree stack head fmap option_fmap option_map].
  - split; [reflexivity|]. split; [reflexivity|].
    split; [rewrite length_app; cbn; lia|].
    split; [now apply list_lookup_middle|].
    intros i p Hi. rewrite lookup_app_l by (eapply lookup_lt_Some, Hi).
    rewrite Hi. destruct (decide _) as [D|_]; [discriminate D|reflexivity].
  - apply Forall_cons in Hpop as [Hparent _].
    split; [reflexivity|]. split; [now rewrite app_nil_r|].
    split; [rewrite length_alter, length_app; cbn; lia|].
    split.
    + rewrite list_lookup_alter_ne by lia. now apply list_lookup_middle.
    + intros i p Hi. rewrite list_lookup_alter.
      pose proof (lookup_lt_Some _ _ _ Hi) as Hlt.
      destruct (decide (se_node parent = i)) as [->|N].
      * rewrite lookup_app_l, Hi by assumption.
        destruct (decide _) as [_|D]; [reflexivity|now destruct D].
      * rewrite lookup_app_l, Hi by assumption.
        destruct (decide _) as [[= D]|_]; [contradiction|reflexivity].
Qed.

(** Every object of the new store is the new one or an old one, possibly
    with the new reference appended to its children. *)
Lemma build_step_lookup (b : Builder) (item : FlatHeading) i p' :
  Forall (fun e => se_node e < length (heap b))%nat (stack b) ->
  heap (build_step b item) !! i = Some p' ->
  (i = length (heap b) /\ p' = new_node item)
  \/ (exists p, heap b !! i = Some p
                /\ p' = if decide (attach b item = Some i)
                        then push_child (length (heap b)) p else p).
Proof.
  intros Hstack Hi.
  destruct (build_step_spec b item Hstack) as (_ & _ & Hlen & Hnew & Hold).
  pose proof (lookup_lt_Some _ _ _ Hi) as Hlt. rewrite Hlen in Hlt.
  destruct (decide (i = length (heap b))) as [->|N].
  - left. split; [reflexivity|]. congruence.
  - right. destruct (lookup_lt_is_Some_2 (heap b) i) as [p Hp]; [lia|].
    exists p. split; [assumption|]. rewrite (Hold _ _ Hp) in Hi. congruence.
Qed.

Lemma attach_in_range (b : Builder) (item : FlatHeading) pr :
  Forall (fun e => se_node e < length (heap b))%nat (stack b) ->
  attach b item = Some pr -> (pr < length (heap b))%nat.
Proof.
  intros Hstack. unfold attach.
  pose proof (pop_while_Forall _ (heap b) (getHeadingLevel (tag item)) _ Hstack) as Hpop.
  destruct (pop_while _ _ _) as [|parent rest]; [discriminate|].
  intros [= <-]. now apply Forall_cons in Hpop as [? _].
Qed.

Lemma grows_refl b : grows b b.
Proof.
  split; [exists []; now rewrite app_nil_r|].
  intros i p Hi. exists p, []. now rewrite app_nil_r.
Qed.

Lemma grows_trans b1 b2 b3 : grows b1 b2 -> grows b2 b3 -> grows b1 b3.
Proof.
  intros [[t1 T1] H1] [[t2 T2] H2]. split.
  - exists (t1 ++ t2). now rewrite T2, T1, app_assoc.
  - intros i p Hi. destruct (H1 _ _ Hi) as (p' & cs & Hi' & O' & C').
    destruct (H2 _ _ Hi') as (p'' & cs' & Hi'' & O'' & C'').
    exists p'', (cs ++ cs'). split; [assumption|]. split; [congruence|].
    now rewrite C'', C', app_assoc.
Qed.

Lemma grows_step b item :
  Forall (fun e => se_node e < length (heap b))%nat (stack b) ->
  grows b (build_step b item).
Proof.
  intros Hstack.
  destruct (build_step_spec b item Hstack) as (_ & Htree & _ & _ & Hold).
  split; [eexists; exact Htree|].
  intros i p Hi. rewrite (Hold _ _ Hi).
  destruct (decide _).
  - exists (push_child (length (heap b)) p), [length (heap b)]. auto.
  - exists p, []. now rewrite app_nil_r.
Qed.

Lemma reach_grows b b' d r :
  grows b b' -> reach (heap b) (tree b) d r -> reach (heap b') (tree b') d r.
Proof.
  intros [[t T] H]. induction 1 as [r Hr|d p node c _ IH Hp Hc].
  - apply reach_root. rewrite T. apply elem_of_app. now left.
  - destruct (H _ _ Hp) as (p' & cs & Hp' & _ & C').
    eapply reach_child; [exact IH|exact Hp'|].
    rewrite C'. apply elem_of_app. now left.
Qed.

Lemma store_ok_init : store_ok build_init.
Proof.
  split; cbn; try constructor.
  - intros i p H. discriminate H.
  - intros i p H. discriminate H.
  - intros r H. lia.
Qed.

Lemma store_ok_step b item : store_ok b -> store_ok (build_step b item).
Proof.
  intros [Htree Hstack Hchildren Hsorted Hreach].
  destruct (build_step_spec b item Hstack) as (Est & Etree & Elen & Enew & Eold).
  pose proof (grows_step b item Hstack) as Hg.
  split.
  - rewrite Etree, Elen. apply Forall_app. split.
    + eapply Forall_impl; [exact Htree|]. cbn. intros; lia.
    + destruct (attach b item); repeat constructor.
  - rewrite Est, Elen. constructor; [cbn; lia|].
    apply pop_while_Forall. eapply Forall_impl; [exact Hstack|]. cbn. intros; lia.
  - intros i p' Hi. rewrite Elen.
    destruct (build_step_lookup b item i p' Hstack Hi) as [[-> ->]|(p & Hp & ->)].
    + constructor.
    + specialize (Hchildren _ _ Hp).
      assert (Forall (fun c => i < c < S (length (heap b)))%nat (hn_children p)) as Hc
        by (eapply Forall_impl; [exact Hchildren|]; cbn; intros; lia).
      destruct (decide _) as [D|_]; [|exact Hc].
      cbn. apply Forall_app. split; [exact Hc|].
      apply Forall_singleton. split; [eapply lookup_lt_Some, Hp|lia].
  - intros i p' Hi.
    destruct (build_step_lookup b item i p' Hstack Hi) as [[-> ->]|(p & Hp & ->)].
    + constructor.
    + destruct (decide _) as [D|_]; [|now apply (Hsorted i)].
      cbn. apply StronglySorted_app. split; [|split].
      * intros x y Hx ->%list_elem_of_singleton.
        specialize (Hchildren _ _ Hp). rewrite Forall_forall in Hchildren.
        apply Hchildren in Hx. lia.
      * now apply (Hsorted i).
      * repeat constructor.
  - intros r Hr. rewrite Elen in Hr.
    destruct (decide (r = length (heap b))) as [->|N].
    + destruct (attach b item) as [pr|] eqn:A.
      * pose proof (attach_in_range b item pr Hstack A) as Hpr.
        destruct (Hreach pr Hpr) as [d Hd].
        destruct (lookup_lt_is_Some_2 (heap b) pr Hpr) as [p Hp].
        exists (S d). eapply reach_child.
        -- eapply reach_grows; [exact Hg|exact Hd].
        -- rewrite (Eold _ _ Hp). reflexivity.
        -- destruct (decide _) as [_|D]; [|now destruct D].
           cbn. apply elem_of_app. right. now apply list_elem_of_singleton.
      * exists O. apply reach_root. rewrite Etree. apply elem_of_app. right.
        now apply list_elem_of_singleton.
    + destruct (Hreach r) as [d Hd]; [lia|].
      exists d. eapply reach_grows; [exact Hg|exact Hd].
Qed.

Lemma store_ok_run_from b l :
  store_ok b ->
  store_ok (fold_left build_step l b) /\ grows b (fold_left build_step l b).
Proof.
  revert b. induction l as [|item l IH]; intros b Hb; cbn.
  - split; [assumption|apply grows_refl].
  - destruct (IH (build_step b item) (store_ok_step _ _ Hb)) as [H1 H2].
    split; [assumption|].
    eapply grows_trans; [|exact H2]. apply grows_step, Hb.
Qed.

Lemma store_ok_run l : store_ok (build_run l).
Proof. apply store_ok_run_from, store_ok_init. Qed.

(** The store holds the observations in the order of the input. *)
Lemma obs_step b item :
  Forall (fun e => se_node e < length (heap b))%nat (stack b) ->
  hn_obs <$> heap (build_step b item) = (hn_obs <$> heap b) ++ [item].
Proof.
  intros Hstack.
  destruct (build_step_spec b item Hstack) as (_ & _ & Elen & Enew & Eold).
  apply list_eq. intros i. rewrite list_lookup_fmap.
  destruct (decide (i < length (heap b))%nat) as [L|L].
  - destruct (lookup_lt_is_Some_2 (heap b) i L) as [p Hp].
    rewrite (Eold _ _ Hp), lookup_app_l by (now rewrite length_fmap).
    rewrite list_lookup_fmap, Hp. cbn. now destruct (decide _).
  - destruct (decide (i = length (heap b))) as [->|N].
    + rewrite Enew, list_lookup_middle by (now rewrite length_fmap).
      cbn. now destruct item.
    + rewrite (proj2 (lookup_ge_None _ _)) by lia.
      rewrite (proj2 (lookup_ge_None _ _)); [reflexivity|].
      rewrite length_app, length_fmap. cbn. lia.
Qed.

Lemma obs_run_from b l :
  store_ok b ->
  hn_obs <$> heap (fold_left build_step l b) = (hn_obs <$> heap b) ++ l.
Proof.
  revert b. induction l as [|item l IH]; intros b Hb; cbn.
  - now rewrite app_nil_r.
  - rewrite IH by now apply store_ok_step.
    rewrite obs_step by apply Hb. now rewrite <- app_assoc.
Qed.

Lemma obs_run l : hn_obs <$> heap (build_run l) = l.
Proof. unfold build_run. now rewrite obs_run_from by apply store_ok_init. Qed.

Lemma run_lookup l i p :
  heap (build_run l) !! i = Some p -> l !! i = Some (hn_obs p).
Proof.
  intros H. rewrite <- (obs_run l) at 1. now rewrite list_lookup_fmap, H.
Qed.

(** ** The tree builder: levels *)

Lemma levels_ok_init : levels_ok build_init.
Proof. split; cbn; intros i p; discriminate. Qed.

Lemma levels_ok_step b item :
  store_ok b -> levels_ok b -> has_level item -> levels_ok (build_step b item).
Proof.
  intros Hok [Hhas Hbelow] Hitem.
  pose proof (ok_stack b Hok) as Hstack.
  destruct (build_step_spec b item Hstack) as (_ & _ & _ & Enew & _).
  split.
  - intros i p' Hi.
    destruct (build_step_lookup b item i p' Hstack Hi) as [[-> ->]|(p & Hp & ->)].
    + exact Hitem.
    + destruct (decide _); cbn; now apply (Hhas i).
  - intros i p' c q' Hi Hc Hq.
    destruct (build_step_lookup b item i p' Hstack Hi) as [[-> ->]|(p & Hp & ->)].
    { cbn in Hc. inversion Hc. }
    assert (Hold : c ∈ hn_children p -> level_below (hn_tag p) (hn_tag q')).
    { intros Hin.
      pose proof (ok_children b Hok i p Hp) as Hrange.
      rewrite Forall_forall in Hrange. specialize (Hrange c Hin).
      destruct (build_step_lookup b item c q' Hstack Hq) as [[-> _]|(q & Hq' & ->)];
        [lia|].
      pose proof (Hbelow i p c q Hp Hin Hq') as Hlb.
      destruct (decide (attach b item = Some c)); exact Hlb. }
    destruct (decide (attach b item = Some i)) as [A|_]; [|exact (Hold Hc)].
    cbn in Hc. apply elem_of_app in Hc as [Hc|Hc%list_elem_of_singleton];
      [exact (Hold Hc)|]. subst c.
    rewrite Enew in Hq. injection Hq as <-. cbn.
    unfold attach in A.
    destruct (pop_while (heap b) (getHeadingLevel (tag item)) (stack b))
      as [|parent rest] eqn:Epop; [discriminate A|].
    injection A as A. apply pop_while_head in Epop.
    unfold entry_level in Epop. rewrite A, Hp in Epop.
    destruct (Hhas i p Hp) as [lp Hlp]. destruct Hitem as [l Hl].
    rewrite Hlp, Hl in Epop. cbn in Epop.
    exists lp, l. repeat split; [assumption..|lia].
Qed.

Lemma levels_ok_run_from b l :
  store_ok b -> levels_ok b -> Forall has_level l ->
  levels_ok (fold_left build_step l b).
Proof.
  revert b. induction l as [|item l IH]; intros b Hok Hlv Hl; cbn; [assumption|].
  apply Forall_cons in Hl as [Hitem Hl].
  apply IH; [now apply store_ok_step|now apply levels_ok_step|assumption].
Qed.

Lemma levels_ok_run l : Forall has_level l -> levels_ok (build_run l).
Proof. apply levels_ok_run_from; [apply store_ok_init|apply levels_ok_init]. Qed.

(** ** Reading the forest off the store *)

Lemma reify_unfold f heap r t :
  reify f heap r = Some t ->
  exists f' p cs,
    f = S f' /\ heap !! r = Some p
    /\ Forall2 (fun c t' => reify f' heap c = Some t') (hn_children p) cs
    /\ t = mkHeadingNode (hn_tag p) (hn_text p) (hn_order p) cs.
Proof.
  destruct f as [|f']; cbn; [discriminate|].
  destruct (heap !! r) as [p|]; [|discriminate].
  destruct (mapM (reify f' heap) (hn_children p)) as [cs|] eqn:M; [|discriminate].
  intros [= <-]. exists f', p, cs. apply mapM_Some in M. auto.
Qed.

Lemma reify_obs f heap r t :
  reify f heap r = Some t -> exists p, heap !! r = Some p /\ obs t = hn_obs p.
Proof.
  intros (f' & p & cs & _ & Hp & _ & ->)%reify_unfold. now exists p.
Qed.

Lemma reify_mono f f' heap r t :
  reify f heap r = Some t -> (f <= f')%nat -> reify f' heap r = Some t.
Proof.
  revert f' r t. induction f as [|f IH]; intros f' r t; [discriminate|].
  intros H Hle. destruct f' as [|f']; [lia|].
  apply reify_unfold in H as (f0 & p & cs & [= <-] & Hp & Hcs & ->).
  cbn. rewrite Hp.
  assert (mapM (reify f' heap) (hn_children p) = Some cs) as ->; [|reflexivity].
  apply mapM_Some. eapply Forall2_impl; [exact Hcs|].
  intros c t' Hc. apply IH; [exact Hc|lia].
Qed.

Lemma reify_total b f r :
  store_ok b -> (r < length (heap b))%nat -> (length (heap b) - r <= f)%nat ->
  is_Some (reify f (heap b) r).
Proof.
  intros Hok. revert r. induction f as [|f IH]; intros r Hr Hf; [lia|].
  destruct (lookup_lt_is_Some_2 (heap b) r Hr) as [p Hp].
  cbn. rewrite Hp.
  destruct (mapM (reify f (heap b)) (hn_children p)) as [cs|] eqn:M; [eauto|].
  exfalso. apply mapM_None in M. apply Exists_exists in M as (c & Hc & N).
  pose proof (ok_children b Hok r p Hp) as Hrange.
  rewrite Forall_forall in Hrange. specialize (Hrange c Hc).
  destruct (IH c) as [t Ht]; [lia..|]. congruence.
Qed.

(** The builder returns a forest for every input. *)
Lemma buildHeadingTree_total (flatList : list FlatHeading) :
  is_Some (buildHeadingTree flatList).
Proof.
  unfold buildHeadingTree. cbv zeta. apply mapM_is_Some_2.
  pose proof (store_ok_run flatList) as Hok.
  eapply Forall_impl; [exact (ok_tree _ Hok)|].
  intros r Hr. cbn. apply reify_total; [assumption..|lia].
Qed.

(** A property of every object of the store that holds of the node read
    from it holds throughout the forest. *)
Lemma reify_tree_all (P : HeadingNode -> Prop) (heap : list HeapNode) :
  (forall r p cs,
      heap !! r = Some p ->
      Forall2 (fun c t' => exists q, heap !! c = Some q /\ obs t' = hn_obs q)
              (hn_children p) cs ->
      P (mkHeadingNode (hn_tag p) (hn_text p) (hn_order p) cs)) ->
  forall f r t, reify f heap r = Some t -> tree_all P t.
Proof.
  intros HP. induction f as [|f IH]; intros r t H; [discriminate|].
  apply reify_unfold in H as (f0 & p & cs & [= <-] & Hp & Hcs & ->).
  constructor.
  - apply (HP r); [assumption|].
    eapply Forall2_impl; [exact Hcs|]. intros c t'. apply reify_obs.
  - cbn. clear Hp. induction Hcs as [|c t' cs' ts Hc _ IHcs]; constructor.
    + exact (IH _ _ Hc).
    + exact IHcs.
Qed.

Lemma StronglySorted_lookup {A} (R : A -> A -> Prop) (l : list A) i j x y :
  StronglySorted R l -> (i < j)%nat -> l !! i = Some x -> l !! j = Some y -> R x y.
Proof.
  intros S'. revert i j. induction S' as [|a l _ IH Ha]; intros i j Hij Hi Hj.
  - discriminate Hi.
  - destruct j as [|j]; [lia|]. cbn in Hj.
    rewrite Forall_forall in Ha.
    destruct i as [|i].
    + injection Hi as <-. apply Ha. eapply list_elem_of_lookup_2, Hj.
    + cbn in Hi. apply (IH i j); [lia|assumption..].
Qed.

(** Objects are created in the order of the input, so a younger object has
    a greater [order]. *)
Lemma run_order_mono (l : list FlatHeading) i j p q :
  increasing_order l -> (i < j)%nat ->
  heap (build_run l) !! i = Some p -> heap (build_run l) !! j = Some q ->
  hn_order p < hn_order q.
Proof.
  intros Hinc Hij Hp%run_lookup Hq%run_lookup.
  apply (StronglySorted_lookup Z.lt (map order l) i j); [assumption..| |].
  - change (map order l) with (order <$> l). now rewrite list_lookup_fmap, Hp.
  - change (map order l) with (order <$> l). now rewrite list_lookup_fmap, Hq.
Qed.

Lemma children_sorted_transfer (heap : list HeapNode) (cs : list nat)
    (ts : list HeadingNode) :
  (forall i j p q, (i < j)%nat -> heap !! i = Some p -> heap !! j = Some q ->
                   hn_order p < hn_order q) ->
  StronglySorted lt cs ->
  Forall2 (fun c t' => exists q, heap !! c = Some q /\ obs t' = hn_obs q) cs ts ->
  StronglySorted Z.lt (map node_order ts).
Proof.
  intros Hmono S' F. induction F as [|c t' cs ts (q & Hq & Ho) F IH]; cbn.
  - constructor.
  - apply StronglySorted_inv in S' as [S' Hc]. constructor; [now apply IH|].
    rewrite Forall_forall in Hc. apply Forall_forall. intros o Ho'.
    change (map node_order ts) with (node_order <$> ts) in Ho'.
    apply list_elem_of_fmap in Ho' as (t2 & -> & Ht2).
    apply list_elem_of_lookup in Ht2 as [k Hk].
    destruct (Forall2_lookup_r _ _ _ _ _ F Hk) as (c2 & Hc2 & q2 & Hq2 & Ho2).
    assert (c < c2)%nat as Hlt.
    { apply Hc. eapply list_elem_of_lookup_2, Hc2. }
    pose proof (Hmono _ _ _ _ Hlt Hq Hq2) as Hord.
    change (node_order t') with (order (obs t')).
    change (node_order t2) with (order (obs t2)).
    now rewrite Ho, Ho2.
Qed.

(** On input whose tags carry a level, every child read from the final
    store is at a deeper level than its parent. *)
Lemma run_children_deeper (l : list FlatHeading) :
  Forall has_level l ->
  forall f r t, reify f (heap (build_run l)) r = Some t -> tree_all children_deeper t.
Proof.
  intros Hlv. apply reify_tree_all. intros r p cs Hp F.
  pose proof (levels_ok_run l Hlv) as Hl.
  unfold children_deeper. cbn [children node_tag].
  apply Forall_forall. intros t' Ht'.
  apply list_elem_of_lookup in Ht' as [k Hk].
  destruct (Forall2_lookup_r _ _ _ _ _ F Hk) as (c & Hc & q & Hq & Ho).
  change (node_tag t') with (tag (obs t')). rewrite Ho. cbn.
  eapply (ok_level_below _ Hl r p c q); [assumption| |assumption].
  eapply list_elem_of_lookup_2, Hc.
Qed.

(** On input with increasing [order], the children read from the final
    store are in ascending [order]. *)
Lemma run_children_sorted (l : list FlatHeading) :
  increasing_order l ->
  forall f r t, reify f (heap (build_run l)) r = Some t -> tree_all children_sorted t.
Proof.
  intros Hinc. apply reify_tree_all. intros r p cs Hp F.
  pose proof (store_ok_run l) as Hok.
  unfold children_sorted. cbn [children].
  eapply children_sorted_transfer; [|exact (ok_sorted _ Hok r p Hp)|exact F].
  intros i j pi pj. now apply run_order_mono.
Qed.

Lemma tree_all_and (P Q : HeadingNode -> Prop) (t : HeadingNode) :
  tree_all P t -> tree_all Q t -> tree_all (fun n => P n /\ Q n) t.
Proof.
  revert t. fix IH 2. intros t [n Hn Hcs] HQ. inversion HQ as [n' Hn' Hcs']; subst.
  constructor; [now split|].
  clear Hn Hn' HQ. revert Hcs'. induction Hcs as [|c cs Hc _ IHcs]; intros Hcs'.
  - constructor.
  - apply Forall_cons in Hcs' as [Hc' Hcs']. constructor; [now apply IH|now apply IHcs].
Qed.

Lemma run_node_ok (l : list FlatHeading) :
  Forall has_level l -> increasing_order l ->
  forall f r t, reify f (heap (build_run l)) r = Some t -> well_nested t.
Proof.
  intros Hlv Hinc f r t H. apply tree_all_and.
  - exact (run_children_sorted l Hinc f r t H).
  - exact (run_children_deeper l Hlv f r t H).
Qed.

(** The scan numbers the headings 1, 2, ...: its [order] is increasing. *)
Lemma scan_from_orders (k : Z) (elements : list (string * string)) :
  Forall (fun o => k < o) (map order (scan_from k elements))
  /\ increasing_order (scan_from k elements).
Proof.
  unfold increasing_order. revert k.
  induction elements as [|[t x] rest IH]; intros k; cbn.
  - split; constructor.
  - destruct (IH (k + 1)) as [Hlt Hs]. split.
    + constructor; [lia|]. eapply Forall_impl; [exact Hlt|]. cbn. intros; lia.
    + constructor; assumption.
Qed.

Lemma scan_increasing_order (elements : list (string * string)) :
  increasing_order (scan elements).
Proof. apply scan_from_orders. Qed.

(** C2.  On a sequence of observations (tags carrying a level, [order]
    strictly increasing) the builder returns a forest in which every
    node's children appear in ascending [order] and every child's level is
    strictly greater than its parent's. *)
Theorem C2_forest_well_nested (flatList : list FlatHeading)
    (Hlevels : Forall has_level flatList) (Horder : increasing_order flatList) :
  exists forest,
    buildHeadingTree flatList = Some forest /\ Forall well_nested forest.
Proof.
  destruct (buildHeadingTree_total flatList) as [forest Hf].
  exists forest. split; [assumption|].
  unfold buildHeadingTree in Hf. cbv zeta in Hf. apply mapM_Some in Hf.
  apply Forall_forall. intros t Ht.
  apply list_elem_of_lookup in Ht as [k Hk].
  destruct (Forall2_lookup_r _ _ _ _ _ Hf Hk) as (r & _ & Hr).
  exact (run_node_ok flatList Hlevels Horder _ _ _ Hr).
Qed.

Lemma C2_forest_well_nested_witness :
  exists forest,
    buildHeadingTree flat_sections = Some forest /\ Forall well_nested forest.
Proof.
  apply (C2_forest_well_nested flat_sections).
  - repeat constructor; eexists; reflexivity.
  - unfold increasing_order. cbn. repeat constructor; lia.
Defined.

(** ** The tree builder: equal levels *)

Lemma valid_tag_level (t : string) :
  valid_tag t = true -> exists l, getHeadingLevel t = Some l /\ 1 <= l <= 6.
Proof.
  unfold valid_tag. intros H%bool_decide_eq_true.
  rewrite !elem_of_cons, elem_of_nil in H.
  destruct H as [->|[->|[->|[->|[->|[->|[]]]]]]];
    eexists; (split; [vm_compute; reflexivity|lia]).
Qed.

Lemma valid_tags_levels (l : list FlatHeading) : valid_tags l -> Forall has_level l.
Proof.
  intros H. eapply Forall_impl; [exact H|].
  intros h (l' & E & _)%valid_tag_level. now exists l'.
Qed.

Lemma entry_level_step b item e :
  Forall (fun e => se_node e < length (heap b))%nat (stack b) ->
  (se_node e < length (heap b))%nat ->
  entry_level (heap (build_step b item)) e = entry_level (heap b) e.
Proof.
  intros Hstack He.
  destruct (build_step_spec b item Hstack) as (_ & _ & _ & _ & Eold).
  destruct (lookup_lt_is_Some_2 (heap b) _ He) as [p Hp].
  unfold entry_level. rewrite (Eold _ _ Hp), Hp. now destruct (decide _).
Qed.

(** A heading of the level of its predecessor is attached where the
    predecessor was. *)
Lemma attach_same_level b a c :
  store_ok b -> has_level a ->
  getHeadingLevel (tag a) = getHeadingLevel (tag c) ->
  attach (build_step b a) c = attach b a.
Proof.
  intros Hok [l Hl] Heq.
  pose proof (ok_stack b Hok) as Hstack.
  destruct (build_step_spec b a Hstack) as (Est & _ & _ & Enew & _).
  unfold attach. rewrite Est, <- Heq. cbn [pop_while].
  unfold entry_level at 1. cbn [se_node]. rewrite Enew. cbn [new_node hn_tag].
  rewrite Hl. cbn [num_ge].
  replace (l >=? l) with true by (symmetry; apply Z.geb_le; lia).
  rewrite (pop_while_ext (heap b)).
  - now rewrite pop_while_idem.
  - apply pop_while_Forall. eapply Forall_impl; [exact Hstack|].
    intros e He. now apply entry_level_step.
Qed.

Lemma adjacent_app {A} (k k' : A) (l t : list A) :
  adjacent k k' l -> adjacent k k' (l ++ t).
Proof.
  intros (l1 & l2 & ->). exists l1, (l2 ++ t).
  now rewrite <- !app_assoc.
Qed.

Lemma store_siblings_grows b b' k k' :
  grows b b' -> store_siblings b k k' -> store_siblings b' k k'.
Proof.
  intros [[t T] H] [Hadj|(p & node & Hp & Hadj)].
  - left. rewrite T. now apply adjacent_app.
  - right. destruct (H _ _ Hp) as (p' & cs & Hp' & _ & C').
    exists p, p'. split; [assumption|]. rewrite C'. now apply adjacent_app.
Qed.

(** After two headings of equal level in a row, their objects are listed
    next to each other. *)
Lemma two_steps_siblings b a c :
  store_ok b -> has_level a ->
  getHeadingLevel (tag a) = getHeadingLevel (tag c) ->
  store_siblings (build_step (build_step b a) c) (length (heap b)) (S (length (heap b))).
Proof.
  intros Hok Ha Heq.
  pose proof (ok_stack b Hok) as Hstack.
  pose proof (store_ok_step b a Hok) as Hok1.
  pose proof (ok_stack _ Hok1) as Hstack1.
  destruct (build_step_spec b a Hstack) as (_ & Etree & Elen & _ & Eold).
  destruct (build_step_spec (build_step b a) c Hstack1) as (_ & Etree1 & _ & _ & Eold1).
  rewrite (attach_same_level b a c Hok Ha Heq) in Etree1, Eold1.
  rewrite Elen in Etree1, Eold1.
  destruct (attach b a) as [pr|] eqn:A.
  - right.
    pose proof (attach_in_range b a pr Hstack A) as Hpr.
    destruct (lookup_lt_is_Some_2 (heap b) pr Hpr) as [p Hp].
    pose proof (Eold _ _ Hp) as H1. rewrite decide_True in H1 by reflexivity.
    pose proof (Eold1 _ _ H1) as H2. rewrite decide_True in H2 by reflexivity.
    eexists pr, _. split; [exact H2|].
    exists (hn_children p), []. cbn. now rewrite <- app_assoc.
  - left. rewrite Etree1, Etree. exists (tree b), []. now rewrite <- app_assoc.
Qed.

(** ** From the store to the forest *)

Lemma Forall2_adjacent {A B} (Q : A -> B -> Prop) (l : list A) (k : list B) x x' :
  Forall2 Q l k -> adjacent x x' l ->
  exists y y', adjacent y y' k /\ Q x y /\ Q x' y'.
Proof.
  intros F (l1 & l2 & ->).
  apply Forall2_app_inv_l in F as (k1 & k2 & _ & F & ->).
  apply Forall2_cons_inv_l in F as (y & k3 & Hy & F & ->).
  apply Forall2_cons_inv_l in F as (y' & k4 & Hy' & _ & ->).
  exists y, y'. split; [now exists k1, k4|auto].
Qed.

Lemma Forall2_elem_of_l {A B} (Q : A -> B -> Prop) (l : list A) (k : list B) x :
  Forall2 Q l k -> x ∈ l -> exists y, y ∈ k /\ Q x y.
Proof.
  intros F [i Hi]%list_elem_of_lookup.
  destruct (Forall2_lookup_l _ _ _ _ _ F Hi) as (y & Hy & HQ).
  exists y. split; [eapply list_elem_of_lookup_2, Hy|assumption].
Qed.

(** An object at depth [d] of the store is read as a node at depth [d] of
    the forest. *)
Lemma reach_sibling_list heap tree forest n d r :
  Forall2 (fun r t => reify n heap r = Some t) tree forest ->
  reach heap tree d r ->
  exists l t f, sibling_list forest d l /\ t ∈ l /\ reify f heap r = Some t.
Proof.
  intros F. induction 1 as [r Hr|d p node c _ (l & tp & f & Hl & Htp & Hf) Hp Hc].
  - destruct (Forall2_elem_of_l _ _ _ _ F Hr) as (t & Ht & Hrt).
    exists forest, t, n. split; [constructor|auto].
  - apply reify_unfold in Hf as (f' & p' & cs & -> & Hp' & Hcs & ->).
    assert (p' = node) as -> by congruence.
    destruct (Forall2_elem_of_l _ _ _ _ Hcs Hc) as (t & Ht & Hct).
    exists cs, t, f'. split; [|auto].
    exact (siblings_children forest d l _ Hl Htp).
Qed.

Lemma buildHeadingTree_Forall2 (l : list FlatHeading) (forest : list HeadingNode) :
  buildHeadingTree l = Some forest ->
  Forall2 (fun r t => reify (length (heap (build_run l))) (heap (build_run l)) r = Some t)
          (tree (build_run l)) forest.
Proof. unfold buildHeadingTree. cbv zeta. apply mapM_Some. Qed.

(** Siblings of the store are siblings of the forest, at the same depth. *)
Lemma store_siblings_forest (l : list FlatHeading) (forest : list HeadingNode) k k' a c :
  buildHeadingTree l = Some forest ->
  store_siblings (build_run l) k k' ->
  l !! k = Some a -> l !! k' = Some c ->
  exists d siblings na nc,
    sibling_list forest d siblings /\ adjacent na nc siblings
    /\ obs na = a /\ obs nc = c.
Proof.
  intros Hf Hs Ha Hc.
  pose proof (buildHeadingTree_Forall2 l forest Hf) as F.
  pose proof (store_ok_run l) as Hok.
  assert (Hobs : forall f r t x, reify f (heap (build_run l)) r = Some t ->
                                 l !! r = Some x -> obs t = x).
  { intros f r t x (p & Hp & ->)%reify_obs Hx. apply run_lookup in Hp. congruence. }
  destruct Hs as [Hadj|(p & node & Hp & Hadj)].
  - destruct (Forall2_adjacent _ _ _ _ _ F Hadj) as (na & nc & Hadj' & Hna & Hnc).
    exists O, forest, na, nc. split; [constructor|]. split; [assumption|].
    split; eapply Hobs; eassumption.
  - destruct (ok_reach _ Hok p) as [d Hd]; [eapply lookup_lt_Some, Hp|].
    destruct (reach_sibling_list _ _ _ _ _ _ F Hd) as (sl & tp & f & Hsl & Htp & Hr).
    apply reify_unfold in Hr as (f' & p' & cs & -> & Hp' & Hcs & ->).
    assert (p' = node) as -> by congruence.
    destruct (Forall2_adjacent _ _ _ _ _ Hcs Hadj) as (na & nc & Hadj' & Hna & Hnc).
    exists (S d), cs, na, nc. split.
    { exact (siblings_children forest d sl _ Hsl Htp). }
    split; [assumption|]. split; eapply Hobs; eassumption.
Qed.

Lemma occurs_tree_all (P : HeadingNode -> Prop) forest n :
  Forall (tree_all P) forest -> occurs forest n -> tree_all P n.
Proof.
  intros Hf (d & l & Hl & Hn).
  assert (Forall (tree_all P) l) as Hall.
  { clear Hn. induction Hl as [|d l m _ IH Hm]; [assumption|].
    rewrite Forall_forall in IH. specialize (IH m Hm).
    now inversion IH. }
  rewrite Forall_forall in Hall. now apply Hall.
Qed.

Lemma level_below_trans t1 t2 t3 :
  level_below t1 t2 -> level_below t2 t3 -> level_below t1 t3.
Proof.
  intros (l1 & l2 & E1 & E2 & L) (l2' & l3 & E2' & E3 & L').
  exists l1, l3. repeat split; [assumption..|]. 
  assert (l2 = l2') by congruence. lia.
Qed.

(** Below a node every level is strictly greater than the node's. *)
Lemma descendant_level n m :
  tree_all children_deeper n -> descendant n m -> level_below (node_tag n) (node_tag m).
Proof.
  intros Hn Hd. induction Hd as [n m Hm|n c m Hc _ IH].
  - inversion Hn as [n' Hdeep _]; subst. unfold children_deeper in Hdeep.
    rewrite Forall_forall in Hdeep. now apply Hdeep.
  - inversion Hn as [n' Hdeep Hcs]; subst. unfold children_deeper in Hdeep.
    rewrite Forall_forall in Hdeep, Hcs.
    eapply level_below_trans; [apply Hdeep, Hc|apply IH, Hcs, Hc].
Qed.

Lemma forest_children_deeper (l : list FlatHeading) (forest : list HeadingNode) :
  Forall has_level l -> buildHeadingTree l = Some forest ->
  Forall (tree_all children_deeper) forest.
Proof.
  intros Hlv Hf. pose proof (buildHeadingTree_Forall2 l forest Hf) as F.
  apply Forall_forall. intros t [k Hk]%list_elem_of_lookup.
  destruct (Forall2_lookup_r _ _ _ _ _ F Hk) as (r & _ & Hr).
  exact (run_children_deeper l Hlv _ _ _ Hr).
Qed.

Lemma forest_valid_tags (l : list FlatHeading) (forest : list HeadingNode) :
  valid_tags l -> buildHeadingTree l = Some forest ->
  Forall (tree_all (fun n => valid_tag (node_tag n) = true)) forest.
Proof.
  intros Hv Hf. pose proof (buildHeadingTree_Forall2 l forest Hf) as F.
  apply Forall_forall. intros t [k Hk]%list_elem_of_lookup.
  destruct (Forall2_lookup_r _ _ _ _ _ F Hk) as (r & _ & Hr).
  revert Hr. apply reify_tree_all. intros r' p cs Hp _. cbn.
  apply run_lookup in Hp. unfold valid_tags in Hv. rewrite Forall_forall in Hv.
  apply (Hv (hn_obs p)). eapply list_elem_of_lookup_2, Hp.
Qed.

(** An H1 empties the stack: it is attached to no parent. *)
Lemma attach_h1 (l : list FlatHeading) (item : FlatHeading) :
  valid_tags l -> tag item = "h1"%string -> attach (build_run l) item = None.
Proof.
  intros Hv Ht. unfold attach. rewrite Ht.
  change (getHeadingLevel "h1") with (Some 1).
  pose proof (ok_stack _ (store_ok_run l)) as Hstack.
  induction Hstack as [|e st He _ IH]; [reflexivity|].
  cbn [pop_while].
  destruct (lookup_lt_is_Some_2 _ _ He) as [p Hp].
  unfold entry_level at 1. rewrite Hp.
  apply run_lookup in Hp. unfold valid_tags in Hv. rewrite Forall_forall in Hv.
  destruct (valid_tag_level (hn_tag p)) as (lv & -> & Hlv).
  { apply (Hv (hn_obs p)). eapply list_elem_of_lookup_2, Hp. }
  cbn [num_ge]. replace (lv >=? 1) with true by (symmetry; apply Z.geb_le; lia).
  exact IH.
Qed.

Lemma run_app (l1 l2 : list FlatHeading) :
  build_run (l1 ++ l2) = fold_left build_step l2 (build_run l1).
Proof. unfold build_run. apply fold_left_app. Qed.

(** Every H1 of the sequence is read as a root of the forest. *)
Lemma h1_is_root (l : list FlatHeading) (forest : list HeadingNode) (h : FlatHeading) :
  valid_tags l -> buildHeadingTree l = Some forest ->
  h ∈ l -> tag h = "h1"%string ->
  exists root, root ∈ forest /\ obs root = h.
Proof.
  intros Hv Hf Hin Ht.
  apply list_elem_of_split in Hin as (pre & post & ->).
  pose proof (buildHeadingTree_Forall2 _ forest Hf) as F.
  assert (Hpre : valid_tags pre) by (now apply Forall_app in Hv as [? _]).
  pose proof (store_ok_run pre) as Hok.
  destruct (build_step_spec (build_run pre) h (ok_stack _ Hok)) as (_ & Etree & _).
  rewrite (attach_h1 pre h Hpre Ht) in Etree.
  assert (Hroot : length (heap (build_run pre)) ∈ tree (build_run (pre ++ h :: post))).
  { rewrite run_app. cbn [fold_left].
    destruct (store_ok_run_from (build_step (build_run pre) h) post) as [_ [[t T] _]].
    { now apply store_ok_step. }
    rewrite T, Etree, !elem_of_app, list_elem_of_singleton. auto. }
  destruct (Forall2_elem_of_l _ _ _ _ F Hroot) as (root & Hr & Hreify).
  exists root. split; [assumption|].
  apply reify_obs in Hreify as (p & Hp & ->). apply run_lookup in Hp.
  assert (length (heap (build_run pre)) = length pre) as E.
  { rewrite <- (obs_run pre) at 2. now rewrite length_fmap. }
  rewrite E, list_lookup_middle in Hp by reflexivity. congruence.
Qed.

(** C3.  Two consecutive headings of equal level are read as neighbours in
    one list of siblings of the forest, at one depth, and neither lies
    below the other; every H1 of the sequence is a root and no H1 is a
    child; and the loop pops exactly the entries at the top of the stack
    whose level is greater than or equal to the incoming level. *)
Theorem C3_equal_levels_are_siblings (pre post : list FlatHeading) (a c : FlatHeading)
    (Hvalid : valid_tags (pre ++ a :: c :: post))
    (Hequal : getHeadingLevel (tag a) = getHeadingLevel (tag c)) :
  exists forest,
    buildHeadingTree (pre ++ a :: c :: post) = Some forest
    /\ (exists d siblings na nc,
          sibling_list forest d siblings /\ adjacent na nc siblings
          /\ obs na = a /\ obs nc = c)
    /\ (forall n m, occurs forest n -> descendant n m ->
          ~ (obs n = a /\ obs m = c) /\ ~ (obs n = c /\ obs m = a))
    /\ (forall h, h ∈ pre ++ a :: c :: post -> tag h = "h1"%string ->
          exists root, root ∈ forest /\ obs root = h)
    /\ (forall n m, occurs forest n -> m ∈ children n -> node_tag m <> "h1"%string)
    /\ (forall heap level stack,
          exists popped,
            stack = popped ++ pop_while heap level stack
            /\ Forall (fun e => num_ge (entry_level heap e) level = true) popped
            /\ pop_stops heap level (pop_while heap level stack)).
Proof.
  set (l := pre ++ a :: c :: post) in *.
  destruct (buildHeadingTree_total l) as [forest Hf].
  pose proof (valid_tags_levels l Hvalid) as Hlv.
  pose proof (forest_children_deeper l forest Hlv Hf) as Hdeep.
  exists forest. split; [assumption|]. split; [|split; [|split; [|split]]].
  - assert (Hpre : length (heap (build_run pre)) = length pre).
    { rewrite <- (obs_run pre) at 2. now rewrite length_fmap. }
    apply (store_siblings_forest l forest (length pre) (S (length pre))); [assumption| | |].
    + subst l. rewrite run_app. cbn [fold_left].
      pose proof (store_ok_run pre) as Hok.
      assert (has_level a) as Ha.
      { rewrite Forall_forall in Hlv. apply Hlv.
        rewrite elem_of_app, elem_of_cons. auto. }
      eapply store_siblings_grows.
      * apply store_ok_run_from. now do 2 apply store_ok_step.
      * rewrite <- Hpre. now apply two_steps_siblings.
    + subst l. now apply list_lookup_middle.
    + subst l. change (pre ++ a :: c :: post) with (pre ++ [a] ++ c :: post).
      rewrite app_assoc. apply list_lookup_middle. rewrite length_app. cbn. lia.
  - intros n m Hn Hd.
    pose proof (descendant_level n m (occurs_tree_all _ _ _ Hdeep Hn) Hd)
      as (ln & lm & En & Em & Hlt).
    change (node_tag n) with (tag (obs n)) in En.
    change (node_tag m) with (tag (obs m)) in Em.
    split; intros [On Om]; rewrite On in En; rewrite Om in Em;
      assert (ln = lm) by congruence; lia.
  - intros h Hh Ht. exact (h1_is_root l forest h Hvalid Hf Hh Ht).
  - intros n m Hn Hm Hh1.
    pose proof (occurs_tree_all _ _ _ Hdeep Hn) as Hdn.
    pose proof (occurs_tree_all _ _ _ (forest_valid_tags l forest Hvalid Hf) Hn) as Hvn.
    inversion Hdn as [n' Hd _]; subst. inversion Hvn as [n' Hv _]; subst.
    unfold children_deeper in Hd. rewrite Forall_forall in Hd.
    destruct (Hd m Hm) as (ln & lm & En & Em & Hlt).
    destruct (valid_tag_level _ Hv) as (ln' & En' & Hrange).
    rewrite Hh1 in Em. change (getHeadingLevel "h1") with (Some 1) in Em.
    assert (ln = ln') by congruence. assert (lm = 1) by congruence. lia.
  - intros heap level stack.
    destruct (pop_while_suffix heap level stack) as (popped & E & F).
    exists popped. split; [assumption|]. split; [assumption|].
    unfold pop_stops.
    destruct (pop_while heap level stack) as [|top rest] eqn:P; [exact I|].
    exact (pop_while_head _ _ _ _ _ P).
Qed.

Lemma C3_equal_levels_are_siblings_witness :
  exists forest,
    buildHeadingTree flat_twins = Some forest
    /\ exists d siblings na nc,
         sibling_list forest d siblings /\ adjacent na nc siblings
         /\ node_text na = "Left"%string /\ node_text nc = "Right"%string.
Proof.
  destruct (C3_equal_levels_are_siblings
              [ {| tag := "h1"; text := "Intro"; order := 1 |} ]
              [ {| tag := "h1"; text := "Outro"; order := 4 |} ]
              {| tag := "h2"; text := "Left"; order := 2 |}
              {| tag := "h2"; text := "Right"; order := 3 |})
    as (forest & Hf & (d & siblings & na & nc & Hs & Hadj & Ha & Hc) & _).
  - repeat constructor.
  - reflexivity.
  - exists forest. split; [exact Hf|].
    exists d, siblings, na, nc. split; [assumption|]. split; [assumption|].
    change (node_text na) with (text (obs na)).
    change (node_text nc) with (text (obs nc)).
    rewrite Ha, Hc. split; reflexivity.
Defined.

Example buildHeadingTree_twins :
  buildHeadingTree flat_twins
  = Some [ mkHeadingNode "h1" "Intro" 1
             [ mkHeadingNode "h2" "Left" 2 []; mkHeadingNode "h2" "Right" 3 [] ];
           mkHeadingNode "h1" "Outro" 4 [] ].
Proof. reflexivity. Qed.

Example buildHeadingTree_sections :
  buildHeadingTree flat_sections
  = Some [ mkHeadingNode "h1" "Title" 1
             [ mkHeadingNode "h2" "Sec A" 2 [ mkHeadingNode "h3" "Sub" 3 [] ];
               mkHeadingNode "h2" "Sec B" 4 [] ] ].
Proof. reflexivity. Qed.

(** ** The empty keyword *)

(** C10.  With the empty string as target keyword the analysis is the one
    obtained without a keyword: it is returned, its [keywordPresence] is
    absent and its issues, those of [identifyIssues], hold no
    [keyword_missing_h1], whether or not the page has an H1. *)
Theorem C10_empty_keyword_is_no_keyword (flatList : list FlatHeading) :
  analyzeHeadings flatList (Some ""%string) = analyzeHeadings flatList None
  /\ (forall counts : gmap string Z,
        analysisIssues flatList counts (Some ""%string)
        = analysisIssues flatList counts None)
  /\ exists r,
       analyzeHeadings flatList (Some ""%string) = Some r
       /\ keywordPresence r = None
       /\ issues r = identifyIssues flatList (countByLevel flatList)
       /\ ~ emits "keyword_missing_h1" (issues r).
Proof.
  assert (Hissues : forall counts : gmap string Z,
             analysisIssues flatList counts (Some ""%string)
             = identifyIssues flatList counts).
  { intros counts. rewrite analysisIssues_spec. cbn. apply app_nil_r. }
  assert (Hnone : forall counts : gmap string Z,
             analysisIssues flatList counts None = identifyIssues flatList counts).
  { intros counts. rewrite analysisIssues_spec. cbn. apply app_nil_r. }
  unfold analyzeHeadings. cbv zeta.
  destruct (buildHeadingTree_total flatList) as [forest ->].
  rewrite Hissues, Hnone. split; [reflexivity|].
  split; [intros counts; now rewrite Hissues, Hnone|].
  eexists. split; [reflexivity|]. cbn [keywordPresence issues].
  split; [reflexivity|]. split; [reflexivity|].
  intros (i & Hi & Ht). exact (identifyIssues_no_keyword_issue _ _ _ Hi Ht).
Qed.

Example analyzeHeadings_h2_only_empty_keyword :
  exists r,
    analyzeHeadings flat_h2_only (Some ""%string) = Some r
    /\ keywordPresence r = None
    /\ map type (issues r) = ["missing_h1"; "no_h1_first"]%string.
Proof. eexists. split; [reflexivity|]. split; reflexivity. Qed.

(** The fifth scenario of the specification: a page with nothing on it. *)
Example bare_page_scores :
  calculateSeoScore (bare_page None)
  = {| overall := 30;
       breakdown := {| b_title := 0; b_meta := 0; b_headings := 30; b_images := 100;
                       b_links := 50; b_technical := 29 |} |}.
Proof. reflexivity. Qed.

(** ** The blend in integers *)

Lemma Math_round_div_100 (n : Z) :
  Math_round (inject_Z n / inject_Z 100) = (n + 50) / 100.
Proof.
  unfold Math_round, Qfloor, Qdiv, Qmult, Qplus, Qinv, inject_Z. cbn.
  change (Z.pos (1 * 100 * 2)) with (100 * 2). change (Z.pos (1 * 100)) with 100.
  replace (n * 1 * 2 + 1 * 100) with ((n + 50) * 2) by lia.
  now rewrite Z.div_mul_cancel_r.
Qed.

Lemma Math_round_div_35 (n : Z) :
  Math_round (inject_Z n / inject_Z 35) = (2 * n + 35) / 70.
Proof.
  unfold Math_round, Qfloor, Qdiv, Qmult, Qplus, Qinv, inject_Z. cbn.
  change (Z.pos (1 * 35 * 2)) with 70. change (Z.pos (1 * 35)) with 35.
  f_equal. lia.
Qed.

(** The technical score and the overall score, in integer arithmetic. *)
Lemma technical_integer (a : PageAnalysis) :
  b_technical (breakdown (calculateSeoScore a))
  = (2 * (10 * scoreCanonicalCategory a + 5 * scoreOpenGraphCategory a
          + 10 * scoreRobotsCategory a + 10 * scoreContentCategory a) + 35) / 70.
Proof.
  change (b_technical (breakdown (calculateSeoScore a)))
    with (Math_round (technicalScore a)).
  unfold technicalScore. cbv zeta. change technicalWeight with 35.
  rewrite Math_round_div_35. f_equal.
  unfold SCORE_WEIGHTS.canonical, SCORE_WEIGHTS.openGraph, SCORE_WEIGHTS.robots,
    SCORE_WEIGHTS.content. lia.
Qed.

Lemma overall_integer (a : PageAnalysis) :
  overall (calculateSeoScore a)
  = clamp100
      ((20 * scoreTitleCategory a + 10 * scoreMetaCategory a
        + 15 * scoreHeadingsCategory a + 10 * scoreImagesCategory a
        + 10 * scoreLinksCategory a
        + 35 * b_technical (breakdown (calculateSeoScore a)) + 50) / 100).
Proof.
  change (b_technical (breakdown (calculateSeoScore a)))
    with (Math_round (technicalScore a)).
  unfold calculateSeoScore. cbn [overall]. f_equal.
  rewrite <- Math_round_div_100. apply Math_round_comp.
  cbn [Object_values weigh_all set_technical fold_left c_title c_meta c_headings
       c_images c_links c_technical set_weighted score weight weighted].
  change technicalWeight with 35.
  change SCORE_WEIGHTS.title with 20. change SCORE_WEIGHTS.metaDescription with 10.
  change SCORE_WEIGHTS.headings with 15. change SCORE_WEIGHTS.images with 10.
  change SCORE_WEIGHTS.links with 10.
  change (0 + 20 + 10 + 15 + 10 + 10 + 35) with 100.
  generalize (Math_round (technicalScore a)) (scoreTitleCategory a)
    (scoreMetaCategory a) (scoreHeadingsCategory a) (scoreImagesCategory a)
    (scoreLinksCategory a).
  intros tech t m h i l.
  rewrite !inject_Z_plus, !inject_Z_mult. field.
Qed.

Lemma list_min_exists (l : list Z) :
  l <> [] -> exists x, x ∈ l /\ Forall (fun y => x <= y) l.
Proof.
  induction l as [|a l IH]; [congruence|]. intros _.
  destruct l as [|b l].
  - exists a. split; [now left|]. repeat constructor. lia.
  - destruct IH as (x & Hx & Hall); [discriminate|].
    destruct (Z.le_gt_cases a x).
    + exists a. split; [now left|]. constructor; [lia|].
      eapply Forall_impl; [exact Hall|]. cbn. intros; lia.
    + exists x. split; [now right|]. constructor; [lia|assumption].
Qed.

Lemma list_max_exists (l : list Z) :
  l <> [] -> exists x, x ∈ l /\ Forall (fun y => y <= x) l.
Proof.
  induction l as [|a l IH]; [congruence|]. intros _.
  destruct l as [|b l].
  - exists a. split; [now left|]. repeat constructor. lia.
  - destruct IH as (x & Hx & Hall); [discriminate|].
    destruct (Z.le_gt_cases x a).
    + exists a. split; [now left|]. constructor; [lia|].
      eapply Forall_impl; [exact Hall|]. cbn. intros; lia.
    + exists x. split; [now right|]. constructor; [lia|assumption].
Qed.

Lemma blend_bounds (lo hi t m h i l tech : Z) :
  lo <= t <= hi -> lo <= m <= hi -> lo <= h <= hi -> lo <= i <= hi ->
  lo <= l <= hi -> lo <= tech <= hi ->
  lo <= (20 * t + 10 * m + 15 * h + 10 * i + 10 * l + 35 * tech + 50) / 100 <= hi.
Proof.
  intros. split.
  - apply Z.div_le_lower_bound; lia.
  - apply Z.lt_succ_r, Z.div_lt_upper_bound; lia.
Qed.

Lemma technical_bounds (lo hi c o r n : Z) :
  lo <= c <= hi -> lo <= o <= hi -> lo <= r <= hi -> lo <= n <= hi ->
  lo <= (2 * (10 * c + 5 * o + 10 * r + 10 * n) + 35) / 70 <= hi.
Proof.
  intros. split.
  - apply Z.div_le_lower_bound; lia.
  - apply Z.lt_succ_r, Z.div_lt_upper_bound; lia.
Qed.

Lemma categories_in_range (a : PageAnalysis) :
  Forall in_range
    [ scoreTitleCategory a; scoreMetaCategory a; scoreHeadingsCategory a;
      scoreImagesCategory a; scoreLinksCategory a; scoreCanonicalCategory a;
      scoreOpenGraphCategory a; scoreRobotsCategory a; scoreContentCategory a ].
Proof.
  repeat constructor.
  all: try (unfold scoreTitleCategory, scoreMetaCategory, scoreHeadingsCategory,
              scoreImagesCategory, scoreLinksCategory, scoreCanonicalCategory,
              scoreOpenGraphCategory, scoreRobotsCategory, scoreContentCategory;
            cbv zeta; case_ifs; try apply clamp100_range; lia).
Qed.

Lemma technical_in_range (a : PageAnalysis) :
  in_range (b_technical (breakdown (calculateSeoScore a))).
Proof.
  rewrite technical_integer.
  pose proof (categories_in_range a) as H.
  repeat (apply Forall_cons in H as [? H]).
  now apply technical_bounds.
Qed.

(** X1.  The overall score is the rounded blend itself: the final clamp never
    changes it, and it lies between the smallest and the largest entry of
    the breakdown, each of which is in [0,100]. *)
Theorem overall_between_breakdown (a : PageAnalysis) :
  let s := calculateSeoScore a in
  overall s
  = (20 * b_title (breakdown s) + 10 * b_meta (breakdown s)
     + 15 * b_headings (breakdown s) + 10 * b_images (breakdown s)
     + 10 * b_links (breakdown s) + 35 * b_technical (breakdown s) + 50) / 100
  /\ Forall in_range (breakdown_scores s)
  /\ exists lo hi,
       lo ∈ breakdown_scores s /\ hi ∈ breakdown_scores s /\ lo <= overall s <= hi.
Proof.
  cbv zeta.
  assert (Hr : Forall in_range (breakdown_scores (calculateSeoScore a))).
  { pose proof (categories_in_range a) as H.
    repeat (apply Forall_cons in H as [? H]).
    change (breakdown_scores (calculateSeoScore a))
      with [ scoreTitleCategory a; scoreMetaCategory a; scoreHeadingsCategory a;
             scoreImagesCategory a; scoreLinksCategory a;
             b_technical (breakdown (calculateSeoScore a)) ].
    repeat (apply Forall_cons; split); try (now apply Forall_nil); try assumption.
    apply technical_in_range. }
  assert (Hb : forall lo hi,
             Forall (fun x => lo <= x <= hi) (breakdown_scores (calculateSeoScore a)) ->
             lo <= (20 * scoreTitleCategory a + 10 * scoreMetaCategory a
                    + 15 * scoreHeadingsCategory a + 10 * scoreImagesCategory a
                    + 10 * scoreLinksCategory a
                    + 35 * b_technical (breakdown (calculateSeoScore a)) + 50) / 100
             <= hi).
  { intros lo hi H. unfold breakdown_scores in H.
    repeat (apply Forall_cons in H as [? H]). now apply blend_bounds. }
  assert (Ho : overall (calculateSeoScore a)
               = (20 * scoreTitleCategory a + 10 * scoreMetaCategory a
                  + 15 * scoreHeadingsCategory a + 10 * scoreImagesCategory a
                  + 10 * scoreLinksCategory a
                  + 35 * b_technical (breakdown (calculateSeoScore a)) + 50) / 100).
  { rewrite overall_integer. apply clamp100_id. apply (Hb 0 100). exact Hr. }
  split; [exact Ho|]. split; [exact Hr|].
  destruct (list_min_exists (breakdown_scores (calculateSeoScore a)))
    as (lo & Hlo & Hmin); [discriminate|].
  destruct (list_max_exists (breakdown_scores (calculateSeoScore a)))
    as (hi & Hhi & Hmax); [discriminate|].
  exists lo, hi. split; [assumption|]. split; [assumption|].
  rewrite Ho. apply Hb.
  rewrite Forall_forall in Hmin, Hmax. apply Forall_forall. intros x Hx.
  split; [now apply Hmin|now apply Hmax].
Qed.

(** X2.  The technical entry of the breakdown lies between the smallest and the
    largest of the canonical, Open Graph, robots and content scores. *)
Theorem technical_between_signals (a : PageAnalysis) :
  exists lo hi,
    lo ∈ technical_signals a /\ hi ∈ technical_signals a
    /\ lo <= b_technical (breakdown (calculateSeoScore a)) <= hi.
Proof.
  destruct (list_min_exists (technical_signals a)) as (lo & Hlo & Hmin); [discriminate|].
  destruct (list_max_exists (technical_signals a)) as (hi & Hhi & Hmax); [discriminate|].
  exists lo, hi. split; [assumption|]. split; [assumption|].
  rewrite technical_integer.
  unfold technical_signals in Hmin, Hmax.
  repeat (apply Forall_cons in Hmin as [? Hmin]).
  repeat (apply Forall_cons in Hmax as [? Hmax]).
  apply technical_bounds; lia.
Qed.

(** X3.  Raising category scores never lowers the technical or the overall
    score. *)
Theorem overall_monotone (a a' : PageAnalysis) (Hle : scores_le a a') :
  b_technical (breakdown (calculateSeoScore a))
  <= b_technical (breakdown (calculateSeoScore a'))
  /\ overall (calculateSeoScore a) <= overall (calculateSeoScore a').
Proof.
  destruct Hle as (Ht & Hm & Hh & Hi & Hl & Hc & Ho & Hr & Hn).
  assert (Htech : b_technical (breakdown (calculateSeoScore a))
                  <= b_technical (breakdown (calculateSeoScore a'))).
  { rewrite !technical_integer. apply Z.div_le_mono; lia. }
  split; [exact Htech|].
  rewrite !overall_integer. unfold clamp100.
  apply Z.max_le_compat_l, Z.min_le_compat_l, Z.div_le_mono; lia.
Qed.

Lemma overall_monotone_witness :
  overall (calculateSeoScore (bare_page None))
  <= overall (calculateSeoScore thin_bare_page).
Proof.
  apply (overall_monotone (bare_page None) thin_bare_page).
  unfold scores_le. vm_compute. repeat split; discriminate.
Defined.

(** X4.  The content score is 50 without content analysis, 60 below 200 words
    and 100 from 200 words on: the 20-point penalty of the second test is
    never applied, since the homepage minimum equals the thin-content
    threshold. *)
Theorem content_score_values (a : PageAnalysis) :
  scoreContentCategory a
  = match pa_content a with
    | None => 50
    | Some c => if wordCount c <? 200 then 60 else 100
    end
  /\ scoreContentCategory a <> 80.
Proof.
  unfold scoreContentCategory. destruct (pa_content a) as [c|]; [|split; [reflexivity|discriminate]].
  cbv zeta.
  change SEO_RULES.content.thinContentThreshold with 200.
  change SEO_RULES.content.minWordCount.homepage with 200.
  destruct (wordCount c <? 200); cbn; split; (reflexivity || discriminate).
Qed.

(** ** The page analyzer and the scorer together *)

Lemma truthy_length (s : string) : truthy (Some s) = true <-> 0 < str_length s.
Proof.
  unfold str_length. destruct s; cbn; split; try discriminate; try lia; reflexivity.
Qed.

(** X5.  The title score of an analysed page, by the length of the title. *)
Theorem title_score_by_length (normalized : string -> option string) (doc : Document) :
  scoreTitleCategory (partialAnalysis normalized doc)
  = match doc_title doc with
    | None => 0
    | Some s =>
        let n := str_length s in
        if n =? 0 then 0
        else if n <? 30 then 30
        else if n <? 50 then 80
        else if n <=? 60 then 100
        else 40
    end.
Proof.
  unfold scoreTitleCategory, partialAnalysis. cbn [pa_title].
  unfold analyzeTitle. cbv zeta.
  destruct (doc_title doc) as [s|]; [|reflexivity].
  destruct (truthy (Some s)) eqn:T; cbn [negb title_text title_length title_issues].
  - rewrite T. cbn [negb]. apply truthy_length in T.
    unfold SEO_RULES.title.idealMinLength, SEO_RULES.title.idealMaxLength,
      SEO_RULES.title.minLength, SEO_RULES.title.maxLength.
    destruct (Z.eqb_spec (str_length s) 0); [lia|].
    repeat match goal with
      | |- context [?a <? ?b] => destruct (Z.ltb_spec a b)
      | |- context [?a <=? ?b] => destruct (Z.leb_spec a b)
      | |- context [?a >? ?b] => destruct (Z.gtb_spec a b)
      | |- context [?a >=? ?b] => destruct (Z.geb_spec a b)
      end; cbn; try reflexivity; lia.
  - rewrite T. cbn [negb].
    destruct (Z.eqb_spec (str_length s) 0) as [|N]; [reflexivity|].
    exfalso. assert (0 < str_length s) as H%truthy_length by (unfold str_length in *; lia).
    congruence.
Qed.

(** X6.  The meta-description score of an analysed page, by the length of the
    description. *)
Theorem meta_score_by_length (normalized : string -> option string) (doc : Document) :
  scoreMetaCategory (partialAnalysis normalized doc)
  = match doc_metaDescription doc with
    | None => 0
    | Some s =>
        let n := str_length s in
        if n =? 0 then 0
        else if n <? 70 then 30
        else if n <? 150 then 80
        else if n <=? 160 then 100
        else 40
    end.
Proof.
  unfold scoreMetaCategory, partialAnalysis. cbn [pa_metaDescription].
  unfold analyzeMetaDescription. cbv zeta.
  destruct (doc_metaDescription doc) as [s|]; [|reflexivity].
  destruct (truthy (Some s)) eqn:T; cbn [negb meta_text meta_length meta_issues].
  - rewrite T. cbn [negb]. apply truthy_length in T.
    unfold SEO_RULES.metaDescription.idealMinLength,
      SEO_RULES.metaDescription.idealMaxLength,
      SEO_RULES.metaDescription.minLength, SEO_RULES.metaDescription.maxLength.
    destruct (Z.eqb_spec (str_length s) 0); [lia|].
    repeat match goal with
      | |- context [?a <? ?b] => destruct (Z.ltb_spec a b)
      | |- context [?a <=? ?b] => destruct (Z.leb_spec a b)
      | |- context [?a >? ?b] => destruct (Z.gtb_spec a b)
      | |- context [?a >=? ?b] => destruct (Z.geb_spec a b)
      end; cbn; try reflexivity; lia.
  - rewrite T. cbn [negb].
    destruct (Z.eqb_spec (str_length s) 0) as [|N]; [reflexivity|].
    exfalso. assert (0 < str_length s) as H%truthy_length by (unfold str_length in *; lia).
    congruence.
Qed.

Lemma filter_filter {A} (p q : A -> bool) (l : list A) :
  List.filter p (List.filter q l) = List.filter (fun x => q x && p x) l.
Proof.
  induction l as [|x l IH]; [reflexivity|]. cbn.
  destruct (q x); cbn; [destruct (p x); now rewrite IH|exact IH].
Qed.

Lemma len_map {A B} (f : A -> B) (l : list A) : len (map f l) = len l.
Proof. unfold len. now rewrite length_map. Qed.

Lemma len_nonneg {A} (l : list A) : 0 <= len l.
Proof. unfold len. lia. Qed.

Lemma len_filter_le {A} (p : A -> bool) (l : list A) : count_if p l <= len l.
Proof.
  unfold count_if, len. apply Nat2Z.inj_le. induction l as [|x l IH]; cbn; [lia|].
  destruct (p x); cbn; lia.
Qed.

(** [h1Count] counts the H1 elements whose text is not blank. *)
Lemma summarizeHeadings_h1Count (elements : list (string * string)) :
  h1Count (summarizeHeadings elements) = count_if nonblank_h1 elements
  /\ totalHeadings (summarizeHeadings elements) = len elements.
Proof.
  unfold summarizeHeadings. cbv zeta. cbn [h1Count totalHeadings].
  split; [|reflexivity].
  rewrite (fold_left_push (fun el => truthy (Some (trim (snd el))))
             (fun el => trim (snd el))).
  cbn [app]. rewrite len_map, filter_filter. reflexivity.
Qed.

(** X7.  The headings score of an analysed page: 100 with exactly one non-blank
    H1, 70 with several, 50 with none among other headings, 20 on a page
    without headings. *)
Theorem headings_score_by_h1 (normalized : string -> option string) (doc : Document) :
  scoreHeadingsCategory (partialAnalysis normalized doc)
  = let k := count_if nonblank_h1 (doc_headings doc) in
    if k =? 0 then (if len (doc_headings doc) =? 0 then 20 else 50)
    else if k =? 1 then 100 else 70.
Proof.
  unfold scoreHeadingsCategory, partialAnalysis. cbn [pa_headings]. cbv zeta.
  destruct (summarizeHeadings_h1Count (doc_headings doc)) as [Ek Et].
  rewrite Ek, Et.
  assert (Ei : headings_issues (summarizeHeadings (doc_headings doc))
               = if count_if nonblank_h1 (doc_headings doc) =? 0
                 then ["Missing H1 tag"%string]
                 else if count_if nonblank_h1 (doc_headings doc) >? 1
                      then ["Multiple H1 tags found ("
                            +:+ pretty (count_if nonblank_h1 (doc_headings doc)) +:+ ")"]
                      else []).
  { rewrite <- Ek. reflexivity. }
  rewrite Ei. clear Ei Ek Et.
  pose proof (len_filter_le nonblank_h1 (doc_headings doc)) as Hle.
  assert (0 <= count_if nonblank_h1 (doc_headings doc)) as Hk by apply len_nonneg.
  change SEO_RULES.headings.maxH1Count with 1.
  destruct (Z.eqb_spec (count_if nonblank_h1 (doc_headings doc)) 0) as [E0|N0].
  - destruct (Z.eqb_spec (len (doc_headings doc)) 0); reflexivity.
  - destruct (Z.gtb_spec (count_if nonblank_h1 (doc_headings doc)) 1) as [G|G].
    + destruct (Z.eqb_spec (count_if nonblank_h1 (doc_headings doc)) 1); [lia|].
      destruct (Z.eqb_spec (len (doc_headings doc)) 0); [lia|]. reflexivity.
    + destruct (Z.eqb_spec (count_if nonblank_h1 (doc_headings doc)) 1); [|lia].
      destruct (Z.eqb_spec (len (doc_headings doc)) 0); [lia|]. reflexivity.
Qed.

Lemma summarizeImages_missing_fold (alts : list (option string)) (acc : Z) :
  fold_left (fun missingAlt alt =>
               match alt with None => missingAlt + 1 | Some _ => missingAlt end)
            alts acc
  = acc + count_if alt_missing alts.
Proof.
  revert acc. unfold count_if, len.
  induction alts as [|alt alts IH]; intros acc; cbn [fold_left List.filter].
  - cbn. lia.
  - rewrite IH. destruct alt; cbn [alt_missing length]; lia.
Qed.

Lemma Qgtb_ratio (m t a : Z) (b : positive) :
  0 < t -> Qgtb (inject_Z m / inject_Z t) (a # b) = (a * t <? m * Z.pos b).
Proof.
  intros Ht. destruct t as [|p|p]; try lia.
  unfold Qgtb, Qle_bool, Qdiv, Qmult, Qinv, inject_Z. cbn.
  rewrite Z.mul_1_r, Pos.mul_1_l.
  destruct (Z.leb_spec (m * Z.pos b) (a * Z.pos p));
    destruct (Z.ltb_spec (a * Z.pos p) (m * Z.pos b)); cbn; try reflexivity; lia.
Qed.

(** X8.  The images score of an analysed page: 100 when no [alt] is missing,
    else 55, 75 or 85 as more than half, more than a fifth or fewer of the
    images lack it. *)
Theorem images_score_by_missing_alt (normalized : string -> option string)
    (doc : Document) :
  scoreImagesCategory (partialAnalysis normalized doc)
  = let t := len (doc_images doc) in
    let m := count_if alt_missing (doc_images doc) in
    if m =? 0 then 100
    else if t <? 2 * m then 55
    else if t <? 5 * m then 75
    else 85.
Proof.
  unfold scoreImagesCategory, partialAnalysis. cbn [pa_images]. cbv zeta.
  unfold summarizeImages. cbv zeta.
  rewrite summarizeImages_missing_fold. cbn [images_total images_missingAlt images_issues].
  rewrite Z.add_0_l.
  pose proof (len_filter_le alt_missing (doc_images doc)) as Hle.
  assert (0 <= count_if alt_missing (doc_images doc)) as Hm by apply len_nonneg.
  set (m := count_if alt_missing (doc_images doc)) in *.
  set (t := len (doc_images doc)) in *.
  destruct (Z.eqb_spec t 0) as [E0|N0].
  - destruct (Z.eqb_spec m 0); [reflexivity|lia].
  - assert (0 < t) as Ht by (pose proof (len_nonneg (doc_images doc)); lia).
    rewrite !Qgtb_ratio by assumption.
    destruct (Z.gtb_spec m 0) as [G|G].
    + destruct (Z.eqb_spec m 0); [lia|].
      destruct (Z.ltb_spec (1 * t) (m * 2)); destruct (Z.ltb_spec t (2 * m)); try lia;
        [reflexivity|].
      destruct (Z.ltb_spec (1 * t) (m * 5)); destruct (Z.ltb_spec t (5 * m)); try lia;
        [reflexivity|].
      destruct (Z.ltb_spec (0 * t) (m * 1)); [reflexivity|lia].
    + destruct (Z.eqb_spec m 0) as [->|]; [|lia].
      destruct (Z.ltb_spec (1 * t) (0 * 2)); [lia|].
      destruct (Z.ltb_spec (1 * t) (0 * 5)); [lia|].
      destruct (Z.ltb_spec (0 * t) (0 * 1)); [lia|]. reflexivity.
Qed.

(** X9.  The Open Graph score of an analysed page: 35 points for each of title,
    description and image once the 30 points lost to their absence are
    paid, 15 for the URL, 10 for the type. *)
Theorem og_score_by_tags (normalized : string -> option string) (doc : Document) :
  let og := doc_openGraph doc in
  let k := Z.b2z (truthy (tag_title og)) + Z.b2z (truthy (tag_description og))
           + Z.b2z (truthy (tag_image og)) in
  scoreOpenGraphCategory (partialAnalysis normalized doc)
  = Z.max 0 (35 * k - 30 + 15 * Z.b2z (truthy (tag_url og))
             + 10 * Z.b2z (truthy (tag_type og))).
Proof.
  cbv zeta. unfold scoreOpenGraphCategory, partialAnalysis. cbn [pa_openGraph].
  unfold analyzeOg. cbv zeta.
  cbn [og_title og_description og_image og_url og_type og_issues].
  destruct (truthy (tag_title (doc_openGraph doc))),
    (truthy (tag_description (doc_openGraph doc))),
    (truthy (tag_image (doc_openGraph doc))),
    (truthy (tag_url (doc_openGraph doc))),
    (truthy (tag_type (doc_openGraph doc))); reflexivity.
Qed.

(** X10.  The canonical score of an analysed page is 100 as soon as a canonical
    URL is present, well-formed or not, and 30 otherwise; "Invalid canonical
    URL" is never reported. *)
Theorem canonical_score_by_presence (normalized : string -> option string)
    (doc : Document) :
  scoreCanonicalCategory (partialAnalysis normalized doc)
  = (if truthy (doc_canonical doc) then 100 else 30)
  /\ canonical_issues (pa_canonical (partialAnalysis normalized doc))
     = (if truthy (doc_canonical doc) then [] else ["Missing canonical tag"%string]).
Proof.
  unfold scoreCanonicalCategory, partialAnalysis. cbn [pa_canonical].
  unfold analyzeCanonical. cbv zeta.
  destruct (doc_canonical doc) as [u|]; [|split; reflexivity].
  destruct (truthy (Some u)) eqn:T; cbn [negb canonical_url canonical_issues];
    rewrite T; split; reflexivity.
Qed.

(** ** Robots directives and links of an analysed page *)

(** A word without comma is a prefix of [a , r] only if it is one of [a]. *)
Lemma prefix_before_comma (w a r : string) :
  has_char "," w = false ->
  String.prefix w (a +:+ String "," r) = String.prefix w a.
Proof.
  revert a. induction w as [|x w IH]; intros a Hw.
  - destruct a; reflexivity.
  - cbn in Hw. destruct (ascii_dec x ",") as [|Nx]; [discriminate|].
    destruct a as [|y a]; simpl.
    + destruct (ascii_dec x ","); [contradiction|reflexivity].
    + destruct (ascii_dec x y); [now apply IH|reflexivity].
Qed.

Lemma includes_cons (c : ascii) (s w : string) :
  includes (String c s) w
  = if String.prefix w (String c s) then true else includes s w.
Proof. reflexivity. Qed.

Lemma includes_join (a b : string) :
  includes (a +:+ ", " +:+ b) "noindex"
  = includes a "noindex" || includes b "noindex".
Proof.
  induction a as [|c a IH].
  - reflexivity.
  - change (String c a +:+ ", " +:+ b) with (String c (a +:+ ", " +:+ b)).
    rewrite !includes_cons, IH.
    change (String c (a +:+ ", " +:+ b)) with (String c a +:+ String "," (" " +:+ b)).
    rewrite prefix_before_comma by reflexivity.
    now destruct (String.prefix "noindex" (String c a)).
Qed.

Lemma mentions_falsy (keyword : string) (text : option string) :
  keyword <> ""%string -> truthy text = false -> mentions keyword text = false.
Proof.
  intros Hk. destruct text as [s|]; [|reflexivity].
  destruct s; [|discriminate]. intros _. cbn.
  destruct keyword; [congruence|reflexivity].
Qed.

(** X11.  A page is indexable exactly when neither the robots meta tag nor the
    X-Robots-Tag header mentions noindex, in any case; joining the two
    values with a comma creates no occurrence.  The robots score is 20 or
    100 accordingly. *)
Theorem robots_indexable_iff_no_noindex (normalized : string -> option string)
    (doc : Document) :
  let blocked := mentions "noindex" (doc_metaRobots doc)
                 || mentions "noindex" (doc_xRobotsTag doc) in
  robots_isIndexable (pa_robots (partialAnalysis normalized doc)) = negb blocked
  /\ scoreRobotsCategory (partialAnalysis normalized doc)
     = (if blocked then 20 else 100).
Proof.
  cbv zeta.
  assert (E : robots_isIndexable (pa_robots (partialAnalysis normalized doc))
              = negb (mentions "noindex" (doc_metaRobots doc)
                      || mentions "noindex" (doc_xRobotsTag doc))).
  { unfold partialAnalysis. cbn [pa_robots]. unfold analyzeRobotsMeta. cbv zeta.
    cbn [robots_isIndexable]. f_equal.
    set (meta := doc_metaRobots doc). set (header := doc_xRobotsTag doc).
    destruct (truthy meta) eqn:Tm, (truthy header) eqn:Th.
    - destruct meta as [m|]; [|discriminate]. destruct header as [x|]; [|discriminate].
      unfold join_robots. rewrite Tm, Th. cbn [mentions].
      unfold toLowerCase. rewrite !map_chars_app. apply includes_join.
    - rewrite (mentions_falsy "noindex" header) by (discriminate || assumption).
      rewrite orb_false_r. destruct meta as [m|]; [|discriminate].
      unfold join_robots. rewrite Tm. reflexivity.
    - rewrite (mentions_falsy "noindex" meta) by (discriminate || assumption).
      destruct header as [x|]; [|discriminate].
      unfold join_robots. rewrite Tm, Th.
      destruct meta; reflexivity.
    - rewrite (mentions_falsy "noindex" meta) by (discriminate || assumption).
      rewrite (mentions_falsy "noindex" header) by (discriminate || assumption).
      unfold join_robots. rewrite Tm. destruct meta; reflexivity. }
  split; [exact E|].
  unfold scoreRobotsCategory. cbv zeta. rewrite E.
  now destruct (mentions "noindex" (doc_metaRobots doc)
                || mentions "noindex" (doc_xRobotsTag doc)).
Qed.

Lemma summarizeLinks_fold (anchors : list Anchor) (acc : LinkSummary) :
  let s :=
    fold_left
      (fun acc a =>
         if skipped_anchor a then acc else
         let rel := if truthy (a_rel a) then default ""%string (a_rel a) else ""%string in
         let nofollow :=
           if includes rel "nofollow" then links_nofollow acc + 1
           else links_nofollow acc in
         match a_sameHost a with
         | Some true =>
             {| links_internal := links_internal acc + 1;
                links_external := links_external acc; links_nofollow := nofollow |}
         | Some false =>
             {| links_internal := links_internal acc;
                links_external := links_external acc + 1; links_nofollow := nofollow |}
         | None =>
             {| links_internal := links_internal acc + 1;
                links_external := links_external acc; links_nofollow := nofollow |}
         end)
      anchors acc in
  links_internal s + links_external s
  = links_internal acc + links_external acc + count_if counted_anchor anchors
  /\ links_internal acc <= links_internal s
  /\ links_external acc <= links_external s
  /\ links_nofollow acc <= links_nofollow s
     <= links_nofollow acc + count_if counted_anchor anchors.
Proof.
  cbv zeta. revert acc. unfold count_if, len.
  induction anchors as [|a anchors IH]; intros acc; cbn [fold_left List.filter].
  - cbn. lia.
  - assert (counted_anchor a = negb (skipped_anchor a)) as -> by reflexivity.
    destruct (skipped_anchor a); cbn [negb].
    + apply IH.
    + cbn [length]. cbv zeta.
      destruct (a_sameHost a) as [[|]|], (includes _ "nofollow");
        match goal with |- context [fold_left ?f anchors ?acc'] =>
          specialize (IH acc') end;
        cbn [links_internal links_external links_nofollow] in IH; lia.
Qed.

(** X12.  [summarizeLinks] files every anchor it does not skip as internal or
    external, and counts at most that many as nofollow; the links score of
    the analysed page is 50 exactly when every anchor is skipped. *)
Theorem links_counts (normalized : string -> option string) (doc : Document) :
  let s := summarizeLinks (doc_anchors doc) in
  let n := count_if counted_anchor (doc_anchors doc) in
  links_internal s + links_external s = n
  /\ 0 <= links_internal s /\ 0 <= links_external s
  /\ 0 <= links_nofollow s <= n
  /\ (scoreLinksCategory (partialAnalysis normalized doc) = 50 <-> n = 0).
Proof.
  cbv zeta.
  pose proof (summarizeLinks_fold (doc_anchors doc)
                {| links_internal := 0; links_external := 0; links_nofollow := 0 |})
    as H. cbv zeta in H. cbn [links_internal links_external links_nofollow] in H.
  fold (summarizeLinks (doc_anchors doc)) in H.
  destruct H as (Hsum & Hi & He & Hn).
  repeat split; try lia.
  - unfold scoreLinksCategory, partialAnalysis. cbn [pa_links]. cbv zeta.
    change SEO_RULES.links.maxPerPage with 150. unfold clamp100.
    repeat match goal with
      | |- context [?a =? ?b] => destruct (Z.eqb_spec a b)
      | |- context [?a >? ?b] => destruct (Z.gtb_spec a b)
      end; lia.
  - intros E. unfold scoreLinksCategory, partialAnalysis. cbn [pa_links]. cbv zeta.
    change SEO_RULES.links.maxPerPage with 150. unfold clamp100.
    repeat match goal with
      | |- context [?a =? ?b] => destruct (Z.eqb_spec a b)
      | |- context [?a >? ?b] => destruct (Z.gtb_spec a b)
      end; lia.
Qed.

(** ** Counts per tag *)

Lemma countByLevel_fold (l : list FlatHeading) (m : gmap string Z) (t : string) :
  fold_left
    (fun (counts : gmap string Z) item =>
       <[tag item := default 0 (counts !! tag item) + 1]> counts) l m !! t
  = if count_if (is_tag t) l =? 0 then m !! t
    else Some (default 0 (m !! t) + count_if (is_tag t) l).
Proof.
  revert m. unfold count_if, len.
  induction l as [|h l IH]; intros m; cbn [fold_left List.filter]; [reflexivity|].
  rewrite IH. clear IH.
  assert (0 <= Z.of_nat (length (List.filter (is_tag t) l))) as Hn by lia.
  set (n := Z.of_nat (length (List.filter (is_tag t) l))) in *.
  destruct (is_tag t h) eqn:E; unfold is_tag in E.
  - apply String.eqb_eq in E. rewrite E, lookup_insert_eq. cbn [length].
    change (default 0 (Some (default 0 (m !! t) + 1))) with (default 0 (m !! t) + 1).
    replace (Z.of_nat (S (length (List.filter (is_tag t) l)))) with (n + 1) by (subst n; lia).
    clearbody n.
    destruct (Z.eqb_spec n 0) as [E0|N]; destruct (Z.eqb_spec (n + 1) 0); try lia;
      f_equal; lia.
  - apply String.eqb_neq in E. rewrite lookup_insert_ne by assumption. reflexivity.
Qed.

(** X13.  [countByLevel] maps a tag to the number of headings that carry it and
    has no entry for a tag that does not occur. *)
Theorem countByLevel_lookup (flatList : list FlatHeading) (t : string) :
  countByLevel flatList !! t
  = if count_if (is_tag t) flatList =? 0 then None
    else Some (count_if (is_tag t) flatList).
Proof.
  unfold countByLevel. rewrite countByLevel_fold, lookup_empty. cbn [default].
  now rewrite Z.add_0_l.
Qed.

Lemma count_if_zero {A} (p : A -> bool) (l : list A) :
  count_if p l = 0 <-> Forall (fun x => p x = false) l.
Proof.
  unfold count_if, len. induction l as [|x l IH]; cbn.
  - split; [constructor|reflexivity].
  - destruct (p x) eqn:E; cbn [length].
    + split; [lia|]. intros [H _]%Forall_cons. congruence.
    + rewrite IH. split; [now constructor|now intros [_ ?]%Forall_cons].
Qed.

Lemma h1_count_countByLevel (flatList : list FlatHeading) :
  h1_count (countByLevel flatList) = count_if (is_tag "h1") flatList.
Proof.
  unfold h1_count, countByLevel. rewrite countByLevel_fold, lookup_empty.
  destruct (Z.eqb_spec (count_if (is_tag "h1") flatList) 0) as [E|E]; cbn;
    [congruence|lia].
Qed.

Lemma emits_app (t : string) (l1 l2 : list SeoIssue) :
  emits t (l1 ++ l2) <-> emits t l1 \/ emits t l2.
Proof.
  unfold emits. split.
  - intros (i & [H|H]%elem_of_app & Ht); [left|right]; eauto.
  - intros [(i & H & Ht)|(i & H & Ht)]; exists i; rewrite elem_of_app; auto.
Qed.

Lemma emits_h1_count_issues (t : string) (counts : gmap string Z) :
  emits t (h1_count_issues counts)
  <-> (t = "missing_h1"%string /\ h1_count counts = 0)
      \/ (t = "multiple_h1"%string /\ 1 < h1_count counts).
Proof.
  unfold emits, h1_count_issues. change SEO_RULES.headings.maxH1Count with 1.
  destruct (Z.eqb_spec (h1_count counts) 0) as [E|E].
  - split.
    + intros (i & ->%list_elem_of_singleton & <-). now left.
    + intros [[-> _]|[_ ?]]; [|lia]. exists missing_h1_issue. split; [now left|reflexivity].
  - destruct (Z.gtb_spec (h1_count counts) 1) as [G|G].
    + split.
      * intros (i & ->%list_elem_of_singleton & <-). right. split; [reflexivity|lia].
      * intros [[_ ?]|[-> _]]; [lia|].
        exists (multiple_h1_issue (h1_count counts)). split; [now left|reflexivity].
    + split.
      * intros (i & H & _). inversion H.
      * intros [[_ ?]|[_ ?]]; lia.
Qed.

Lemma emits_other_parts (t : string) (flatList : list FlatHeading) :
  emits t (empty_heading_issues flatList ++ skipped_level_issues flatList
           ++ first_heading_issues flatList) ->
  t = "empty_heading"%string \/ t = "skipped_level"%string \/ t = "no_h1_first"%string.
Proof.
  intros (i & H & <-). rewrite !elem_of_app in H.
  destruct H as [H|[H|H]].
  - left. now apply empty_heading_issues_types in H.
  - right. left. now apply skipped_level_issues_types in H.
  - right. right. now apply first_heading_issues_types in H.
Qed.

Lemma emits_keyword_issues (t : string) flatList targetKeyword :
  emits t (keyword_issues_nonempty flatList targetKeyword) ->
  t = "keyword_missing_h1"%string.
Proof.
  unfold keyword_issues_nonempty. intros (i & H & <-).
  destruct targetKeyword as [kw|]; [|inversion H].
  destruct (String.eqb kw ""); [inversion H|].
  destruct (h1_matched flatList kw); [inversion H|].
  now apply list_elem_of_singleton in H as ->.
Qed.

Lemma analyzeHeadings_issues (flatList : list FlatHeading)
    (targetKeyword : option string) :
  exists r,
    analyzeHeadings flatList targetKeyword = Some r
    /\ counts r = countByLevel flatList
    /\ issues r
       = h1_count_issues (countByLevel flatList)
         ++ empty_heading_issues flatList ++ skipped_level_issues flatList
         ++ first_heading_issues flatList
         ++ keyword_issues_nonempty flatList targetKeyword.
Proof.
  unfold analyzeHeadings. cbv zeta.
  destruct (buildHeadingTree_total flatList) as [forest ->].
  eexists. split; [reflexivity|]. cbn [counts issues]. split; [reflexivity|].
  rewrite analysisIssues_spec, identifyIssues_parts. now rewrite <- !app_assoc.
Qed.

(** Only the first part of the issues can hold an H1-count issue. *)
Lemma emits_h1_issue (t : string) (flatList : list FlatHeading)
    (targetKeyword : option string) :
  t = "missing_h1"%string \/ t = "multiple_h1"%string ->
  emits t (h1_count_issues (countByLevel flatList)
           ++ empty_heading_issues flatList ++ skipped_level_issues flatList
           ++ first_heading_issues flatList
           ++ keyword_issues_nonempty flatList targetKeyword)
  <-> emits t (h1_count_issues (countByLevel flatList)).
Proof.
  intros Ht. rewrite !emits_app. split; [|tauto].
  intros [H|[H|[H|[H|H]]]]; [assumption|exfalso..].
  - assert (emits t (empty_heading_issues flatList ++ skipped_level_issues flatList
                     ++ first_heading_issues flatList)) as H'
      by (rewrite !emits_app; tauto).
    apply emits_other_parts in H'.
    destruct Ht as [->| ->], H' as [H'|[H'|H']]; discriminate H'.
  - assert (emits t (empty_heading_issues flatList ++ skipped_level_issues flatList
                     ++ first_heading_issues flatList)) as H'
      by (rewrite !emits_app; tauto).
    apply emits_other_parts in H'.
    destruct Ht as [->| ->], H' as [H'|[H'|H']]; discriminate H'.
  - assert (emits t (empty_heading_issues flatList ++ skipped_level_issues flatList
                     ++ first_heading_issues flatList)) as H'
      by (rewrite !emits_app; tauto).
    apply emits_other_parts in H'.
    destruct Ht as [->| ->], H' as [H'|[H'|H']]; discriminate H'.
  - apply emits_keyword_issues in H. destruct Ht as [->| ->]; discriminate H.
Qed.

Lemma missing_h1_no_h1 (flatList : list FlatHeading) :
  emits "missing_h1" (h1_count_issues (countByLevel flatList))
  <-> Forall (fun h => tag h <> "h1"%string) flatList.
Proof.
  rewrite emits_h1_count_issues, h1_count_countByLevel, count_if_zero. split.
  - intros [[_ H]|[H _]]; [|discriminate H].
    eapply Forall_impl; [exact H|]. intros h Hh E.
    unfold is_tag in Hh. rewrite E in Hh. discriminate Hh.
  - intros H. left. split; [reflexivity|].
    eapply Forall_impl; [exact H|]. intros h Hh. unfold is_tag.
    now apply String.eqb_neq.
Qed.

(** X14.  In the result of [analyzeHeadings], whose counts are those of
    [countByLevel], [missing_h1] is reported exactly when no heading of the
    sequence is an h1, and [multiple_h1] exactly when two or more are. *)
Theorem analyzeHeadings_h1_issues (flatList : list FlatHeading)
    (targetKeyword : option string) :
  exists r,
    analyzeHeadings flatList targetKeyword = Some r
    /\ counts r = countByLevel flatList
    /\ (emits "missing_h1" (issues r)
        <-> Forall (fun h => tag h <> "h1"%string) flatList)
    /\ (emits "multiple_h1" (issues r) <-> 1 < count_if (is_tag "h1") flatList).
Proof.
  destruct (analyzeHeadings_issues flatList targetKeyword) as (r & Hr & Hc & Hi).
  exists r. split; [assumption|]. split; [assumption|].
  rewrite Hi, !emits_h1_issue by auto. split; [apply missing_h1_no_h1|].
  rewrite emits_h1_count_issues, h1_count_countByLevel.
  split; [intros [[H _]|[_ H]]; [discriminate H|exact H]|].
  intros H. right. now split.
Qed.

(** ** Which issues go together *)

Lemma valid_tag_level_1 (t : string) :
  valid_tag t = true -> (getHeadingLevel t = Some 1 <-> t = "h1"%string).
Proof.
  unfold valid_tag. intros H%bool_decide_eq_true.
  rewrite !elem_of_cons, elem_of_nil in H.
  destruct H as [->|[->|[->|[->|[->|[->|[]]]]]]]; split; intros E;
    (reflexivity || discriminate E).
Qed.

Lemma emits_first_heading_issues (t : string) (flatList : list FlatHeading) :
  emits t (first_heading_issues flatList)
  <-> t = "no_h1_first"%string
      /\ exists first rest, flatList = first :: rest
                            /\ num_eq (getHeadingLevel (tag first)) (Some 1) = false.
Proof.
  unfold emits, first_heading_issues. destruct flatList as [|first rest].
  - split; [intros (i & H & _); inversion H|]. intros (_ & f & r & E & _). discriminate E.
  - destruct (num_eq (getHeadingLevel (tag first)) (Some 1)) eqn:N.
    + split; [intros (i & H & _); inversion H|].
      intros (_ & f & r & [= <- <-] & E). congruence.
    + split.
      * intros (i & ->%list_elem_of_singleton & <-). split; [reflexivity|]. eauto.
      * intros (-> & _). exists (no_h1_first_issue first). split; [now left|reflexivity].
Qed.

Lemma num_eq_level_1 (t : string) :
  valid_tag t = true ->
  (num_eq (getHeadingLevel t) (Some 1) = false <-> t <> "h1"%string).
Proof.
  intros Hv. rewrite <- (valid_tag_level_1 t Hv).
  destruct (valid_tag_level t Hv) as (lv & -> & _). cbn.
  destruct (Z.eqb_spec lv 1) as [->|N]; split; congruence.
Qed.

(** X15.  On tags h1 .. h6, [no_h1_first] is reported exactly when the sequence
    starts with a heading other than h1; so a non-empty page reported as
    [missing_h1] is reported as [no_h1_first] too. *)
Theorem no_h1_first_iff (flatList : list FlatHeading) (targetKeyword : option string)
    (Hvalid : valid_tags flatList) :
  exists r,
    analyzeHeadings flatList targetKeyword = Some r
    /\ (emits "no_h1_first" (issues r)
        <-> exists first rest, flatList = first :: rest /\ tag first <> "h1"%string)
    /\ (flatList <> [] -> emits "missing_h1" (issues r) -> emits "no_h1_first" (issues r)).
Proof.
  destruct (analyzeHeadings_issues flatList targetKeyword) as (r & Hr & _ & Hi).
  exists r. split; [assumption|].
  assert (Hf : emits "no_h1_first" (issues r)
               <-> exists first rest, flatList = first :: rest
                                      /\ tag first <> "h1"%string).
  { rewrite Hi, !emits_app, emits_first_heading_issues. split.
    - intros [H|[H|[H|[H|H]]]].
      + apply emits_h1_count_issues in H as [[H _]|[H _]]; discriminate H.
      + destruct H as (i & H%empty_heading_issues_types & E). congruence.
      + destruct H as (i & H%skipped_level_issues_types & E). congruence.
      + destruct H as (_ & first & rest & -> & N). exists first, rest.
        split; [reflexivity|]. apply num_eq_level_1; [|assumption].
        now apply Forall_cons in Hvalid as [? _].
      + apply emits_keyword_issues in H. discriminate H.
    - intros (first & rest & -> & N). right. right. right. left.
      split; [reflexivity|]. exists first, rest. split; [reflexivity|].
      apply num_eq_level_1; [|assumption]. now apply Forall_cons in Hvalid as [? _]. }
  split; [exact Hf|].
  intros Hne Hmiss. apply Hf. rewrite Hi in Hmiss.
  apply emits_h1_issue in Hmiss; [|now left]. apply missing_h1_no_h1 in Hmiss.
  destruct flatList as [|first rest]; [congruence|].
  exists first, rest. split; [reflexivity|]. now apply Forall_cons in Hmiss as [? _].
Qed.

Lemma no_h1_first_iff_witness :
  exists r,
    analyzeHeadings flat_h2_only None = Some r
    /\ emits "no_h1_first" (issues r).
Proof.
  destruct (no_h1_first_iff flat_h2_only None) as (r & Hr & Hf & _).
  - repeat constructor.
  - exists r. split; [exact Hr|]. apply Hf.
    eexists _, _. split; [reflexivity|]. discriminate.
Defined.

(** ** Skipped levels *)

Lemma gap_free_contiguous (l : list Z) (x : Z) :
  StronglySorted Z.lt (x :: l) -> gap_issues (x :: l) = [] ->
  forall z y, y ∈ x :: l -> x <= z <= y -> z ∈ x :: l.
Proof.
  revert x. induction l as [|x' l IH]; intros x Hs Hg z y Hy Hz.
  - apply list_elem_of_singleton in Hy. apply list_elem_of_singleton. lia.
  - unfold gap_issues in Hg.
    change (adjacent_pairs (x :: x' :: l)) with ((x, x') :: adjacent_pairs (x' :: l)) in Hg.
    cbn [flat_map fst snd] in Hg. apply app_eq_nil in Hg as [Hg1 Hg2].
    apply StronglySorted_inv in Hs as [Hs Hx].
    pose proof (Forall_inv Hx) as Hlt.
    destruct (Z.gtb_spec (x' - x) 1) as [G|G]; [discriminate Hg1|].
    destruct (Z.eq_dec z x) as [->|Nz]; [now left|]. right.
    apply elem_of_cons in Hy as [->|Hy]; [lia|].
    apply (IH x' Hs Hg2 z y Hy). lia.
Qed.

Lemma gap_issues_unused (l : list Z) :
  StronglySorted Z.lt l ->
  (gap_issues l <> []
   <-> exists a z b, a ∈ l /\ b ∈ l /\ a < z < b /\ z ∉ l).
Proof.
  intros Hs. split.
  - induction Hs as [|x l Hs IH Hx]; [intros H; exfalso; now apply H|].
    destruct l as [|x' l]; [intros H; exfalso; now apply H|].
    unfold gap_issues.
    change (adjacent_pairs (x :: x' :: l)) with ((x, x') :: adjacent_pairs (x' :: l)).
    cbn [flat_map fst snd].
    destruct (Z.gtb_spec (x' - x) 1) as [G|G].
    + intros _. exists x, (x + 1), x'. split; [now left|]. split; [right; now left|].
      split; [lia|]. intros [E|H]%elem_of_cons; [lia|].
      apply elem_of_cons in H as [E|H]; [lia|].
      apply StronglySorted_inv in Hs as [_ Hx'].
      rewrite Forall_forall in Hx'. specialize (Hx' _ H). lia.
    + cbn [app]. intros Hg. destruct (IH Hg) as (a & z & b & Ha & Hb & Hz & Hn).
      exists a, z, b. split; [now right|]. split; [now right|]. split; [assumption|].
      intros [->|H]%elem_of_cons; [|contradiction].
      rewrite Forall_forall in Hx. specialize (Hx a Ha). lia.
  - intros (a & z & b & Ha & Hb & Hz & Hn) Hg.
    destruct l as [|x l]; [inversion Ha|].
    apply Hn. apply (gap_free_contiguous l x Hs Hg z b Hb).
    apply elem_of_cons in Ha as [->|Ha]; [lia|].
    apply StronglySorted_inv in Hs as [_ Hx]. rewrite Forall_forall in Hx.
    specialize (Hx a Ha). lia.
Qed.

Lemma emits_filter (t : string) (l : list SeoIssue) :
  emits t l <-> List.filter (has_type t) l <> [].
Proof.
  rewrite emits_existsb. induction l as [|i l IH]; cbn; [split; congruence|].
  destruct (has_type t i); cbn; [split; [discriminate|reflexivity]|exact IH].
Qed.

(** X16.  On tags that carry a level, [skipped_level] is reported exactly when
    some level between two used levels is unused; the order in which the
    levels appear in the document plays no part. *)
Theorem skipped_level_iff_unused_between (flatList : list FlatHeading)
    (counts : gmap string Z) (Hlevels : Forall has_level flatList) :
  emits "skipped_level" (identifyIssues flatList counts)
  <-> exists a z b,
        a ∈ used_levels flatList /\ b ∈ used_levels flatList
        /\ a < z < b /\ z ∉ used_levels flatList.
Proof.
  rewrite emits_filter, filter_skipped_identifyIssues.
  destruct (sorted_used_levels_spec flatList Hlevels) as (sorted & E & Hs & M).
  unfold skipped_level_issues. rewrite E, gap_issues_Some.
  rewrite (gap_issues_unused sorted Hs).
  split; intros (a & z & b & Ha & Hb & Hz & Hn); exists a, z, b.
  - rewrite <- !M. auto.
  - rewrite !M. auto.
Qed.

Lemma skipped_level_iff_unused_between_witness :
  emits "skipped_level" (identifyIssues flat_124 ∅).
Proof.
  apply (skipped_level_iff_unused_between flat_124 ∅).
  - repeat constructor; eexists; reflexivity.
  - exists 2, 3, 4. unfold used_levels. rewrite !elem_of_list_to_set.
    change (omap (fun h => getHeadingLevel (tag h)) flat_124) with [1; 2; 4; 2].
    rewrite !elem_of_cons, !elem_of_nil.
    split; [auto|]. split; [auto|]. split; [lia|]. lia.
Defined.

(** Levels 1, 3, 2 in this order: the document jumps from h1 to h3, yet no
    level is unused and nothing is reported. *)
Example no_skipped_level_out_of_order :
  List.filter (has_type "skipped_level")
    (identifyIssues
       [ {| tag := "h1"; text := "A"; order := 1 |};
         {| tag := "h3"; text := "B"; order := 2 |};
         {| tag := "h2"; text := "C"; order := 3 |} ] ∅) = [].
Proof. reflexivity. Qed.

(** ** Keyword presence: the three fields together *)

Lemma keyword_counts (keyword : string) (l : list FlatHeading) :
  count_if (fun h => is_tag "h2" h && keyword_matches keyword h) l
  + Z.b2z (h1_matched l keyword)
  <= count_if (keyword_matches keyword) l.
Proof.
  unfold count_if, len. induction l as [|h l IH]; [cbn; lia|].
  cbn [List.filter h1_matched existsb]. fold (h1_matched l keyword).
  change (is_tag "h2" h) with (String.eqb (tag h) "h2").
  change (is_tag "h1" h) with (String.eqb (tag h) "h1").
  destruct (keyword_matches keyword h); rewrite ?andb_false_r, ?andb_true_r.
  - destruct (String.eqb_spec (tag h) "h2") as [E2|_],
      (String.eqb_spec (tag h) "h1") as [E1|_].
    + rewrite E2 in E1. discriminate E1.
    + destruct (h1_matched l keyword); cbn [orb Z.b2z length] in *; lia.
    + destruct (h1_matched l keyword); cbn [orb Z.b2z length] in *; lia.
    + destruct (h1_matched l keyword); cbn [orb Z.b2z length] in *; lia.
  - cbn [orb]. exact IH.
Qed.

(** X17.  The keyword presence record is consistent: the match count covers the
    matching H2 texts plus one H1 when [inH1] is set and never exceeds the
    number of headings, and every text of [inH2] is the text of a matching
    h2 of the sequence. *)
Theorem keyword_presence_consistent (flatList : list FlatHeading) (keyword : string) :
  let kp := checkKeywordPresence flatList keyword in
  len (inH2 kp) + Z.b2z (inH1 kp) <= count kp <= len flatList
  /\ forall x, x ∈ inH2 kp ->
       exists h, h ∈ flatList /\ tag h = "h2"%string /\ text h = x
                 /\ text_matches keyword x = true.
Proof.
  cbv zeta. rewrite checkKeywordPresence_spec. cbn [inH1 inH2 count].
  split; [split|].
  - rewrite len_map. apply keyword_counts.
  - apply len_filter_le.
  - intros x Hx. change (map text ?l) with (text <$> l) in Hx.
    apply list_elem_of_fmap in Hx as (h & -> & Hh).
    apply list_elem_of_In, filter_In in Hh as [Hin [Ht Hm]%andb_prop].
    exists h. split; [now apply list_elem_of_In|].
    split; [now apply String.eqb_eq|]. split; [reflexivity|exact Hm].
Qed.

(** ** The scan *)

Lemma scan_from_lookup (k : Z) (elements : list (string * string)) (i : nat) :
  scan_from k elements !! i
  = (fun el => {| tag := fst el; text := snd el; order := k + Z.of_nat i + 1 |})
      <$> elements !! i.
Proof.
  revert k i. induction elements as [|[t x] rest IH]; intros k i; [now destruct i|].
  destruct i as [|i]; cbn [scan_from lookup list_lookup fmap option_fmap option_map].
  - cbn. do 2 f_equal. lia.
  - change ((scan_from (k + 1) rest) !! i
            = (fun el => {| tag := fst el; text := snd el;
                            order := k + Z.of_nat (S i) + 1 |}) <$> rest !! i).
    rewrite IH. destruct (rest !! i); cbn; [|reflexivity]. do 2 f_equal. lia.
Qed.

(** X18.  The scan keeps the elements in document order and numbers them from 1:
    the heading at index [i] carries [order = i + 1], and the orders are
    strictly increasing. *)
Theorem scan_numbers_from_one (elements : list (string * string)) :
  (forall i : nat,
      scan elements !! i
      = (fun el => {| tag := fst el; text := snd el; order := Z.of_nat i + 1 |})
          <$> elements !! i)
  /\ length (scan elements) = length elements
  /\ increasing_order (scan elements).
Proof.
  split; [|split].
  - intros i. unfold scan. rewrite scan_from_lookup.
    destruct (elements !! i); reflexivity.
  - unfold scan. generalize 0. induction elements as [|[t x] rest IH]; intros k; cbn;
      [reflexivity|]. now rewrite IH.
  - apply scan_increasing_order.
Qed.

(** ** The forest lists the headings in document order *)

Lemma obs_eta (h : FlatHeading) :
  {| tag := tag h; text := text h; order := order h |} = h.
Proof. now destruct h. Qed.

Lemma flatten_forest_app (l1 l2 : list HeadingNode) :
  flatten_forest (l1 ++ l2) = flatten_forest l1 ++ flatten_forest l2.
Proof. apply flat_map_app. Qed.

Lemma flatten_frame_node (f : Frame) (last : list HeadingNode) :
  flatten (frame_node f last)
  = f_obs f :: flatten_forest (f_closed f) ++ flatten_forest last.
Proof.
  unfold frame_node. cbn [flatten]. rewrite obs_eta. f_equal.
  apply flat_map_app.
Qed.

Lemma flatten_close_all (frames : list Frame) (acc roots : list HeadingNode) :
  flatten_forest (close_all frames acc roots)
  = flatten_forest roots ++ spine_flat frames ++ flatten_forest acc.
Proof.
  revert acc. induction frames as [|f below IH]; intros acc; cbn [close_all spine_flat].
  - apply flatten_forest_app.
  - rewrite IH. f_equal. rewrite <- app_assoc. f_equal.
    unfold flatten_forest at 1. cbn [flat_map]. rewrite app_nil_r.
    rewrite flatten_frame_node. reflexivity.
Qed.

(** Induction on a frozen object, with the hypothesis for its children. *)
Lemma frozen_children_ind (live : list nat) (heap : list HeapNode)
    (P : nat -> HeadingNode -> Prop) :
  (forall c p ts,
      c ∉ live -> heap !! c = Some p ->
      Forall2 (frozen live heap) (hn_children p) ts ->
      Forall2 P (hn_children p) ts ->
      P c (mkHeadingNode (hn_tag p) (hn_text p) (hn_order p) ts)) ->
  forall c t, frozen live heap c t -> P c t.
Proof.
  intros step. fix IH 3. intros c t [c' p ts Hlive Hp Hts].
  apply step; [assumption..|].
  clear Hp. induction Hts as [|x y xs ys Hxy _ IHts]; constructor.
  - exact (IH _ _ Hxy).
  - exact IHts.
Qed.

(** A frozen object stays frozen when the store changes elsewhere. *)
Lemma frozen_transfer (live live' : list nat) (heap heap' : list HeapNode) :
  (forall c p, c ∉ live -> heap !! c = Some p -> (c ∉ live') /\ heap' !! c = Some p) ->
  forall c t, frozen live heap c t -> frozen live' heap' c t.
Proof.
  intros H. apply frozen_children_ind. intros c p ts Hlive Hp _ IH.
  destruct (H c p Hlive Hp) as [Hlive' Hp']. now constructor.
Qed.

Lemma open_chain_transfer (live live' : list nat) (heap heap' : list HeapNode)
    (tree : list nat) (roots : list HeadingNode) (above : option nat)
    (frames : list Frame) :
  (forall c t, frozen live heap c t -> frozen live' heap' c t) ->
  Forall (fun f => heap' !! f_ref f = heap !! f_ref f) frames ->
  open_chain live heap tree roots above frames ->
  open_chain live' heap' tree roots above frames.
Proof.
  intros Hfr Hsame. revert above.
  induction Hsame as [|f below Hf _ IH]; intros above; cbn [open_chain].
  - intros (crefs & E & F). exists crefs. split; [assumption|].
    eapply Forall2_impl; [exact F|exact Hfr].
  - intros [(p & crefs & Hp & Ho & F & Hc) Hbelow]. split.
    + exists p, crefs. rewrite Hf. repeat split; try assumption.
      eapply Forall2_impl; [exact F|exact Hfr].
    + apply IH, Hbelow.
Qed.

(** Closing the frame on top of the stack: its tree becomes the last closed
    child of the frame below, or the last root. *)
Lemma open_chain_pop (heap : list HeapNode) (tree : list nat)
    (roots : list HeadingNode) (f : Frame) (below : list Frame) :
  NoDup (f_ref f :: (f_ref <$> below)) ->
  open_chain (f_ref f :: (f_ref <$> below)) heap tree roots None (f :: below) ->
  exists below' roots',
    f_ref <$> below' = f_ref <$> below
    /\ open_chain (f_ref <$> below) heap tree roots' None below'
    /\ close_all below' [] roots' = close_all (f :: below) [] roots.
Proof.
  intros [Hnotin Hnd]%NoDup_cons.
  cbn [open_chain]. intros [(p & crefs & Hp & Ho & F & Hc) Hbelow].
  cbn [option_list] in Hc. rewrite app_nil_r in Hc.
  assert (Hfr : forall c t, frozen (f_ref f :: (f_ref <$> below)) heap c t ->
                            frozen (f_ref <$> below) heap c t).
  { apply frozen_transfer. intros c q Hl Hq. split; [|assumption].
    intros Hin. apply Hl. now apply elem_of_cons; right. }
  assert (Hf : frozen (f_ref <$> below) heap (f_ref f) (frame_node f [])).
  { unfold frame_node. rewrite <- Ho. cbn [hn_obs tag text order].
    constructor; [assumption..|]. rewrite Hc, app_nil_r.
    eapply Forall2_impl; [exact F|exact Hfr]. }
  assert (Hchain : forall above,
             open_chain (f_ref f :: (f_ref <$> below)) heap tree roots above below ->
             open_chain (f_ref <$> below) heap tree roots above below).
  { intros above. apply open_chain_transfer; [exact Hfr|].
    apply Forall_forall. reflexivity. }
  destruct below as [|g below'].
  - exists [], (roots ++ [frame_node f []]). split; [reflexivity|].
    cbn [open_chain close_all] in *. split; [|now rewrite app_nil_r].
    destruct Hbelow as (rrefs & E & FR). exists (rrefs ++ [f_ref f]).
    cbn [option_list] in *. split; [now rewrite app_nil_r|].
    apply Forall2_app; [|now repeat constructor].
    eapply Forall2_impl; [exact FR|exact Hfr].
  - exists ({| f_ref := f_ref g; f_obs := f_obs g;
               f_closed := f_closed g ++ [frame_node f []] |} :: below'),
           roots.
    split; [reflexivity|].
    apply Hchain in Hbelow. cbn [open_chain] in Hbelow.
    destruct Hbelow as [(q & qrefs & Hq & Hqo & FQ & Hqc) Hrest].
    split.
    + cbn [open_chain f_ref f_obs f_closed]. split; [|exact Hrest].
      exists q, (qrefs ++ [f_ref f]). repeat split; try assumption.
      * apply Forall2_app; [assumption|now repeat constructor].
      * cbn [option_list] in *. now rewrite app_nil_r.
    + cbn [close_all]. unfold frame_node at 1 3.
      cbn [f_ref f_obs f_closed]. now rewrite app_nil_r.
Qed.

Lemma stands_for_pop heap tree e stack forest :
  stands_for heap tree (e :: stack) forest -> stands_for heap tree stack forest.
Proof.
  intros (frames & roots & Hrefs & Hnd & Hchain & ->).
  destruct frames as [|f below]; [discriminate Hrefs|].
  cbn [fmap list_fmap] in Hrefs, Hnd, Hchain. injection Hrefs as _ Hrefs.
  destruct (open_chain_pop _ _ _ _ _ Hnd Hchain) as (below' & roots' & E & Hc & Hcl).
  exists below', roots'. rewrite E. repeat split; try assumption.
  - now apply NoDup_cons in Hnd as [_ ?].
  - now symmetry.
Qed.

Lemma stands_for_pop_while heap heap' level tree stack forest :
  stands_for heap tree stack forest ->
  stands_for heap tree (pop_while heap' level stack) forest.
Proof.
  destruct (pop_while_suffix heap' level stack) as (popped & E & _).
  rewrite E at 1. clear E.
  induction popped as [|e popped IH]; [trivial|].
  intros H. apply IH. eapply stands_for_pop, H.
Qed.

Lemma open_chain_refs live heap tree roots above frames :
  open_chain live heap tree roots above frames ->
  Forall (fun f => is_Some (heap !! f_ref f)) frames.
Proof.
  revert above. induction frames as [|f below IH]; intros above; [constructor|].
  cbn [open_chain]. intros [(p & _ & Hp & _) Hbelow].
  constructor; [now exists p|exact (IH _ Hbelow)].
Qed.

(** One iteration keeps the invariant and appends the heading to the
    document order of the forest. *)
Lemma stands_for_step (b : Builder) (item : FlatHeading) (forest : list HeadingNode) :
  store_ok b ->
  stands_for (heap b) (tree b) (stack b) forest ->
  exists forest',
    stands_for (heap (build_step b item)) (tree (build_step b item))
               (stack (build_step b item)) forest'
    /\ flatten_forest forest' = flatten_forest forest ++ [item].
Proof.
  intros Hok Hst. pose proof (ok_stack b Hok) as Hstack.
  destruct (build_step_spec b item Hstack) as (Est & Etree & Elen & Enew & Eold).
  apply (stands_for_pop_while _ (heap b) (getHeadingLevel (tag item))) in Hst.
  destruct Hst as (frames & roots & Hrefs & Hnd & Hchain & ->).
  set (n := length (heap b)) in *.
  set (fn := {| f_ref := n; f_obs := item; f_closed := [] |}).
  assert (Hattach : attach b item = f_ref <$> head frames).
  { unfold attach.
    destruct (pop_while _ _ _) as [|e st], frames as [|f below];
      try discriminate Hrefs; [reflexivity|].
    cbn in Hrefs |- *. now injection Hrefs as -> _. }
  pose proof (open_chain_refs _ _ _ _ _ _ Hchain) as Hin.
  assert (Hfresh : n ∉ f_ref <$> frames).
  { intros (f & E & Hf)%list_elem_of_fmap. rewrite Forall_forall in Hin.
    destruct (Hin f Hf) as [p Hp]. apply lookup_lt_Some in Hp. lia. }
  assert (Hfr : forall c t, frozen (f_ref <$> frames) (heap b) c t ->
                  frozen (n :: (f_ref <$> frames)) (heap (build_step b item)) c t).
  { apply frozen_transfer. intros c p Hl Hp. split.
    - intros [->|Hc]%elem_of_cons; [|contradiction].
      apply lookup_lt_Some in Hp. lia.
    - rewrite (Eold _ _ Hp). destruct (decide _) as [D|_]; [|reflexivity].
      exfalso. apply Hl. rewrite Hattach in D.
      destruct frames as [|f below]; [discriminate D|].
      cbn in D. injection D as <-. now left. }
  exists (close_all (fn :: frames) [] roots). split.
  - exists (fn :: frames), roots. rewrite Est. cbn [fmap list_fmap se_node f_ref fn].
    split; [now rewrite Hrefs|]. split; [now apply NoDup_cons|].
    split; [|reflexivity].
    change (list_fmap Frame nat f_ref frames) with (f_ref <$> frames).
    cbn [open_chain f_ref f_obs f_closed fn]. split.
    { exists (new_node item), []. repeat split; [assumption| |constructor].
      unfold new_node, hn_obs. cbn. apply obs_eta. }
    rewrite Etree, Hattach.
    destruct frames as [|g below]; cbn [open_chain head fmap option_fmap option_map].
    + destruct Hchain as (rrefs & E & FR). cbn [option_list] in *.
      rewrite app_nil_r in E. exists rrefs. split; [now rewrite E|].
      eapply Forall2_impl; [exact FR|exact Hfr].
    + cbn [open_chain] in Hchain.
      destruct Hchain as [(p & crefs & Hp & Ho & F & Hc) Hbelow].
      cbn [fmap list_fmap] in Hnd. apply NoDup_cons in Hnd as [Hg Hnd].
      split.
      * exists (push_child n p), crefs. rewrite (Eold _ _ Hp), Hattach.
        cbn [head fmap option_fmap option_map].
        destruct (decide _) as [_|D]; [|now destruct D].
        repeat split; [assumption| |].
        -- eapply Forall2_impl; [exact F|exact Hfr].
        -- cbn [push_child hn_children option_list] in *.
           now rewrite Hc, app_nil_r.
      * rewrite app_nil_r. revert Hbelow. apply open_chain_transfer; [exact Hfr|].
        apply Forall_forall. intros f Hf.
        apply Forall_cons in Hin as [_ Hin]. rewrite Forall_forall in Hin.
        destruct (Hin f Hf) as [q Hq]. rewrite (Eold _ _ Hq), Hattach, Hq.
        cbn [head fmap option_fmap option_map].
        destruct (decide _) as [[= D]|_]; [|reflexivity].
        exfalso. apply Hg. rewrite D. apply list_elem_of_fmap. now exists f.
  - rewrite !flatten_close_all. cbn [spine_flat fn f_obs f_closed].
    unfold flatten_forest. cbn [flat_map app]. now rewrite !app_nil_r, app_assoc.
Qed.

Lemma stands_for_run_from (l : list FlatHeading) (b : Builder) (forest : list HeadingNode) :
  store_ok b ->
  stands_for (heap b) (tree b) (stack b) forest ->
  exists forest',
    stands_for (heap (fold_left build_step l b)) (tree (fold_left build_step l b))
               (stack (fold_left build_step l b)) forest'
    /\ flatten_forest forest' = flatten_forest forest ++ l.
Proof.
  revert b forest. induction l as [|item l IH]; intros b forest Hok Hst; cbn [fold_left].
  - exists forest. now rewrite app_nil_r.
  - destruct (stands_for_step b item forest Hok Hst) as (forest1 & Hst1 & E1).
    destruct (IH _ forest1 (store_ok_step _ item Hok) Hst1) as (forest' & Hst' & E').
    exists forest'. split; [assumption|]. now rewrite E', E1, <- app_assoc.
Qed.

(** A frozen object is read from the store as its tree. *)
Lemma frozen_reify (live : list nat) (heap : list HeapNode) c t :
  frozen live heap c t -> forall f t', reify f heap c = Some t' -> t' = t.
Proof.
  revert c t. apply (frozen_children_ind live heap
    (fun c t => forall f t', reify f heap c = Some t' -> t' = t)).
  intros c p ts _ Hp _ IH f t' Hr.
  apply reify_unfold in Hr as (f' & p' & cs & -> & Hp' & Hcs & ->).
  assert (p' = p) as -> by congruence. f_equal.
  clear Hp Hp'. revert cs Hcs.
  induction IH as [|x y xs ys Hxy _ IHxs]; intros cs Hcs.
  - now inversion Hcs.
  - inversion Hcs as [|x' z xs' zs Hxz Hrest]; subst. f_equal.
    + exact (Hxy _ _ Hxz).
    + exact (IHxs _ Hrest).
Qed.

(** X19.  Read in document order, the forest is the list it was built from: each
    heading is the observation of exactly one node, a node comes before the
    nodes below it, and a tree before the trees to its right. *)
Theorem buildHeadingTree_document_order (flatList : list FlatHeading) :
  exists forest,
    buildHeadingTree flatList = Some forest
    /\ flatten_forest forest = flatList.
Proof.
  destruct (buildHeadingTree_total flatList) as [forest Hf].
  exists forest. split; [assumption|].
  pose proof (buildHeadingTree_Forall2 flatList forest Hf) as F.
  assert (Hinit : stands_for (heap build_init) (tree build_init) (stack build_init) []).
  { exists [], []. cbn. repeat split; [constructor|]. exists []. split; [reflexivity|constructor]. }
  destruct (stands_for_run_from flatList build_init [] store_ok_init Hinit)
    as (forest' & Hst & E).
  fold (build_run flatList) in Hst. cbn in E. rewrite <- E. f_equal. clear E Hf Hinit.
  apply (stands_for_pop_while _ [] None) in Hst.
  assert (Hall : forall st, stands_for (heap (build_run flatList)) (tree (build_run flatList)) st forest' ->
                 stands_for (heap (build_run flatList)) (tree (build_run flatList)) [] forest').
  { induction st as [|e st IH]; [trivial|]. intros H. eapply IH, stands_for_pop, H. }
  apply Hall in Hst. clear Hall.
  destruct Hst as (frames & roots & Hrefs & _ & Hchain & ->).
  destruct frames as [|? ?]; [|discriminate Hrefs].
  cbn [open_chain close_all option_list] in *.
  destruct Hchain as (rrefs & Et & FR). rewrite !app_nil_r in *. subst rrefs.
  revert F FR. generalize (tree (build_run flatList)). intros refs F.
  revert roots. induction F as [|r t refs ts Hr _ IH]; intros roots FR.
  - now inversion FR.
  - inversion FR as [|r' t' refs' ts' Hfz Hrest]; subst. f_equal.
    + exact (frozen_reify _ _ _ _ Hfz _ _ Hr).
    + exact (IH _ Hrest).
Qed.

(** ** The parent of a heading is the nearest shallower heading before it *)

Lemma num_ge_true (a b : option Z) (x y : Z) :
  a = Some x -> b = Some y -> num_ge a b = true -> y <= x.
Proof. intros -> ->. cbn. rewrite Z.geb_leb. intros H%Z.leb_le. exact H. Qed.

Lemma num_ge_false (a b : option Z) (x y : Z) :
  a = Some x -> b = Some y -> num_ge a b = false -> x < y.
Proof. intros -> ->. cbn. rewrite Z.geb_leb. intros H%Z.leb_gt. exact H. Qed.

Lemma level_le_trans t1 t2 t3 : level_le t1 t2 -> level_le t2 t3 -> level_le t1 t3.
Proof.
  intros (l1 & l2 & E1 & E2 & L) (l2' & l3 & E2' & E3 & L').
  exists l1, l3. repeat split; [assumption..|].
  assert (l2 = l2') by congruence. lia.
Qed.

Lemma level_le_refl (h : FlatHeading) : has_level h -> level_le (tag h) (tag h).
Proof. intros [l Hl]. exists l, l. repeat split; [assumption..|lia]. Qed.

Lemma lookup_has_level (l : list FlatHeading) i h :
  Forall has_level l -> l !! i = Some h -> has_level h.
Proof.
  intros Hl Hi. rewrite Forall_forall in Hl. eapply Hl, list_elem_of_lookup_2, Hi.
Qed.

Lemma run_length (l : list FlatHeading) : length (heap (build_run l)) = length l.
Proof. rewrite <- (obs_run l) at 2. now rewrite length_fmap. Qed.

Lemma entry_level_run (l : list FlatHeading) e h :
  l !! se_node e = Some h ->
  entry_level (heap (build_run l)) e = getHeadingLevel (tag h).
Proof.
  intros H. pose proof (obs_run l) as E.
  apply (f_equal (fun x => x !! se_node e)) in E. rewrite list_lookup_fmap, H in E.
  unfold entry_level.
  destruct (heap (build_run l) !! se_node e) as [p|]; [|discriminate E].
  cbn in E. injection E as <-. reflexivity.
Qed.

Lemma sorted_below_head (top : StackEntry) (rest : list StackEntry) e :
  StronglySorted (fun e e' => (se_node e' < se_node e)%nat) (top :: rest) ->
  e ∈ top :: rest -> (se_node e <= se_node top)%nat.
Proof.
  intros [_ Hall]%StronglySorted_inv [->|He]%elem_of_cons; [lia|].
  rewrite Forall_forall in Hall. specialize (Hall e He). cbn in Hall. lia.
Qed.

(** What the [while] loop leaves and what it pops, for the heading [item]
    after the headings [l]. *)
Lemma pop_analysis (l : list FlatHeading) (item : FlatHeading) :
  Forall has_level l -> has_level item ->
  stack_ok l (stack (build_run l)) ->
  exists popped rest,
    pop_while (heap (build_run l)) (getHeadingLevel (tag item)) (stack (build_run l))
    = rest
    /\ stack (build_run l) = popped ++ rest
    /\ (forall e h, e ∈ popped -> l !! se_node e = Some h ->
          level_le (tag item) (tag h))
    /\ (forall e h, e ∈ rest -> l !! se_node e = Some h ->
          level_below (tag h) (tag item))
    /\ (forall j hj, l !! j = Some hj ->
          (forall e, head rest = Some e -> (se_node e < j)%nat) ->
          level_le (tag item) (tag hj)).
Proof.
  intros Hl [L HL] [Hsorted Hmin Hcov].
  destruct (pop_while_suffix (heap (build_run l)) (getHeadingLevel (tag item))
              (stack (build_run l))) as (popped & E & Hpopped).
  remember (pop_while (heap (build_run l)) (getHeadingLevel (tag item))
              (stack (build_run l))) as rest eqn:Erest.
  symmetry in Erest. exists popped, rest. split; [reflexivity|]. split; [exact E|].
  assert (Hpop : forall e h, e ∈ popped -> l !! se_node e = Some h ->
                             level_le (tag item) (tag h)).
  { intros e h He Hh. rewrite Forall_forall in Hpopped. specialize (Hpopped e He).
    cbn in Hpopped. rewrite (entry_level_run _ _ _ Hh) in Hpopped.
    destruct (lookup_has_level _ _ _ Hl Hh) as [lh Hlh].
    exists L, lh. repeat split; [assumption..|].
    exact (num_ge_true _ _ _ _ Hlh HL Hpopped). }
  assert (Hrest_sorted : StronglySorted (fun e e' => (se_node e' < se_node e)%nat) rest).
  { rewrite E in Hsorted. now apply StronglySorted_app in Hsorted as (_ & _ & ?). }
  split; [exact Hpop|]. split.
  - destruct rest as [|top rest']; [intros e h He; inversion He|].
    pose proof (pop_while_head _ _ _ _ _ Erest) as Htop.
    assert (Htop_in : top ∈ stack (build_run l)).
    { rewrite E. apply elem_of_app. right. now left. }
    pose proof (ok_stack _ (store_ok_run l)) as Hrange.
    rewrite Forall_forall in Hrange. specialize (Hrange top Htop_in).
    cbn in Hrange. rewrite run_length in Hrange.
    destruct (lookup_lt_is_Some_2 l _ Hrange) as [ht Hht].
    assert (Hbelow : level_below (tag ht) (tag item)).
    { rewrite (entry_level_run _ _ _ Hht) in Htop.
      destruct (lookup_has_level _ _ _ Hl Hht) as [lt Hlt].
      exists lt, L. repeat split; [assumption..|].
      exact (num_ge_false _ _ _ _ Hlt HL Htop). }
    intros e h [->|He]%elem_of_cons Hh.
    + assert (h = ht) as -> by congruence. exact Hbelow.
    + apply StronglySorted_inv in Hrest_sorted as [_ Hall].
      rewrite Forall_forall in Hall. specialize (Hall e He). cbn in Hall.
      eapply level_below_trans; [|exact Hbelow].
      apply (Hmin e (se_node top) h ht); [|assumption..].
      rewrite E. apply elem_of_app. right. now right.
  - intros j hj Hj Hhead.
    destruct (Hcov j hj Hj) as (e & hi & He & Hle & Hi & Hlev).
    rewrite E in He. apply elem_of_app in He as [He|He].
    + exact (level_le_trans _ _ _ (Hpop e hi He Hi) Hlev).
    + exfalso. destruct rest as [|top rest']; [inversion He|].
      specialize (Hhead top eq_refl).
      pose proof (sorted_below_head _ _ _ Hrest_sorted He). lia.
Qed.

Lemma stack_ok_run (l : list FlatHeading) :
  Forall has_level l -> stack_ok l (stack (build_run l)).
Proof.
  induction l as [|item l IH] using rev_ind; intros Hl.
  - split; cbn.
    + constructor.
    + intros e j hi hj He. inversion He.
    + intros j hj Hj. discriminate Hj.
  - apply Forall_app in Hl as [Hl Hitem]. apply Forall_cons in Hitem as [Hitem _].
    specialize (IH Hl).
    destruct (pop_analysis l item Hl Hitem IH)
      as (popped & rest & Erest & E & Hpop & Hrest & _).
    pose proof (store_ok_run l) as Hok.
    destruct (build_step_spec _ item (ok_stack _ Hok)) as (Est & _).
    rewrite run_app. cbn [fold_left]. rewrite Est, Erest, run_length.
    destruct IH as [Hsorted Hmin Hcov].
    assert (Hsub : forall e, e ∈ rest -> e ∈ stack (build_run l)).
    { intros e He. rewrite E. apply elem_of_app. now right. }
    assert (Hlt : forall e, e ∈ stack (build_run l) -> (se_node e < length l)%nat).
    { intros e He. pose proof (ok_stack _ Hok) as Hrange.
      rewrite Forall_forall in Hrange. specialize (Hrange e He).
      cbn in Hrange. now rewrite run_length in Hrange. }
    split.
    + constructor.
      * rewrite E in Hsorted. now apply StronglySorted_app in Hsorted as (_ & _ & ?).
      * apply Forall_forall. intros e He. cbn. apply Hlt, Hsub, He.
    + intros e j hi hj [->|He]%elem_of_cons Hej Hi Hj.
      * apply lookup_lt_Some in Hj. rewrite length_app in Hj. cbn in Hj, Hej. lia.
      * pose proof (Hlt e (Hsub e He)) as He_lt.
        rewrite lookup_app_l in Hi by assumption.
        destruct (decide (j < length l)%nat) as [J|J].
        -- rewrite lookup_app_l in Hj by assumption.
           exact (Hmin e j hi hj (Hsub e He) Hej Hi Hj).
        -- pose proof (lookup_lt_Some _ _ _ Hj) as J'.
           rewrite length_app in J'. cbn in J'.
           assert (j = length l) as -> by lia.
           rewrite list_lookup_middle in Hj by reflexivity. injection Hj as <-.
           exact (Hrest e hi He Hi).
    + intros j hj Hj.
      set (top := {| se_node := length l; se_level := getHeadingLevel (tag item) |}).
      assert (Htop : (l ++ [item]) !! se_node top = Some item)
        by (now apply list_lookup_middle).
      destruct (decide (j < length l)%nat) as [J|J].
      * rewrite lookup_app_l in Hj by assumption.
        destruct (Hcov j hj Hj) as (e & hi & He & Hle & Hi & Hlev).
        rewrite E in He. apply elem_of_app in He as [He|He].
        -- exists top, item. split; [now left|]. split; [cbn; lia|].
           split; [assumption|].
           exact (level_le_trans _ _ _ (Hpop e hi He Hi) Hlev).
        -- exists e, hi. split; [now right|]. split; [assumption|].
           split; [|assumption].
           rewrite lookup_app_l; [assumption|]. apply Hlt, Hsub, He.
      * pose proof (lookup_lt_Some _ _ _ Hj) as J'.
        rewrite length_app in J'. cbn in J'.
        assert (j = length l) as -> by lia.
        rewrite list_lookup_middle in Hj by reflexivity. injection Hj as <-.
        exists top, item. split; [now left|]. split; [cbn; lia|].
        split; [assumption|]. now apply level_le_refl.
Qed.

Lemma attach_head_rest (b : Builder) (item : FlatHeading) rest :
  pop_while (heap b) (getHeadingLevel (tag item)) (stack b) = rest ->
  attach b item = se_node <$> head rest.
Proof. intros <-. reflexivity. Qed.

(** X20.  The node of a heading is pushed into the children of the nearest
    heading before it whose level is strictly smaller, and into the roots
    when no heading before it has a smaller level. *)
Theorem parent_is_nearest_shallower (pre post : list FlatHeading) (item : FlatHeading)
    (Hpre : Forall has_level pre) (Hitem : has_level item) :
  let b := build_run (pre ++ item :: post) in
  let n := length pre in
  (n ∈ tree b /\ forall h, h ∈ pre -> level_le (tag item) (tag h))
  \/ (exists p node hp,
        heap b !! p = Some node /\ n ∈ hn_children node
        /\ pre !! p = Some hp /\ level_below (tag hp) (tag item)
        /\ forall j hj, (p < j)%nat -> pre !! j = Some hj ->
             level_le (tag item) (tag hj)).
Proof.
  cbv zeta.
  destruct (pop_analysis pre item Hpre Hitem (stack_ok_run pre Hpre))
    as (popped & rest & Erest & E & _ & Hrest & Hfar).
  pose proof (store_ok_run pre) as Hok.
  pose proof (ok_stack _ Hok) as Hstack.
  destruct (build_step_spec _ item Hstack) as (_ & Etree & _ & _ & Eold).
  rewrite (attach_head_rest _ _ _ Erest), run_length in Etree, Eold.
  destruct (store_ok_run_from (build_step (build_run pre) item) post) as [_ [[t T] Hg]].
  { now apply store_ok_step. }
  change (pre ++ item :: post) with (pre ++ [item] ++ post).
  rewrite app_assoc, run_app, run_app. cbn [fold_left].
  destruct rest as [|top rest']; cbn [head fmap option_fmap option_map] in Etree, Eold.
  - left. split.
    + rewrite T, Etree, !elem_of_app, list_elem_of_singleton. auto.
    + intros h [j Hj]%list_elem_of_lookup. apply (Hfar j h Hj).
      intros e He. discriminate He.
  - right.
    assert (Htop_in : top ∈ stack (build_run pre)).
    { rewrite E. apply elem_of_app. right. now left. }
    rewrite Forall_forall in Hstack. specialize (Hstack top Htop_in). cbn in Hstack.
    destruct (lookup_lt_is_Some_2 _ _ Hstack) as [node Hnode].
    pose proof (Eold _ _ Hnode) as Hnew.
    rewrite decide_True in Hnew by reflexivity.
    destruct (Hg _ _ Hnew) as (node' & cs & Hnode' & _ & Hcs).
    exists (se_node top), node', (hn_obs node).
    split; [exact Hnode'|]. split.
    { rewrite Hcs. cbn. rewrite !elem_of_app, list_elem_of_singleton. auto. }
    pose proof (run_lookup _ _ _ Hnode) as Hp.
    split; [exact Hp|]. split.
    { apply (Hrest top); [now left|exact Hp]. }
    intros j hj Hlt Hj. apply (Hfar j hj Hj).
    intros e [= <-]. exact Hlt.
Qed.

Lemma parent_is_nearest_shallower_witness :
  let pre := [ {| tag := "h1"; text := "Title"; order := 1 |};
               {| tag := "h2"; text := "Sec A"; order := 2 |};
               {| tag := "h3"; text := "Sub"; order := 3 |} ] in
  let item := {| tag := "h2"; text := "Sec B"; order := 4 |} in
  let b := build_run (pre ++ item :: []) in
  (3%nat ∈ tree b /\ forall h, h ∈ pre -> level_le (tag item) (tag h))
  \/ (exists p node hp,
        heap b !! p = Some node /\ 3%nat ∈ hn_children node
        /\ pre !! p = Some hp /\ level_below (tag hp) (tag item)
        /\ forall j hj, (p < j)%nat -> pre !! j = Some hj ->
             level_le (tag item) (tag hj)).
Proof.
  cbv zeta.
  apply (parent_is_nearest_shallower
           [ {| tag := "h1"; text := "Title"; order := 1 |};
             {| tag := "h2"; text := "Sec A"; order := 2 |};
             {| tag := "h3"; text := "Sub"; order := 3 |} ]
           []
           {| tag := "h2"; text := "Sec B"; order := 4 |}).
  - repeat constructor; eexists; vm_compute; reflexivity.
  - eexists; vm_compute; reflexivity.
Defined.

(** ** Siblings *)

Lemma adjacent_snoc {A} (k k' x : A) (t : list A) :
  adjacent k k' (t ++ [x]) -> adjacent k k' t \/ (k' = x /\ k ∈ t).
Proof.
  intros (l1 & l2 & E). destruct l2 as [|y l2 _] using rev_ind.
  - right. change (l1 ++ [k; k']) with (l1 ++ [k] ++ [k']) in E.
    rewrite app_assoc in E. apply app_inj_tail in E as [-> ->].
    split; [reflexivity|]. apply elem_of_app. right. now left.
  - left. rewrite !app_comm_cons, app_assoc in E.
    apply app_inj_tail in E as [-> _]. now exists l1, l2.
Qed.

Lemma adjacent_elem_of {A} (k k' : A) (t : list A) :
  adjacent k k' t -> k ∈ t /\ k' ∈ t.
Proof.
  intros (l1 & l2 & ->). rewrite !elem_of_app, !elem_of_cons. auto.
Qed.

Lemma adjacent_nil {A} (k k' : A) : ~ adjacent k k' [].
Proof. intros (l1 & l2 & E). now destruct l1. Qed.

(** In the store, a reference listed right after another one, among the
    roots or among the children of one object, belongs to a heading that is
    no deeper. *)
Lemma siblings_run (l : list FlatHeading) :
  Forall has_level l ->
  (forall k k' hk hk',
      adjacent k k' (tree (build_run l)) ->
      l !! k = Some hk -> l !! k' = Some hk' -> level_le (tag hk') (tag hk))
  /\ (forall p node k k' hk hk',
        heap (build_run l) !! p = Some node -> adjacent k k' (hn_children node) ->
        l !! k = Some hk -> l !! k' = Some hk' -> level_le (tag hk') (tag hk)).
Proof.
  induction l as [|item l IH] using rev_ind; intros Hl.
  - split.
    + intros k k' hk hk' H. now apply adjacent_nil in H.
    + intros p node k k' hk hk' H. discriminate H.
  - apply Forall_app in Hl as [Hl Hitem]. apply Forall_cons in Hitem as [Hitem _].
    destruct (IH Hl) as [IHtree IHchildren].
    destruct (pop_analysis l item Hl Hitem (stack_ok_run l Hl))
      as (popped & rest & Erest & E & _ & _ & Hfar).
    pose proof (store_ok_run l) as Hok.
    pose proof (ok_stack _ Hok) as Hstack.
    destruct (build_step_spec _ item Hstack) as (_ & Etree & _ & _ & _).
    pose proof (attach_head_rest _ _ _ Erest) as Hattach.
    rewrite run_length in Etree.
    assert (Hold : forall k hk, (k < length l)%nat ->
                     (l ++ [item]) !! k = Some hk -> l !! k = Some hk).
    { intros k hk Hk. now rewrite lookup_app_l. }
    assert (Hnew : forall hk, (l ++ [item]) !! length l = Some hk -> hk = item).
    { intros hk. rewrite list_lookup_middle by reflexivity. congruence. }
    rewrite run_app. cbn [fold_left]. split.
    + intros k k' hk hk' Hadj Hk Hk'. rewrite Etree in Hadj.
      assert (Hin : forall r, r ∈ tree (build_run l) -> (r < length l)%nat).
      { intros r Hr. pose proof (ok_tree _ Hok) as Hrange.
        rewrite Forall_forall in Hrange. specialize (Hrange r Hr).
        cbn in Hrange. now rewrite run_length in Hrange. }
      assert (Hcase : adjacent k k' (tree (build_run l))
                      \/ (attach (build_run l) item = None /\ k' = length l
                          /\ k ∈ tree (build_run l))).
      { destruct (attach (build_run l) item).
        - left. now rewrite app_nil_r in Hadj.
        - apply adjacent_snoc in Hadj as [?|[? ?]]; auto. }
      destruct Hcase as [Hadj'|(A & -> & Hk_in)].
      * destruct (adjacent_elem_of _ _ _ Hadj') as [H1 H2].
        apply (IHtree k k'); [assumption|apply Hold; auto..].
      * apply Hnew in Hk'. subst hk'.
        apply (Hfar k hk); [apply Hold; auto|].
        rewrite Hattach in A. intros e He. rewrite He in A. discriminate A.
    + intros p node' k k' hk hk' Hp Hadj Hk Hk'.
      destruct (build_step_lookup _ item p node' Hstack Hp) as [[-> ->]|(node & Hnode & ->)].
      { now apply adjacent_nil in Hadj. }
      pose proof (ok_children _ Hok p node Hnode) as Hrange.
      rewrite Forall_forall in Hrange. rewrite run_length in Hrange.
      assert (Hcase : adjacent k k' (hn_children node)
                      \/ (attach (build_run l) item = Some p /\ k' = length l
                          /\ k ∈ hn_children node)).
      { destruct (decide _) as [A|_]; [|now left].
        cbn in Hadj. rewrite run_length in Hadj.
        apply adjacent_snoc in Hadj as [?|[? ?]]; auto. }
      destruct Hcase as [Hadj'|(A & -> & Hk_in)].
      * destruct (adjacent_elem_of _ _ _ Hadj') as [H1 H2].
        apply (IHchildren p node k k'); [assumption..|apply Hold|apply Hold]; auto;
          [apply (Hrange k H1)|apply (Hrange k' H2)].
      * apply Hnew in Hk'. subst hk'.
        apply (Hfar k hk); [apply Hold; [apply (Hrange k Hk_in)|assumption]|].
        rewrite Hattach in A. intros e He. rewrite He in A. injection A as <-.
        apply (Hrange k Hk_in).
Qed.

(** A list of siblings of the forest is read from the roots or from the
    children of one object of the store. *)
Lemma sibling_list_store heap tree forest n d siblings :
  Forall2 (fun r t => reify n heap r = Some t) tree forest ->
  sibling_list forest d siblings ->
  exists refs,
    Forall2 (fun r t => exists f, reify f heap r = Some t) refs siblings
    /\ (refs = tree \/ exists p node, heap !! p = Some node /\ refs = hn_children node).
Proof.
  intros F. induction 1 as [|d l m _ (refs & Hrefs & _) Hm].
  - exists tree. split; [|now left].
    eapply Forall2_impl; [exact F|]. intros r t H. now exists n.
  - apply list_elem_of_lookup in Hm as [i Hi].
    destruct (Forall2_lookup_r _ _ _ _ _ Hrefs Hi) as (r & _ & f & Hr).
    apply reify_unfold in Hr as (f' & p & cs & -> & Hp & Hcs & ->).
    exists (hn_children p). split.
    + cbn [children]. eapply Forall2_impl; [exact Hcs|]. intros c t H. now exists f'.
    + right. now exists r, p.
Qed.

(** X21.  Among the roots and among the children of any node, the level never
    increases from a node to its right neighbour. *)
Theorem sibling_levels_never_increase (flatList : list FlatHeading)
    (forest : list HeadingNode) (d : nat) (siblings : list HeadingNode)
    (na nc : HeadingNode)
    (Hlevels : Forall has_level flatList)
    (Hforest : buildHeadingTree flatList = Some forest)
    (Hsiblings : sibling_list forest d siblings)
    (Hadjacent : adjacent na nc siblings) :
  level_le (node_tag nc) (node_tag na).
Proof.
  pose proof (buildHeadingTree_Forall2 flatList forest Hforest) as F.
  destruct (sibling_list_store _ _ _ _ _ _ F Hsiblings) as (refs & Hrefs & Hwhere).
  apply Forall2_flip in Hrefs.
  destruct (Forall2_adjacent _ _ _ _ _ Hrefs Hadjacent)
    as (k & k' & Hadj & [fa Ha] & [fc Hc]).
  apply reify_obs in Ha as (pa & Hpa & Oa). apply reify_obs in Hc as (pc & Hpc & Oc).
  apply run_lookup in Hpa, Hpc.
  change (node_tag na) with (tag (obs na)). change (node_tag nc) with (tag (obs nc)).
  rewrite Oa, Oc.
  destruct (siblings_run flatList Hlevels) as [Htree Hchildren].
  destruct Hwhere as [->|(p & node & Hp & ->)].
  - exact (Htree k k' _ _ Hadj Hpa Hpc).
  - exact (Hchildren p node k k' _ _ Hp Hadj Hpa Hpc).
Qed.

Lemma sibling_levels_never_increase_witness :
  level_le "h2" "h3".
Proof.
  apply (sibling_levels_never_increase
           [ {| tag := "h1"; text := "Guide"; order := 1 |};
             {| tag := "h3"; text := "Note"; order := 2 |};
             {| tag := "h2"; text := "Start"; order := 3 |} ]
           [ mkHeadingNode "h1" "Guide" 1
               [ mkHeadingNode "h3" "Note" 2 []; mkHeadingNode "h2" "Start" 3 [] ] ]
           1
           [ mkHeadingNode "h3" "Note" 2 []; mkHeadingNode "h2" "Start" 3 [] ]
           (mkHeadingNode "h3" "Note" 2 []) (mkHeadingNode "h2" "Start" 3 [])).
  - repeat constructor; eexists; vm_compute; reflexivity.
  - vm_compute; reflexivity.
  - pose (root := mkHeadingNode "h1" "Guide" 1
               [ mkHeadingNode "h3" "Note" 2 []; mkHeadingNode "h2" "Start" 3 [] ]).
    apply (siblings_children [root] 0 [root] root); [apply siblings_roots|now left].
  - now exists [], [].
Defined.

(** ** Depth *)

(** X22.  A node at depth [d] (the roots are at depth 0) has a level of at least
    [d + 1]: the forest of a page with tags h1 .. h6 is at most six deep. *)
Theorem depth_below_level (flatList : list FlatHeading) (forest : list HeadingNode)
    (d : nat) (siblings : list HeadingNode) (n : HeadingNode)
    (Hvalid : valid_tags flatList)
    (Hforest : buildHeadingTree flatList = Some forest)
    (Hsiblings : sibling_list forest d siblings)
    (Hn : n ∈ siblings) :
  exists lv, getHeadingLevel (node_tag n) = Some lv /\ Z.of_nat d + 1 <= lv <= 6.
Proof.
  pose proof (forest_children_deeper _ _ (valid_tags_levels _ Hvalid) Hforest) as Hdeep.
  pose proof (forest_valid_tags _ _ Hvalid Hforest) as Htags.
  assert (Hall : forall m, m ∈ siblings ->
            tree_all children_deeper m
            /\ tree_all (fun x => valid_tag (node_tag x) = true) m
            /\ exists lv, getHeadingLevel (node_tag m) = Some lv
                          /\ Z.of_nat d + 1 <= lv <= 6).
  { clear n Hn. induction Hsiblings as [|d l parent _ IH Hparent]; intros m Hm.
    - rewrite Forall_forall in Hdeep, Htags.
      pose proof (Htags m Hm) as Hv. split; [auto|]. split; [assumption|].
      inversion Hv as [m' Hvm _]; subst.
      apply valid_tag_level in Hvm as (lv & E & R). exists lv. split; [assumption|lia].
    - destruct (IH parent Hparent) as (Hd & Hv & lp & Elp & Rlp).
      inversion Hd as [x Hdx Hdcs]; subst. inversion Hv as [x Hvx Hvcs]; subst.
      rewrite Forall_forall in Hdcs, Hvcs.
      pose proof (Hvcs m Hm) as Hvm. split; [auto|]. split; [assumption|].
      unfold children_deeper in Hdx. rewrite Forall_forall in Hdx.
      destruct (Hdx m Hm) as (a & c & Ea & Ec & Lt).
      inversion Hvm as [m' Hvm' _]; subst.
      apply valid_tag_level in Hvm' as (lv & E & R).
      exists lv. split; [assumption|].
      assert (a = lp) by congruence. assert (c = lv) by congruence. lia. }
  now apply Hall.
Qed.

Lemma depth_below_level_witness :
  exists lv, getHeadingLevel "h3" = Some lv /\ Z.of_nat 2 + 1 <= lv <= 6.
Proof.
  apply (depth_below_level flat_sections
           [ mkHeadingNode "h1" "Title" 1
               [ mkHeadingNode "h2" "Sec A" 2 [ mkHeadingNode "h3" "Sub" 3 [] ];
                 mkHeadingNode "h2" "Sec B" 4 [] ] ]
           2 [ mkHeadingNode "h3" "Sub" 3 [] ] (mkHeadingNode "h3" "Sub" 3 [])).
  - repeat constructor.
  - vm_compute; reflexivity.
  - pose (secA := mkHeadingNode "h2" "Sec A" 2 [ mkHeadingNode "h3" "Sub" 3 [] ]).
    pose (secB := mkHeadingNode "h2" "Sec B" 4 []).
    pose (root := mkHeadingNode "h1" "Title" 1 [ secA; secB ]).
    apply (siblings_children [root] 1 [secA; secB] secA); [|now left].
    apply (siblings_children [root] 0 [root] root); [apply siblings_roots|now left].
  - now left.
Defined.
